(** * NABIP AMS seed-data scripts: record generator and SQL batch splitter

    A shallow embedding of
      - [scripts/generate_member_seed_data.py]  (class [MemberGenerator]),
      - [scripts/import_to_supabase.py]         ([split_into_batches]),
      - [scripts/generate_members_for_existing_schema.py]
                                                (the batching loop of
                                                 [generate_members_sql]),
    and the properties of the specification that concern them.

    Conventions of the embedding.
      - Python [str] is [string]; a character is one of the 256 code points
        of [ascii], and the character classes used below follow Python's
        Unicode tables on that range.
      - Python [int] is [Z] (or [nat] for loop counters and lengths).
      - Python [float] is represented by a rational number ([Q]): a float
        literal by the decimal number it writes, a result of [random()] by
        the multiple of [2^-53] it is, and float arithmetic by exact
        arithmetic; rounding errors of floats are not modelled.
      - A [datetime] is a number of microseconds on the proleptic time line
        ([Z]); a date is a day number; a date string ["%Y-%m-%d"] is
        represented by the day it denotes, so [strftime] keeps the day and
        [strptime] yields that day at midnight (years 1000 to 9999).
      - The random generator, the wall clock and [uuid4] are tapes of the
        [World]; every call consumes the next cell of its tape.
      - [print] is not modelled.
      - A [while] loop runs on fuel; [OutOfFuel] is not a behaviour of the
        program, and the theorems show which runs never meet it. *)

From Stdlib Require Import ZArith QArith Qround Lqa String Ascii List Lia.
From stdpp Require Import base decidable option numbers list gmap sets strings pretty.

Local Open Scope string_scope.
Local Open Scope list_scope.
Local Open Scope Z_scope.

(** ** Outcomes and the interpreter monad *)

(** The Python exceptions that the modelled code can raise. *)
Inductive exn : Type :=
| IndexError   (* random.choice on an empty sequence *)
| ValueError.  (* range() with step 0, random.sample larger than population *)

Inductive outcome (A : Type) : Type :=
| Done (a : A)
| Raised (e : exn)
| OutOfFuel.
Arguments Done {A} a.
Arguments Raised {A} e.
Arguments OutOfFuel {A}.

(** The environment of a run: three tapes. *)
Record World : Type := mkWorld {
  rng   : nat -> N;        (* raw output of the random generator *)
  clock : nat -> Z;        (* successive readings of datetime.now(), in microseconds *)
  uuids : nat -> string    (* successive results of str(uuid.uuid4()) *)
}.

(** A chapter dictionary; [.get] finds a key or not. *)
Record Chapter : Type := mkChapter {
  ch_id : option string;
  ch_name : option string;
  ch_state : option string;
  ch_actual_member_count : option Z
}.

(** The [self] object of [MemberGenerator], and the tape positions. *)
Record State : Type := mkState {
  chapters : list Chapter;
  generated_emails : gset string;
  rng_pos : nat;
  clock_pos : nat;
  uuid_pos : nat
}.

Definition M (A : Type) : Type := nat -> World -> State -> outcome (A * State).

Definition ret {A} (a : A) : M A := fun _ _ st => Done (a, st).

Definition bind {A B} (m : M A) (k : A -> M B) : M B :=
  fun fuel w st =>
    match m fuel w st with
    | Done (a, st') => k a fuel w st'
    | Raised e => Raised e
    | OutOfFuel => OutOfFuel
    end.

Definition raise {A} (e : exn) : M A := fun _ _ _ => Raised e.

Declare Scope gen_scope.
Delimit Scope gen_scope with gen.
Notation "x <- m ;; k" := (bind m (fun x => k))
  (at level 100, m at next level, right associativity) : gen_scope.
Notation "m ;;; k" := (bind m (fun _ => k))
  (at level 100, right associativity) : gen_scope.
Local Open Scope gen_scope.

(** [while cond body] on a tuple [L] of local variables: the test is
    evaluated before every round, as in Python. *)
Fixpoint while_fuel {L} (cond : L -> M bool) (body : L -> M L) (n : nat) (l : L) : M L :=
  fun fuel w st =>
    match n with
    | O => OutOfFuel
    | S n' =>
        match cond l fuel w st with
        | Done (true, st1) =>
            match body l fuel w st1 with
            | Done (l', st2) => while_fuel cond body n' l' fuel w st2
            | Raised e => Raised e
            | OutOfFuel => OutOfFuel
            end
        | Done (false, st1) => Done (l, st1)
        | Raised e => Raised e
        | OutOfFuel => OutOfFuel
        end
    end.

Definition while {L} (cond : L -> M bool) (body : L -> M L) (l : L) : M L :=
  fun fuel w st => while_fuel cond body fuel l fuel w st.

(** [for i in range(n): acc = body i acc]. *)
Fixpoint for_range_from {A} (start n : nat) (body : nat -> A -> M A) (acc : A) : M A :=
  match n with
  | O => ret acc
  | S n' => acc' <- body start acc ;; for_range_from (S start) n' body acc'
  end.

Definition for_range {A} (n : nat) (body : nat -> A -> M A) (acc : A) : M A :=
  for_range_from 0 n body acc.

(** *** Primitive effects *)

Definition get_emails : M (gset string) :=
  fun _ _ st => Done (generated_emails st, st).

Definition add_email (e : string) : M unit :=
  fun _ _ st =>
    Done (tt, mkState (chapters st) ({[ e ]} ∪ generated_emails st)
                      (rng_pos st) (clock_pos st) (uuid_pos st)).

Definition get_chapters : M (list Chapter) :=
  fun _ _ st => Done (chapters st, st).

(** datetime.now() *)
Definition now : M Z :=
  fun _ w st =>
    Done (clock w (clock_pos st),
          mkState (chapters st) (generated_emails st)
                  (rng_pos st) (S (clock_pos st)) (uuid_pos st)).

(** str(uuid.uuid4()) *)
Definition uuid4 : M string :=
  fun _ w st =>
    Done (uuids w (uuid_pos st),
          mkState (chapters st) (generated_emails st)
                  (rng_pos st) (clock_pos st) (S (uuid_pos st))).

(** One raw draw of the generator. *)
Definition draw : M N :=
  fun _ w st =>
    Done (rng w (rng_pos st),
          mkState (chapters st) (generated_emails st)
                  (S (rng_pos st)) (clock_pos st) (uuid_pos st)).

(** *** The [random] module, on the tape *)

(** [random._randbelow(n)] for [n > 0]: a value of [range(n)]. *)
Definition randbelow (n : N) : M N :=
  r <- draw ;; ret (r mod n)%N.

(** [random.random()]: a multiple of [2^-53] in [[0, 1)]. *)
Definition two53 : positive := 9007199254740992.

Definition random_random : M Q :=
  r <- draw ;; ret (Z.of_N (r mod Npos two53) # two53).

(** [random.randint(a, b)] is [a + _randbelow(b - a + 1)]; it raises
    [ValueError] on an empty range. *)
Definition randint (a b : Z) : M Z :=
  if b <? a then raise ValueError
  else r <- randbelow (Z.to_N (b - a + 1)) ;; ret (a + Z.of_N r).

(** [random.choice(seq)]. *)
Definition choice {A} (seq : list A) : M A :=
  match seq with
  | [] => raise IndexError
  | x :: _ =>
      i <- randbelow (N.of_nat (length seq)) ;;
      ret (nth (N.to_nat i) seq x)
  end.

(** [random.uniform(a, b)] is [a + (b - a) * random()]. *)
Definition uniform (a b : Q) : M Q :=
  u <- random_random ;; ret (a + (b - a) * u)%Q.

(** [random.sample(population, k)] for a population of at most 21 elements
    (the pool branch of CPython): [k] rounds of
    [j = _randbelow(n - i); result[i] = pool[j]; pool[j] = pool[n - i - 1]]. *)
Fixpoint sample_pool {A} (d : A) (k : nat) (pool : list A) (n : nat) : M (list A) :=
  match k with
  | O => ret []
  | S k' =>
      j <- randbelow (N.of_nat n) ;;
      let x := nth (N.to_nat j) pool d in
      let pool' := <[ N.to_nat j := nth (n - 1) pool d ]> pool in
      rest <- sample_pool d k' pool' (n - 1) ;;
      ret (x :: rest)
  end.

Definition sample {A} (population : list A) (k : Z) : M (list A) :=
  match population with
  | [] => if k =? 0 then ret [] else raise ValueError
  | d :: _ =>
      if (k <? 0) || (Z.of_nat (length population) <? k) then raise ValueError
      else sample_pool d (Z.to_nat k) population (length population)
  end.

(** ** Strings *)

Definition code (c : ascii) : N := N_of_ascii c.

(** [str.lower()] on one code point below 256. *)
Definition lower_char (c : ascii) : ascii :=
  let n := code c in
  if ((65 <=? n) && (n <=? 90))%N then ascii_of_N (n + 32)
  else if ((192 <=? n) && (n <=? 222) && negb (n =? 215))%N then ascii_of_N (n + 32)
  else c.

Fixpoint lower (s : string) : string :=
  match s with
  | EmptyString => EmptyString
  | String c s' => String (lower_char c) (lower s')
  end.

(** [sep.join(parts)] *)
Fixpoint join (sep : string) (parts : list string) : string :=
  match parts with
  | [] => ""
  | [p] => p
  | p :: ps => p +:+ sep +:+ join sep ps
  end.

(** [str(n)] for an int. *)
Definition str_nat (n : nat) : string := pretty n.
Definition str_Z (z : Z) : string := pretty z.


(** ** Reference pools of [generate_member_seed_data.py] *)

Definition FIRST_NAMES : list string :=
  ["James"; "Mary"; "John"; "Patricia"; "Robert"; "Jennifer"; "Michael"; "Linda";
   "William"; "Elizabeth"; "David"; "Barbara"; "Richard"; "Susan"; "Joseph"; "Jessica";
   "Thomas"; "Sarah"; "Christopher"; "Karen"; "Charles"; "Nancy"; "Daniel"; "Lisa";
   "Matthew"; "Betty"; "Anthony"; "Margaret"; "Mark"; "Sandra"; "Donald"; "Ashley";
   "Steven"; "Kimberly"; "Paul"; "Emily"; "Andrew"; "Donna"; "Joshua"; "Michelle";
   "Kenneth"; "Carol"; "Kevin"; "Amanda"; "Brian"; "Dorothy"; "George"; "Melissa";
   "Timothy"; "Deborah"; "Ronald"; "Stephanie"; "Edward"; "Rebecca"; "Jason"; "Sharon";
   "Jeffrey"; "Laura"; "Ryan"; "Cynthia"; "Jacob"; "Kathleen"; "Gary"; "Amy";
   "Nicholas"; "Angela"; "Eric"; "Shirley"; "Jonathan"; "Anna"; "Stephen"; "Brenda";
   "Larry"; "Pamela"; "Justin"; "Emma"; "Scott"; "Nicole"; "Brandon"; "Helen";
   "Benjamin"; "Samantha"; "Samuel"; "Katherine"; "Raymond"; "Christine"; "Gregory";
   "Debra"; "Alexander"; "Rachel"; "Patrick"; "Carolyn"; "Frank"; "Janet"; "Jack";
   "Catherine"; "Dennis"; "Maria"; "Jerry"; "Heather"; "Tyler"; "Diane"; "Aaron";
   "Ruth"; "Jose"; "Julie"; "Adam"; "Olivia"; "Nathan"; "Joyce"; "Henry"; "Virginia";
   "Douglas"; "Victoria"; "Zachary"; "Kelly"; "Peter"; "Lauren"; "Kyle"; "Christina";
   "Noah"; "Joan"; "Ethan"; "Evelyn"; "Jeremy"; "Judith"; "Walter"; "Megan";
   "Christian"; "Andrea"; "Keith"; "Cheryl"; "Roger"; "Hannah"; "Terry"; "Jacqueline";
   "Austin"; "Martha"; "Sean"; "Gloria"; "Gerald"; "Teresa"; "Carl"; "Ann"; "Harold";
   "Sara"; "Dylan"; "Madison"; "Arthur"; "Frances"; "Lawrence"; "Kathryn"; "Jordan";
   "Janice"; "Jesse"; "Jean"; "Bryan"; "Abigail"; "Billy"; "Alice"].

Definition LAST_NAMES : list string :=
  ["Smith"; "Johnson"; "Williams"; "Brown"; "Jones"; "Garcia"; "Miller"; "Davis";
   "Rodriguez"; "Martinez"; "Hernandez"; "Lopez"; "Gonzalez"; "Wilson"; "Anderson";
   "Thomas"; "Taylor"; "Moore"; "Jackson"; "Martin"; "Lee"; "Perez"; "Thompson";
   "White"; "Harris"; "Sanchez"; "Clark"; "Ramirez"; "Lewis"; "Robinson"; "Walker";
   "Young"; "Allen"; "King"; "Wright"; "Scott"; "Torres"; "Nguyen"; "Hill"; "Flores";
   "Green"; "Adams"; "Nelson"; "Baker"; "Hall"; "Rivera"; "Campbell"; "Mitchell";
   "Carter"; "Roberts"; "Gomez"; "Phillips"; "Evans"; "Turner"; "Diaz"; "Parker";
   "Cruz"; "Edwards"; "Collins"; "Reyes"; "Stewart"; "Morris"; "Morales"; "Murphy";
   "Cook"; "Rogers"; "Gutierrez"; "Ortiz"; "Morgan"; "Cooper"; "Peterson"; "Bailey";
   "Reed"; "Kelly"; "Howard"; "Ramos"; "Kim"; "Cox"; "Ward"; "Richardson"; "Watson";
   "Brooks"; "Chavez"; "Wood"; "James"; "Bennett"; "Gray"; "Mendoza"; "Ruiz"; "Hughes";
   "Price"; "Alvarez"; "Castillo"; "Sanders"; "Patel"; "Myers"; "Long"; "Ross";
   "Foster"; "Jimenez"; "Powell"; "Jenkins"; "Perry"; "Russell"; "Sullivan"; "Bell";
   "Coleman"; "Butler"; "Henderson"; "Barnes"; "Gonzales"; "Fisher"; "Vasquez";
   "Simmons"; "Romero"; "Jordan"; "Patterson"; "Alexander"; "Hamilton"; "Graham";
   "Reynolds"; "Griffin"; "Wallace"; "Moreno"; "West"; "Cole"; "Hayes"; "Bryant";
   "Herrera"; "Gibson"; "Ellis"; "Tran"; "Medina"; "Aguilar"; "Stevens"; "Murray";
   "Ford"; "Castro"; "Marshall"; "Owens"; "Harrison"; "Fernandez"; "McDonald"; "Woods";
   "Washington"; "Kennedy"; "Wells"; "Vargas"; "Henry"; "Chen"; "Freeman"; "Webb";
   "Tucker"; "Guzman"; "Burns"; "Crawford"; "Olson"; "Simpson"; "Porter"; "Hunter"].

Definition CITIES_BY_STATE : list (string * list string) :=
  [("CA", ["Los Angeles"; "San Francisco"; "San Diego"; "Sacramento"; "San Jose"; "Fresno"; "Oakland"; "Riverside"]);
   ("TX", ["Houston"; "Dallas"; "Austin"; "San Antonio"; "Fort Worth"; "El Paso"; "Arlington"; "Corpus Christi"]);
   ("FL", ["Miami"; "Tampa"; "Orlando"; "Jacksonville"; "St. Petersburg"; "Fort Lauderdale"; "Tallahassee"; "Naples"]);
   ("NY", ["New York"; "Buffalo"; "Rochester"; "Syracuse"; "Albany"; "Yonkers"; "New Rochelle"; "White Plains"]);
   ("PA", ["Philadelphia"; "Pittsburgh"; "Allentown"; "Erie"; "Reading"; "Scranton"; "Bethlehem"; "Lancaster"]);
   ("IL", ["Chicago"; "Aurora"; "Naperville"; "Joliet"; "Rockford"; "Springfield"; "Elgin"; "Peoria"]);
   ("OH", ["Columbus"; "Cleveland"; "Cincinnati"; "Toledo"; "Akron"; "Dayton"; "Parma"; "Canton"]);
   ("GA", ["Atlanta"; "Augusta"; "Columbus"; "Savannah"; "Athens"; "Macon"; "Roswell"; "Albany"]);
   ("NC", ["Charlotte"; "Raleigh"; "Greensboro"; "Durham"; "Winston-Salem"; "Fayetteville"; "Cary"; "Wilmington"]);
   ("MI", ["Detroit"; "Grand Rapids"; "Warren"; "Sterling Heights"; "Ann Arbor"; "Lansing"; "Flint"; "Dearborn"])].

Definition SPECIALTIES : list string :=
  ["Individual Health Insurance"; "Group Health Insurance"; "Medicare Advantage";
   "Medicare Supplements"; "Small Group Benefits"; "Large Group Benefits";
   "Employee Benefits Consulting"; "COBRA Administration"; "HSA/FSA Plans";
   "Dental Insurance"; "Vision Insurance"; "Life Insurance"; "Disability Insurance";
   "Voluntary Benefits"; "ACA Compliance"; "HIPAA Compliance"; "Benefits Technology";
   "Wellness Programs"; "Retirement Planning"; "Executive Benefits"].

Definition JOB_TITLES : list string :=
  ["Benefits Consultant"; "Insurance Broker"; "Employee Benefits Advisor";
   "Account Executive"; "Senior Consultant"; "Benefits Manager"; "Agency Owner";
   "Principal"; "Vice President"; "Director of Benefits"; "Benefits Specialist";
   "Account Manager"; "Sales Executive"; "Independent Broker"; "Benefits Counselor"].

Definition COMPANY_TYPES : list string :=
  ["Insurance Agency"; "Benefits Consulting Firm"; "Independent Practice";
   "Brokerage House"; "Employee Benefits Group"; "Insurance Services";
   "Benefits Solutions"; "Insurance Partners"; "Consulting Group"; "Advisory Services"].

(** [d.get(key, default)] on a dictionary written as a literal. *)
Fixpoint dict_get {V} (d : list (string * V)) (key : string) (default : V) : V :=
  match d with
  | [] => default
  | (k, v) :: d' => if String.eqb k key then v else dict_get d' key default
  end.

(** ** Floats as rationals *)

Definition Qlt_bool (x y : Q) : bool := negb (Qle_bool y x).

(** [min(a, b)]: the first argument unless the second is smaller. *)
Definition py_min (a b : Q) : Q := if Qlt_bool b a then b else a.

(** Rounding to the nearest integer, ties to even. *)
Definition round_half_even (q : Q) : Z :=
  let f := Qfloor q in
  let r := (q - inject_Z f)%Q in
  if Qlt_bool r (1 # 2) then f
  else if Qlt_bool (1 # 2) r then f + 1
  else if Z.even f then f else f + 1.

(** [round(x, 2)] *)
Definition round2 (x : Q) : Q := (inject_Z (round_half_even (x * 100)) / 100)%Q.

(** ** Dates and times *)

(** Microseconds in a day. *)
Definition DAY : Z := 86400000000.

(** [timedelta(days=n)] *)
Definition timedelta_days (n : Z) : Z := n * DAY.

(** [dt.strftime("%Y-%m-%d")]: the day of a datetime. *)
Definition strftime_date (dt : Z) : Z := dt / DAY.

(** [datetime.strptime(s, "%Y-%m-%d")]: the day at midnight. *)
Definition strptime_date (d : Z) : Z := d * DAY.

(** [delta.days] of a timedelta. *)
Definition timedelta_get_days (delta : Z) : Z := delta / DAY.

(** ** The member record *)

Record Member : Type := mkMember {
  m_id : string;
  m_email : string;
  m_name : string;
  m_first_name : string;
  m_last_name : string;
  m_phone : string;
  m_address_line1 : string;
  m_address_line2 : option string;
  m_city : string;
  m_state : string;
  m_zip_code : string;
  m_country : string;
  m_chapter_id : option string;
  m_status : string;
  m_member_since : Z;
  m_renewal_date : Z;
  m_engagement_score : Z;
  m_total_ce_credits : Q;
  m_specialties : list string;
  m_company_name : string;
  m_job_title : string;
  m_bio : string;
  m_created_at : Z;
  m_updated_at : Z
}.
(** ** MemberGenerator.generate_email *)

Definition domains : list string :=
  ["gmail.com"; "yahoo.com"; "outlook.com"; "insurance.com"; "benefits.com"; "broker.com"].

(** The test and the body of the [while] loop, on the local variables
    [(email, counter)]. *)
Definition email_taken (l : string * nat) : M bool :=
  issued <- get_emails ;; ret (bool_decide (fst l ∈ issued)).

Definition email_retry (base domain : string) (l : string * nat) : M (string * nat) :=
  let counter := snd l in
  ret (base +:+ str_nat counter +:+ "@" +:+ domain, S counter).

Definition generate_email (first_name last_name : string) (domain_num : nat) : M string :=
  let base := lower first_name +:+ "." +:+ lower last_name in
  let domain := nth (domain_num mod length domains)%nat domains "" in
  let email := base +:+ "@" +:+ domain in
  let counter := 1%nat in
  l <- while email_taken (email_retry base domain) (email, counter) ;;
  let email := fst l in
  add_email email ;;;
  ret email.

(** The [k]-th address tried for a name and a domain: the plain address,
    then the address with the counter 1, 2, ... appended to the local part. *)
Definition candidate (base domain : string) (k : nat) : string :=
  match k with
  | O => base +:+ "@" +:+ domain
  | S _ => base +:+ str_nat k +:+ "@" +:+ domain
  end.

Definition email_base (first_name last_name : string) : string :=
  lower first_name +:+ "." +:+ lower last_name.

Definition email_domain (domain_num : nat) : string :=
  nth (domain_num mod length domains)%nat domains "".


(** ** MemberGenerator: the other methods *)

Definition area_codes : list Z :=
  [202; 212; 213; 214; 215; 216; 281; 303; 305; 312; 404; 415; 469; 470; 512; 602;
   612; 702; 713; 718; 770; 972].

Definition generate_phone : M string :=
  area <- choice area_codes ;;
  exchange <- randint 200 999 ;;
  number <- randint 1000 9999 ;;
  ret ("(" +:+ str_Z area +:+ ") " +:+ str_Z exchange +:+ "-" +:+ str_Z number).

Definition zip_prefixes : list (string * list string) :=
  [("CA", ["900"; "901"; "902"; "903"; "904"; "905"; "906"; "907"; "908"]);
   ("TX", ["750"; "751"; "752"; "753"; "754"; "755"; "756"; "757"; "758"]);
   ("FL", ["320"; "321"; "322"; "323"; "324"; "325"; "326"; "327"; "328"]);
   ("NY", ["100"; "101"; "102"; "103"; "104"; "105"; "106"; "107"; "108"]);
   ("PA", ["150"; "151"; "152"; "153"; "154"; "155"; "156"; "157"; "158"])].

(** The format [{n:02d}] for [0 <= n]. *)
Definition format_02d (n : Z) : string :=
  if n <? 10 then "0" +:+ str_Z n else str_Z n.

Definition generate_zip_code (state : string) : M string :=
  prefix <- choice (dict_get zip_prefixes state ["900"]) ;;
  n <- randint 0 99 ;;
  let suffix := format_02d n in
  ret (prefix +:+ suffix).

Definition generate_member_since_date : M Z :=
  years_ago <- randint 0 30 ;;
  months_ago <- randint 0 11 ;;
  today <- now ;;
  let date := today - timedelta_days (years_ago * 365 + months_ago * 30) in
  ret (strftime_date date).

(** The test and the body of the renewal loop, on the local variable
    [renewal]. *)
Definition renewal_in_past (renewal : Z) : M bool :=
  today <- now ;; ret (renewal <? today).

Definition renewal_advance (renewal : Z) : M Z :=
  ret (renewal + timedelta_days 365).

Definition generate_renewal_date (member_since : Z) : M Z :=
  let member_date := strptime_date member_since in
  let renewal := member_date + timedelta_days 365 in
  renewal <- while renewal_in_past renewal_advance renewal ;;
  ret (strftime_date renewal).

Definition calculate_engagement_score : M Z :=
  rand <- random_random ;;
  if Qlt_bool rand (2 # 10) then randint 80 100
  else if Qlt_bool rand (7 # 10) then randint 50 79
  else randint 0 49.

(** The value computed from the tenure in days and the rate per year. *)
Definition ce_credits_value (days : Z) (avg_per_year : Q) : Q :=
  let years_member := (inject_Z days / 365)%Q in
  let total := round2 (years_member * avg_per_year) in
  py_min total 150.

Definition calculate_ce_credits (member_since : Z) : M Q :=
  let member_date := strptime_date member_since in
  today <- now ;;
  let days := timedelta_get_days (today - member_date) in
  avg_per_year <- uniform 8 18 ;;
  ret (ce_credits_value days avg_per_year).

(** The status of a member from the draw [status_rand]:
    90% active, 5% lapsed, 3% inactive, 2% pending. *)
Definition status_of_draw (status_rand : Q) : string :=
  if Qlt_bool status_rand (90 # 100) then "active"
  else if Qlt_bool status_rand (95 # 100) then "lapsed"
  else if Qlt_bool status_rand (98 # 100) then "inactive"
  else "pending".

(** The probabilities declared in the comment of that cascade. *)
Definition declared_status_mix : list (string * Q) :=
  [("active", 90 # 100); ("lapsed", 5 # 100); ("inactive", 3 # 100); ("pending", 2 # 100)].

Definition street_names : list string :=
  ["Main"; "Oak"; "Maple"; "Cedar"; "Elm"; "Park"; "Washington"; "Lake"].

(** [sum(ch.get('actual_member_count', 0) for ch in self.chapters)];
    computed by [generate_members] and not used afterwards. *)
Definition total_chapter_capacity (chs : list Chapter) : Z :=
  fold_right (fun ch acc => from_option id 0 (ch_actual_member_count ch) + acc) 0 chs.

(** The body of the [for] loop of [generate_members]: the record of
    index [i]. *)
Definition generate_member (i : nat) : M Member :=
  chs <- get_chapters ;;
  chapter <- choice chs ;;
  first_name <- choice FIRST_NAMES ;;
  last_name <- choice LAST_NAMES ;;
  let name := first_name +:+ " " +:+ last_name in
  let state := from_option id "CA" (ch_state chapter) in
  let cities := dict_get CITIES_BY_STATE state ["City"] in
  city <- choice cities ;;
  member_since <- generate_member_since_date ;;
  renewal_date <- generate_renewal_date member_since ;;
  status_rand <- random_random ;;
  let status := status_of_draw status_rand in
  company_type <- choice COMPANY_TYPES ;;
  let company_name := last_name +:+ " " +:+ company_type in
  id_ <- uuid4 ;;
  email <- generate_email first_name last_name i ;;
  phone <- generate_phone ;;
  house <- randint 100 9999 ;;
  street <- choice street_names ;;
  let address_line1 := str_Z house +:+ " " +:+ street +:+ " St" in
  suite_rand <- random_random ;;
  address_line2 <-
    (if Qlt_bool (2 # 10) suite_rand then ret None
     else suite <- randint 100 999 ;; ret (Some ("Suite " +:+ str_Z suite))) ;;
  zip_code <- generate_zip_code state ;;
  engagement_score <- calculate_engagement_score ;;
  total_ce_credits <- calculate_ce_credits member_since ;;
  k <- randint 2 5 ;;
  specialties <- sample SPECIALTIES k ;;
  job_title <- choice JOB_TITLES ;;
  bio_title <- choice JOB_TITLES ;;
  bio_specialties <- sample SPECIALTIES 2 ;;
  let bio := "Experienced " +:+ lower bio_title +:+ " specializing in "
             +:+ join ", " bio_specialties +:+ "." in
  updated_at <- now ;;
  ret (mkMember id_ email name first_name last_name phone address_line1 address_line2
                city state zip_code "USA" (ch_id chapter) status member_since
                renewal_date engagement_score total_ce_credits specialties
                company_name job_title bio member_since updated_at).

Definition generate_members (total_count : nat) : M (list Member) :=
  let members := [] in
  for_range total_count
    (fun i members => member <- generate_member i ;; ret (members ++ [member]))
    members.

(** A generator as [MemberGenerator(chapter_data)] builds it. *)
Definition new_generator (chapter_data : list Chapter) : State :=
  mkState chapter_data ∅ 0 0 0.

(** * import_to_supabase.py *)

(** A function that returns or raises. *)
Inductive res (A : Type) : Type :=
| Ok (a : A)
| Error (e : exn).
Arguments Ok {A} a.
Arguments Error {A} e.

(** ** The part of [re] that the script uses

    A backtracking matcher with the priorities of Python's: a greedy
    repetition tries the longer match first, a lazy one the shorter. The
    repetitions of the three patterns are all over one character class. *)
Inductive regex : Type :=
| Lit (s : string)
| Rep (greedy : bool) (least : nat) (cls : ascii -> bool)
| Cat (r1 r2 : regex)
| Group (r : regex).

(** [\w], [\s], [.] with DOTALL, and [[^)]] on the code points below 256. *)
Definition is_word (c : ascii) : bool :=
  let n := code c in
  (((48 <=? n) && (n <=? 57)) || ((65 <=? n) && (n <=? 90)) || (n =? 95)
   || ((97 <=? n) && (n <=? 122))
   || (n =? 170) || (n =? 178) || (n =? 179) || (n =? 181) || (n =? 185) || (n =? 186)
   || ((188 <=? n) && (n <=? 190))
   || ((192 <=? n) && (n <=? 214)) || ((216 <=? n) && (n <=? 246))
   || ((248 <=? n) && (n <=? 255)))%N.

Definition is_space (c : ascii) : bool :=
  let n := code c in
  (((9 <=? n) && (n <=? 13)) || ((28 <=? n) && (n <=? 32)) || (n =? 133) || (n =? 160))%N.

Definition any_char (c : ascii) : bool := true.

Definition not_rparen (c : ascii) : bool := negb (Ascii.eqb c ")").

(** The rest of [s] after the prefix [lit], if [s] starts with it. *)
Fixpoint lit_match (lit s : string) : option string :=
  match lit with
  | EmptyString => Some s
  | String a lit' =>
      match s with
      | EmptyString => None
      | String b s' => if Ascii.eqb a b then lit_match lit' s' else None
      end
  end.

Fixpoint rep_match {A} (greedy : bool) (cls : ascii -> bool) (least : nat)
    (s : string) (k : string -> option A) {struct s} : option A :=
  match least with
  | S least' =>
      match s with
      | String c s' => if cls c then rep_match greedy cls least' s' k else None
      | EmptyString => None
      end
  | O =>
      match s with
      | String c s' =>
          if cls c then
            if greedy then
              match rep_match greedy cls O s' k with
              | Some x => Some x
              | None => k s
              end
            else
              match k s with
              | Some x => Some x
              | None => rep_match greedy cls O s' k
              end
          else k s
      | EmptyString => k s
      end
  end.

(** The text between the position [s] and the later position [s']. *)
Definition consumed (s s' : string) : string :=
  substring 0 (String.length s - String.length s') s.

Fixpoint rmatch {A} (r : regex) (s : string) (caps : list string)
    (k : string -> list string -> option A) : option A :=
  match r with
  | Lit l =>
      match lit_match l s with
      | Some s' => k s' caps
      | None => None
      end
  | Rep greedy least cls => rep_match greedy cls least s (fun s' => k s' caps)
  | Cat r1 r2 => rmatch r1 s caps (fun s' caps' => rmatch r2 s' caps' k)
  | Group r1 => rmatch r1 s caps (fun s' caps' => k s' (caps' ++ [consumed s s']))
  end.

(** [re.match(r, s)]: the rest after the match and the groups. *)
Definition re_match (r : regex) (s : string) : option (string * list string) :=
  rmatch r s [] (fun s' caps => Some (s', caps)).

(** The matches of [r] in [s] from left to right, without overlap: the
    matched text and the groups of each. The fuel is only the length of
    [s]: every round moves on by one character at least. *)
Fixpoint finditer_go (fuel : nat) (r : regex) (s : string) : list (string * list string) :=
  match fuel with
  | O => []
  | S fuel' =>
      match re_match r s with
      | Some (rest, caps) =>
          let whole := consumed s rest in
          (whole, caps)
            :: match s with
               | EmptyString => []
               | String _ s' =>
                   finditer_go fuel' r (if String.eqb whole "" then s' else rest)
               end
      | None =>
          match s with
          | EmptyString => []
          | String _ s' => finditer_go fuel' r s'
          end
      end
  end.

Definition finditer (r : regex) (s : string) : list (string * list string) :=
  finditer_go (S (String.length s)) r s.

(** [re.findall] for a pattern without group, and for one with one group. *)
Definition findall_whole (r : regex) (s : string) : list string :=
  map fst (finditer r s).

Definition findall_group (r : regex) (s : string) : list string :=
  map (fun m => nth 0 (snd m) "") (finditer r s).

(** The first pattern of [split_into_batches], compiled with re.DOTALL:
    one group (the text INSERT INTO and a blank, one or more word
    characters, any characters lazily, the text VALUES, any characters
    lazily) and then a semicolon. *)
Definition re_insert : regex :=
  Cat (Group (Cat (Lit "INSERT INTO ")
             (Cat (Rep true 1 is_word)
             (Cat (Rep false 0 any_char)
             (Cat (Lit "VALUES")
                  (Rep false 0 any_char))))))
      (Lit ";").

(** The second pattern, compiled with re.DOTALL: a first group (the text
    INSERT INTO and a blank, one or more word characters, optional white
    space, an opening parenthesis, one or more characters other than a
    closing parenthesis, a closing parenthesis, optional white space, the
    text VALUES), optional white space, and a second group that takes the
    rest. *)
Definition re_header : regex :=
  Cat (Group (Cat (Lit "INSERT INTO ")
             (Cat (Rep true 1 is_word)
             (Cat (Rep true 0 is_space)
             (Cat (Lit "(")
             (Cat (Rep true 1 not_rparen)
             (Cat (Lit ")")
             (Cat (Rep true 0 is_space)
                  (Lit "VALUES")))))))))
 (Cat (Rep true 0 is_space)
      (Group (Rep true 0 any_char))).

(** The third pattern: an opening parenthesis, one or more characters other
    than a closing parenthesis, a closing parenthesis. *)
Definition re_tuple : regex :=
  Cat (Lit "(") (Cat (Rep true 1 not_rparen) (Lit ")")).

(** ** [range] and slices *)

(** The length of [range(start, stop, step)], as CPython computes it. *)
Definition range_length (start stop step : Z) : Z :=
  if 0 <? step then
    if start <? stop then (stop - start - 1) / step + 1 else 0
  else
    if stop <? start then (start - stop - 1) / (- step) + 1 else 0.

Definition py_range (start stop step : Z) : res (list Z) :=
  if step =? 0 then Error ValueError
  else Ok (map (fun k => start + Z.of_nat k * step)
               (seq 0 (Z.to_nat (range_length start stop step)))).

(** A slice bound brought into [[0, len]]. *)
Definition clamp_index (len i : Z) : Z :=
  if i <? 0 then Z.max 0 (i + len) else Z.min i len.

(** [xs[i:j]] *)
Definition py_slice {A} (xs : list A) (i j : Z) : list A :=
  let len := Z.of_nat (length xs) in
  let lo := clamp_index len i in
  let hi := clamp_index len j in
  firstn (Z.to_nat (hi - lo)) (skipn (Z.to_nat lo) xs).

(** [[xs[i:i+batch_size] for i in range(0, len(xs), batch_size)]] *)
Definition chunks {A} (xs : list A) (batch_size : Z) : res (list (list A)) :=
  match py_range 0 (Z.of_nat (length xs)) batch_size with
  | Error e => Error e
  | Ok starts => Ok (map (fun i => py_slice xs i (i + batch_size)) starts)
  end.

(** ** split_into_batches *)

Definition nl : string := String (ascii_of_nat 10) EmptyString.

(** One statement rendered again: header, newline, the tuples joined by a
    comma and a newline, and the terminator. *)
Definition batch_sql (header : string) (batch : list string) : string :=
  header +:+ nl +:+ join ("," +:+ nl) batch +:+ ";".

(** The [for insert in inserts] loop, on the list [batches]. *)
Fixpoint split_inserts (inserts : list string) (batch_size : Z) (batches : list string)
    : res (list string) :=
  match inserts with
  | [] => Ok batches
  | insert :: inserts' =>
      match re_match re_header insert with
      | Some (_, [header; values_part]) =>
          let value_sets := findall_whole re_tuple values_part in
          match chunks value_sets batch_size with
          | Error e => Error e
          | Ok cs =>
              split_inserts inserts' batch_size (batches ++ map (batch_sql header) cs)
          end
      | _ => split_inserts inserts' batch_size (batches ++ [insert +:+ ";"])
      end
  end.

Definition split_into_batches (sql_content : string) (batch_size : Z) : res (list string) :=
  let inserts := findall_group re_insert sql_content in
  let batches := [] in
  split_inserts inserts batch_size batches.

(** * generate_members_for_existing_schema.py: the batching loop *)

Record SchemaMember : Type := mkSchemaMember {
  sm_id : string;
  sm_email : string;
  sm_first_name : string;
  sm_last_name : string;
  sm_member_type : string;
  sm_status : string;
  sm_chapter_id : string;
  sm_joined_date : string;
  sm_expiry_date : string;
  sm_renewal_reminder_sent : bool;
  sm_phone : string;
  sm_company : string;
  sm_job_title : string;
  sm_engagement_score : Z;
  sm_address : string
}.

Definition members_header : string :=
  "INSERT INTO members (id, email, first_name, last_name, member_type, status, chapter_id, joined_date, expiry_date, renewal_reminder_sent, phone, company, job_title, engagement_score, address) VALUES"
  +:+ nl.

Definition quoted (s : string) : string := "'" +:+ s +:+ "'".

(** [str(b).lower()] *)
Definition str_bool_lower (b : bool) : string := if b then "true" else "false".

Definition member_value (m : SchemaMember) : string :=
  "(" +:+ quoted (sm_id m) +:+ ", " +:+ quoted (sm_email m) +:+ ", "
  +:+ quoted (sm_first_name m) +:+ ", " +:+ quoted (sm_last_name m) +:+ ", "
  +:+ quoted (sm_member_type m) +:+ ", " +:+ quoted (sm_status m) +:+ ", "
  +:+ quoted (sm_chapter_id m) +:+ ", " +:+ quoted (sm_joined_date m) +:+ ", "
  +:+ quoted (sm_expiry_date m) +:+ ", " +:+ str_bool_lower (sm_renewal_reminder_sent m)
  +:+ ", " +:+ quoted (sm_phone m) +:+ ", " +:+ quoted (sm_company m) +:+ ", "
  +:+ quoted (sm_job_title m) +:+ ", " +:+ str_Z (sm_engagement_score m) +:+ ", "
  +:+ quoted (sm_address m) +:+ ")".

(** The tuples of each batch, and the text of each batch. *)
Definition member_batches (all_members : list SchemaMember) (batch_size : Z)
    : res (list (list string)) :=
  match chunks all_members batch_size with
  | Error e => Error e
  | Ok cs => Ok (map (map member_value) cs)
  end.

Definition sql_batches (all_members : list SchemaMember) (batch_size : Z)
    : res (list string) :=
  match member_batches all_members batch_size with
  | Error e => Error e
  | Ok bs =>
      Ok (map (fun values => members_header +:+ join ("," +:+ nl) values +:+ ";" +:+ nl) bs)
  end.

(** [s'] is an end of [s]. *)
Definition is_suffix (s' s : string) : Prop := exists p : string, s = p +:+ s'.

(** [c in s] *)
Fixpoint occurs (c : ascii) (s : string) : bool :=
  match s with
  | EmptyString => false
  | String a s' => Ascii.eqb a c || occurs c s'
  end.


(** Texts used in the examples. *)
Definition three_rows : string :=
  "INSERT INTO t (a,b) VALUES (1,'x'),(2,'y'),(3,'z');".

Definition three_rows_first_as_specified : string :=
  "INSERT INTO t (a,b) VALUES (1,'x'),(2,'y');".

Definition three_rows_second_as_specified : string :=
  "INSERT INTO t (a,b) VALUES (3,'z');".

Definition three_rows_first : string :=
  "INSERT INTO t (a,b) VALUES" +:+ nl +:+ "(1,'x')," +:+ nl +:+ "(2,'y');".

Definition three_rows_second : string :=
  "INSERT INTO t (a,b) VALUES" +:+ nl +:+ "(3,'z');".

(** A row with a phone number in the format of [generate_phone]. *)
Definition phone_row : string :=
  "INSERT INTO members (id, phone) VALUES ('1', '(202) 555-1234');".

Definition phone_row_cut : string :=
  "INSERT INTO members (id, phone) VALUES" +:+ nl +:+ "('1', '(202);".

Definition unterminated_rows : string := "INSERT INTO t (a) VALUES (1), (2".

Definition headless_rows : string := "INSERT INTO t VALUES (1),(2);".
(** ** Terminating runs

    [returns m w st a st'] : from state [st] in world [w], the computation
    [m] ends with result [a] in state [st'], on every large enough fuel. *)

Definition returns {A} (m : M A) (w : World) (st : State) (a : A) (st' : State) : Prop :=
  exists f0 : nat, forall fuel : nat, (f0 <= fuel)%nat -> m fuel w st = Done (a, st').

(** The same for a loop, with the number of rounds apart from the fuel of
    the test and the body. *)
Definition loop_returns {L} (cond : L -> M bool) (body : L -> M L)
    (w : World) (st : State) (l r : L) (st' : State) : Prop :=
  exists n0 f0 : nat, forall n fuel : nat, (n0 <= n)%nat -> (f0 <= fuel)%nat ->
    while_fuel cond body n l fuel w st = Done (r, st').


(** Total correctness in weakest-precondition style: [m] ends, and its
    result and final state satisfy [Q]. *)
Definition ensures {A} (w : World) (m : M A) (st : State) (Q : A -> State -> Prop) : Prop :=
  exists a st', returns m w st a st' /\ Q a st'.

(** What every step keeps: the [self] object, and the clock only moves on. *)
Definition frame (st st' : State) : Prop :=
  chapters st' = chapters st /\
  generated_emails st' = generated_emails st /\
  (clock_pos st <= clock_pos st')%nat.

(** A step that keeps the frame and does not read the clock. *)
Definition quiet (st : State) : State -> Prop :=
  fun st' => frame st st' /\ clock_pos st' = clock_pos st.

(** Assumptions on the wall clock. *)
Definition clock_bounded (w : World) : Prop :=
  exists B : Z, forall i : nat, clock w i <= B.

Definition clock_monotone (w : World) : Prop :=
  forall i j : nat, (i <= j)%nat -> clock w i <= clock w j.

(** ** What a generated record satisfies

    [member_generated w i st st' m]: record [m] of index [i], made from
    state [st], leaving state [st']. The clock readings are named by their
    positions on the tape: [p_since] is the reading of
    [generate_member_since_date], the readings [p_since + 1 + j] are those
    of the tests of the renewal loop, and [p_ce] is the reading of
    [calculate_ce_credits]. *)
Definition member_generated (w : World) (i : nat) (st st' : State) (m : Member) : Prop :=
  chapters st' = chapters st /\
  (exists k : nat,
     m_email m = candidate (email_base (m_first_name m) (m_last_name m)) (email_domain i) k /\
     forall j : nat, (j < k)%nat ->
       candidate (email_base (m_first_name m) (m_last_name m)) (email_domain i) j
         ∈ generated_emails st) /\
  (m_email m ∉ generated_emails st) /\
  generated_emails st' = {[ m_email m ]} ∪ generated_emails st /\
  In (m_first_name m) FIRST_NAMES /\
  In (m_last_name m) LAST_NAMES /\
  (exists u : Q, (0 <= u)%Q /\ (u < 1)%Q /\ m_status m = status_of_draw u) /\
  (exists (p_since n : nat) (years_ago months_ago : Z),
     0 <= years_ago <= 30 /\ 0 <= months_ago <= 11 /\
     m_member_since m
       = strftime_date (clock w p_since) - (years_ago * 365 + months_ago * 30) /\
     m_renewal_date m = m_member_since m + 365 * (Z.of_nat n + 1) /\
     ~ (strptime_date (m_renewal_date m) < clock w (p_since + 1 + n)) /\
     (forall j : nat, (j < n)%nat ->
        strptime_date (m_member_since m + 365 * (Z.of_nat j + 1))
          < clock w (p_since + 1 + j)) /\
     exists (p_ce : nat) (rate : Q),
       (p_since + 1 + n < p_ce)%nat /\ (8 <= rate)%Q /\ (rate <= 18)%Q /\
       m_total_ce_credits m
         = ce_credits_value
             (timedelta_get_days (clock w p_ce - strptime_date (m_member_since m))) rate) /\
  m_created_at m = m_member_since m.

(** The records of consecutive indices from [i], threaded through the
    states. *)
Inductive generated_run (w : World) : nat -> State -> list Member -> State -> Prop :=
| run_nil (i : nat) (st : State) : generated_run w i st [] st
| run_cons (i : nat) (st st1 st' : State) (m : Member) (ms : list Member) :
    member_generated w i st st1 m ->
    generated_run w (S i) st1 ms st' ->
    generated_run w i st (m :: ms) st'.

(** ** Concrete inputs used in examples *)

Definition california : Chapter :=
  mkChapter (Some "10000000-0000-0008-0000-000000000001") (Some "NABIP California")
            (Some "CA") (Some 678).

Definition texas : Chapter :=
  mkChapter (Some "10000000-0000-0005-0000-000000000001") (Some "NABIP Texas")
            (Some "TX") (Some 412).

(** 2025-01-15 is day 20103; the clock stands at 10:00 of that day. *)
Definition morning_world : World :=
  mkWorld (fun n => (N.of_nat n * 7919 + 13)%N)
          (fun _ => strptime_date 20103 + 36000000000)
          (fun n => "id-" +:+ str_nat n).

(** The clock stands at midnight sharp and every draw is 0. *)
Definition midnight_world : World :=
  mkWorld (fun _ => 0%N) (fun _ => strptime_date 20103) (fun n => "id-" +:+ str_nat n).

(** A generator that has issued two addresses of one name already. *)
Definition two_issued : State :=
  mkState [california] {[ "a.b@gmail.com"; "a.b1@gmail.com" ]} 0 0 0.

(** The property that a bounded number of attempts ends in an error. *)
Definition capacity_bounded_fail : Prop :=
  exists bound : nat, forall w st first_name last_name domain_num,
    (forall j : nat, (j < bound)%nat ->
       candidate (email_base first_name last_name) (email_domain domain_num) j
         ∈ generated_emails st) ->
    exists fuel e, generate_email first_name last_name domain_num fuel w st = Raised e.




(** The dates of a record as C3 describes them, for the reading [now] of
    the clock. *)
Definition renewal_is_next_due (m : Member) (now : Z) : Prop :=
  m_member_since m <= m_renewal_date m /\
  (exists k : Z, 1 <= k /\ m_renewal_date m - m_member_since m = k * 365) /\
  now <= strptime_date (m_renewal_date m) /\
  (forall j : Z, 1 <= j -> now <= strptime_date (m_member_since m + j * 365) ->
     m_renewal_date m <= m_member_since m + j * 365).

Definition less_than_one_period_past (m : Member) (now : Z) : Prop :=
  strptime_date (m_renewal_date m) < now + timedelta_days 365.

(** ** Vocabulary for the formats of the generated fields *)

Definition is_digit (c : ascii) : bool :=
  let n := code c in ((48 <=? n) && (n <=? 57))%N.

(** All characters of [s] are in the class [p]. *)
Fixpoint all_chars (p : ascii -> bool) (s : string) : bool :=
  match s with
  | EmptyString => true
  | String c s' => p c && all_chars p s'
  end.

(** The keys of a dictionary written as a literal. *)
Definition dict_keys {V} (d : list (string * V)) : list string := map fst d.

(** The longest tenure that [generate_member_since_date] can draw, in days. *)
Definition max_tenure_days : Z := 30 * 365 + 11 * 30.

(** The text of a phone number as [generate_phone] builds it. *)
Definition phone_format (phone : string) : Prop :=
  exists area exchange number : Z,
    In area area_codes /\ 200 <= exchange <= 999 /\ 1000 <= number <= 9999 /\
    phone = "(" +:+ str_Z area +:+ ") " +:+ str_Z exchange +:+ "-" +:+ str_Z number.

(** The text of a zip code as [generate_zip_code] builds it for [state]. *)
Definition zip_format (state zip : string) : Prop :=
  exists (prefix : string) (n : Z),
    In prefix (dict_get zip_prefixes state ["900"]) /\ 0 <= n <= 99 /\
    zip = prefix +:+ format_02d n.

(** The tier of an engagement score for the draw [rand]. *)
Definition engagement_tier (rand : Q) (score : Z) : Prop :=
  ((rand < 2 # 10)%Q -> 80 <= score <= 100) /\
  ((2 # 10 <= rand)%Q -> (rand < 7 # 10)%Q -> 50 <= score <= 79) /\
  ((7 # 10 <= rand)%Q -> 0 <= score <= 49).

(** How the chapter of a record is chosen and what follows from it: the
    chapter is the one at the index of a raw draw reduced modulo the number
    of chapters; the state is the chapter's or "CA"; the city is one of the
    cities of that state, or "City" for a state without cities. *)
Definition member_location (w : World) (chs : list Chapter) (m : Member) : Prop :=
  exists (p : nat) (chapter : Chapter),
    chs !! N.to_nat (rng w p mod N.of_nat (length chs))%N = Some chapter /\
    m_chapter_id m = ch_id chapter /\
    m_state m = from_option id "CA" (ch_state chapter) /\
    In (m_city m) (dict_get CITIES_BY_STATE (m_state m) ["City"]).

(** The other fields of a record. *)
Definition member_well_formed (m : Member) : Prop :=
  m_name m = m_first_name m +:+ " " +:+ m_last_name m /\
  (exists company_type : string,
     In company_type COMPANY_TYPES /\
     m_company_name m = m_last_name m +:+ " " +:+ company_type) /\
  m_country m = "USA" /\
  phone_format (m_phone m) /\
  zip_format (m_state m) (m_zip_code m) /\
  0 <= m_engagement_score m <= 100 /\
  (2 <= length (m_specialties m) <= 5)%nat /\
  m_specialties m ⊆+ SPECIALTIES /\
  NoDup (m_specialties m) /\
  In (m_job_title m) JOB_TITLES /\
  (m_address_line2 m = None \/
   exists suite : Z, 100 <= suite <= 999 /\
                     m_address_line2 m = Some ("Suite " +:+ str_Z suite)) /\
  m_created_at m = m_member_since m.

(** ** Further concrete inputs *)

(** A chapter of a state that has cities but no zip prefixes. *)
Definition illinois : Chapter :=
  mkChapter (Some "10000000-0000-0004-0000-000000000001") (Some "NABIP Illinois")
            (Some "IL") (Some 334).

(** A chapter dictionary without the keys [state] and [id]. *)
Definition bare_chapter : Chapter := mkChapter None None None None.

(** A generator in which nothing was issued yet. *)
Definition fresh_state : State := new_generator [california; illinois].

(** ** Vocabulary for the batch splitter *)

(** The statement takes the first branch of the loop of
    [split_into_batches]: the second pattern matches it. *)
Definition header_matches (insert : string) : bool :=
  match re_match re_header insert with
  | Some (_, [_; _]) => true
  | _ => false
  end.

(** The text of a value set as the third pattern finds it. *)
Definition value_set_shape (v : string) : Prop :=
  exists body : string,
    v = "(" +:+ body +:+ ")" /\ body <> "" /\ occurs ")" body = false.

(** The text of a statement as the first pattern finds it: the keyword and
    a table name, any text, the keyword VALUES, and a text without
    semicolon. *)
Definition statement_shape (insert : string) : Prop :=
  exists w a b : string,
    insert = "INSERT INTO " +:+ w +:+ a +:+ "VALUES" +:+ b /\
    w <> "" /\ all_chars is_word w = true /\ occurs ";" b = false.

(** A value with a semicolon in it. *)
Definition semicolon_row : string := "INSERT INTO t (a) VALUES ('x;y');".

(** * import_to_supabase.py: read_sql_file

    The function on the text of the file; opening and reading the file is
    outside the embedding. *)

(** [.] without DOTALL: any character but the newline. *)
Definition not_newline (c : ascii) : bool := negb (Ascii.eqb c (ascii_of_nat 10)).

(** The comment pattern, compiled with re.MULTILINE: two dashes, any
    characters but newlines (greedy), and the end of a line. After the
    greedy repetition the position is before a newline or at the end of the
    text, where the anchor holds, so the anchor needs no node of its own. *)
Definition re_comment : regex := Cat (Lit "--") (Rep true 0 not_newline).

(** [re.sub(r, '', s)]: the text without the matches of [r], found from
    left to right without overlap. The fuel is only the length of [s]. *)
Fixpoint sub_go (fuel : nat) (r : regex) (s : string) : string :=
  match fuel with
  | O => s
  | S fuel' =>
      match re_match r s with
      | Some (rest, _) =>
          if String.eqb (consumed s rest) "" then
            match s with
            | EmptyString => EmptyString
            | String c s' => String c (sub_go fuel' r s')
            end
          else sub_go fuel' r rest
      | None =>
          match s with
          | EmptyString => EmptyString
          | String c s' => String c (sub_go fuel' r s')
          end
      end
  end.

Definition re_sub_empty (r : regex) (s : string) : string :=
  sub_go (S (String.length s)) r s.

(** [s.replace(old, '')] for a non-empty [old]. *)
Fixpoint remove_go (fuel : nat) (old s : string) : string :=
  match fuel with
  | O => s
  | S fuel' =>
      match lit_match old s with
      | Some rest => remove_go fuel' old rest
      | None =>
          match s with
          | EmptyString => EmptyString
          | String c s' => String c (remove_go fuel' old s')
          end
      end
  end.

Definition str_remove (old s : string) : string :=
  remove_go (S (String.length s)) old s.

(** [s.strip()]: white space is what [str.isspace] accepts, the class of
    [is_space]. *)
Fixpoint lstrip (s : string) : string :=
  match s with
  | EmptyString => EmptyString
  | String c s' => if is_space c then lstrip s' else s
  end.

Fixpoint rstrip (s : string) : string :=
  match s with
  | EmptyString => EmptyString
  | String c s' =>
      match rstrip s' with
      | EmptyString => if is_space c then EmptyString else String c EmptyString
      | t => String c t
      end
  end.

Definition strip (s : string) : string := rstrip (lstrip s).

Definition read_sql_file (content : string) : string :=
  let content := re_sub_empty re_comment content in
  let content := strip (str_remove "COMMIT;" (str_remove "BEGIN;" content)) in
  content.

(** ** Vocabulary for the properties of the cleaning *)

(** [pat in s] *)
Fixpoint has_sub (pat s : string) : bool :=
  match lit_match pat s with
  | Some _ => true
  | None =>
      match s with
      | EmptyString => false
      | String _ s' => has_sub pat s'
      end
  end.

(** [s.count(c)] for one character. *)
Fixpoint count_char (c : ascii) (s : string) : nat :=
  match s with
  | EmptyString => O
  | String a s' => ((if Ascii.eqb a c then 1 else 0) + count_char c s')%nat
  end.

(** The rest of [s] from its first character outside [cls]. *)
Fixpoint drop_while (cls : ascii -> bool) (s : string) : string :=
  match s with
  | EmptyString => EmptyString
  | String c s' => if cls c then drop_while cls s' else s
  end.

(** The removal of comments as one scan: [skip] tells that the scan is
    inside a comment. *)
Fixpoint cut_comments (skip : bool) (s : string) : string :=
  match s with
  | EmptyString => EmptyString
  | String c s' =>
      if skip then
        if not_newline c then cut_comments true s' else String c (cut_comments false s')
      else
        match lit_match "--" s with
        | Some _ => cut_comments true s'
        | None => String c (cut_comments false s')
        end
  end.

(** The first and the last character of a text, if any. *)
Definition first_char (s : string) : option ascii :=
  match s with
  | EmptyString => None
  | String c _ => Some c
  end.

Fixpoint last_char (s : string) : option ascii :=
  match s with
  | EmptyString => None
  | String c s' =>
      match s' with
      | EmptyString => Some c
      | String _ _ => last_char s'
      end
  end.

(** A quoted value with a double dash in it, on the line of its
    terminator. *)
Definition dashed_row : string := "INSERT INTO t (a) VALUES ('x--y');".

(** * generate_members_for_existing_schema.py: the records

    The script has its own pools and its own [generate_member], a module
    function that takes the index of the record and the set
    [existing_emails], which it updates in place; here the updated set is
    returned beside the record. [datetime.isoformat] is left open: the
    definitions take it as the function [isoformat] from a datetime to its
    text. *)
Module ExistingSchema.

Definition FIRST_NAMES : list string :=
  ["James"; "Mary"; "John"; "Patricia"; "Robert"; "Jennifer"; "Michael"; "Linda";
   "William"; "Elizabeth"; "David"; "Barbara"; "Richard"; "Susan"; "Joseph"; "Jessica";
   "Thomas"; "Sarah"; "Christopher"; "Karen"; "Daniel"; "Nancy"; "Matthew"; "Lisa";
   "Anthony"; "Betty"; "Mark"; "Margaret"; "Donald"; "Sandra"].

Definition LAST_NAMES : list string :=
  ["Smith"; "Johnson"; "Williams"; "Brown"; "Jones"; "Garcia"; "Miller"; "Davis";
   "Rodriguez"; "Martinez"; "Hernandez"; "Lopez"; "Gonzalez"; "Wilson"; "Anderson";
   "Thomas"; "Taylor"; "Moore"; "Jackson"; "Martin"; "Lee"; "Thompson"; "White";
   "Harris"; "Clark"; "Lewis"; "Robinson"; "Walker"; "Young"; "Allen"].

Definition JOB_TITLES : list string :=
  ["Insurance Broker"; "Benefits Consultant"; "Account Executive"; "Sales Representative";
   "Agency Owner"; "Senior Consultant"; "Account Manager"; "Benefits Advisor";
   "Insurance Agent"; "Managing Partner"].

Definition COMPANY_TYPES : list string :=
  ["Insurance Agency"; "Benefits Group"; "Consulting"; "Insurance Services";
   "Benefits Solutions"; "Insurance Brokers"; "Financial Services"; "Risk Management";
   "Employee Benefits"].

Definition MEMBER_TYPES : list string :=
  ["individual"; "organizational"; "student"; "lifetime"].

Definition STATUSES : list string :=
  ["active"; "pending"; "expired"; "suspended"; "grace_period"].

Definition CHAPTER_IDS : list string :=
  ["10000000-0000-0000-0000-000000000001";
   "10000000-0000-0001-0000-000000000001";
   "10000000-0000-0001-0000-000000000002";
   "10000000-0000-0001-0000-000000000003";
   "10000000-0000-0001-0000-000000000004";
   "10000000-0000-0001-0000-000000000005";
   "10000000-0000-0001-0000-000000000006";
   "10000000-0000-0001-0000-000000000007";
   "10000000-0000-0001-0000-000000000008";
   "10000000-0000-0001-0000-000000000009";
   "10000000-0000-0001-0000-000000000010"].

(** The address first tried for a record, and the one tried with the
    random number [n] when an address is taken. *)
Definition plain_email (first_name last_name : string) (index : nat) : string :=
  lower first_name +:+ "." +:+ lower last_name +:+ str_nat index +:+ "@example.com".

Definition suffixed_email (first_name last_name : string) (index : nat) (n : Z) : string :=
  lower first_name +:+ "." +:+ lower last_name +:+ str_nat index +:+ "_" +:+ str_Z n
  +:+ "@example.com".

(** The test and the body of the [while] loop, on the local variable
    [email]. *)
Definition email_exists (existing_emails : gset string) (email : string) : M bool :=
  ret (bool_decide (email ∈ existing_emails)).

Definition email_redraw (first_name last_name : string) (index : nat) (email : string)
    : M string :=
  n <- randint 1 999 ;; ret (suffixed_email first_name last_name index n).

(** The status from the draw [status_roll]:
    85% active, 8% pending, 4% expired, 2% grace_period, 1% suspended. *)
Definition status_of_roll (status_roll : Q) : string :=
  if Qlt_bool status_roll (85 # 100) then "active"
  else if Qlt_bool status_roll (93 # 100) then "pending"
  else if Qlt_bool status_roll (97 # 100) then "expired"
  else if Qlt_bool status_roll (99 # 100) then "grace_period"
  else "suspended".

(** The probabilities declared in the comment of that cascade. *)
Definition declared_status_mix : list (string * Q) :=
  [("active", 85 # 100); ("pending", 8 # 100); ("expired", 4 # 100);
   ("grace_period", 2 # 100); ("suspended", 1 # 100)].

(** [json.dumps] of the address dictionary. Its four values hold digits,
    letters and blanks only, which are written as they are between double
    quotes. *)
Definition dquote : string := String (ascii_of_nat 34) EmptyString.

Definition json_string (s : string) : string := dquote +:+ s +:+ dquote.

Definition json_dumps_address (street zip : string) : string :=
  "{" +:+ json_string "street" +:+ ": " +:+ json_string street +:+ ", "
  +:+ json_string "city" +:+ ": " +:+ json_string "Springfield" +:+ ", "
  +:+ json_string "state" +:+ ": " +:+ json_string "IL" +:+ ", "
  +:+ json_string "zip" +:+ ": " +:+ json_string zip +:+ "}".

Section Records.
Variable isoformat : Z -> string.

Definition generate_member (index : nat) (existing_emails : gset string)
    : M (SchemaMember * gset string) :=
  first_name <- choice FIRST_NAMES ;;
  last_name <- choice LAST_NAMES ;;
  let email := plain_email first_name last_name index in
  email <- while (email_exists existing_emails)
                 (email_redraw first_name last_name index) email ;;
  let existing_emails := {[ email ]} ∪ existing_emails in
  days_member <- randint 30 3650 ;;
  today <- now ;;
  let joined_date := today - timedelta_days days_member in
  today' <- now ;;
  days_left <- randint 30 365 ;;
  let expiry_date := today' + timedelta_days days_left in
  status_roll <- random_random ;;
  let status := status_of_roll status_roll in
  id_ <- uuid4 ;;
  member_type <- choice MEMBER_TYPES ;;
  chapter_id <- choice CHAPTER_IDS ;;
  renewal_reminder_sent <- choice [true; false] ;;
  phone_number <- randint 2000000000 9999999999 ;;
  company_type <- choice COMPANY_TYPES ;;
  job_title <- choice JOB_TITLES ;;
  engagement_score <- randint 0 100 ;;
  house <- randint 100 9999 ;;
  zip <- randint 10000 99999 ;;
  ret (mkSchemaMember id_ email first_name last_name member_type status chapter_id
         (isoformat joined_date) (isoformat expiry_date) renewal_reminder_sent
         ("+1" +:+ str_Z phone_number) (last_name +:+ " " +:+ company_type) job_title
         engagement_score
         (json_dumps_address (str_Z house +:+ " Main St") (str_Z zip)),
       existing_emails).

(** The first loop of [generate_members_sql], on [all_members] and the
    set that all the calls share. *)
Definition generate_all_members (count : nat) : M (list SchemaMember * gset string) :=
  let existing_emails : gset string := ∅ in
  let all_members : list SchemaMember := [] in
  for_range count
    (fun i acc =>
       r <- generate_member i (snd acc) ;;
       ret (fst acc ++ [fst r], snd r))
    (all_members, existing_emails).

Definition generate_members_sql (count : nat) (batch_size : Z)
    : M (list string * list SchemaMember) :=
  acc <- generate_all_members count ;;
  let all_members := fst acc in
  match sql_batches all_members batch_size with
  | Error e => raise e
  | Ok batches => ret (batches, all_members)
  end.

End Records.

(** The local part of an address before the index: no digit in it. *)
Definition not_digit (c : ascii) : bool := negb (is_digit c).

(** What a record of index [index] satisfies, made from the set
    [existing] in state [st]; [p] and [p + 1] are the positions of its two
    clock readings. *)
Definition member_fields (isoformat : Z -> string) (w : World) (st : State)
    (m : SchemaMember) : Prop :=
  In (sm_first_name m) FIRST_NAMES /\
  In (sm_last_name m) LAST_NAMES /\
  In (sm_member_type m) MEMBER_TYPES /\
  In (sm_status m) STATUSES /\
  (exists u : Q, (0 <= u)%Q /\ (u < 1)%Q /\ sm_status m = status_of_roll u) /\
  In (sm_chapter_id m) CHAPTER_IDS /\
  In (sm_job_title m) JOB_TITLES /\
  (exists company_type : string,
     In company_type COMPANY_TYPES /\
     sm_company m = sm_last_name m +:+ " " +:+ company_type) /\
  0 <= sm_engagement_score m <= 100 /\
  (exists n : Z, 2000000000 <= n <= 9999999999 /\ sm_phone m = "+1" +:+ str_Z n) /\
  (exists house zip : Z,
     100 <= house <= 9999 /\ 10000 <= zip <= 99999 /\
     sm_address m = json_dumps_address (str_Z house +:+ " Main St") (str_Z zip)) /\
  (exists (p : nat) (days_member days_left : Z),
     (clock_pos st <= p)%nat /\
     30 <= days_member <= 3650 /\ 30 <= days_left <= 365 /\
     sm_joined_date m = isoformat (clock w p - days_member * DAY) /\
     sm_expiry_date m = isoformat (clock w (S p) + days_left * DAY)).

End ExistingSchema.

(** What holds of the records made so far by the first loop of
    [generate_members_sql] and of the set that the calls share. *)
Definition schema_run_inv (isoformat : Z -> string) (w : World) (st0 : State)
    (i : nat) (acc : list SchemaMember * gset string) (st : State) : Prop :=
  frame st0 st /\
  length (fst acc) = i /\
  snd acc = list_to_set (map sm_email (fst acc)) /\
  forall (j : nat) (m : SchemaMember),
    fst acc !! j = Some m ->
    ExistingSchema.member_fields isoformat w st0 m /\
    sm_email m = ExistingSchema.plain_email (sm_first_name m) (sm_last_name m) j.


(** For the record of index 0 named James Smith: the plain address and the
    addresses with every suffix from 1 to 999, all taken. *)
Definition james_smith_all_taken : gset string :=
  list_to_set
    (ExistingSchema.plain_email "James" "Smith" 0
     :: map (fun k : nat => ExistingSchema.suffixed_email "James" "Smith" 0 (Z.of_nat k))
            (seq 1 999)).
Section Returns.
Context {A B : Type}.

Lemma returns_ret (a : A) w st : returns (ret a) w st a st.
Proof. exists O. reflexivity. Qed.

Lemma returns_bind (m : M A) (k : A -> M B) w st a st1 b st2 :
  returns m w st a st1 -> returns (k a) w st1 b st2 ->
  returns (bind m k) w st b st2.
Proof.
  intros [f1 H1] [f2 H2]. exists (Nat.max f1 f2). intros fuel Hf.
  unfold bind. rewrite H1 by lia. apply H2. lia.
Qed.

Lemma returns_det (m : M A) w st a1 s1 a2 s2 :
  returns m w st a1 s1 -> returns m w st a2 s2 -> a1 = a2 /\ s1 = s2.
Proof.
  intros [f1 H1] [f2 H2].
  specialize (H1 (Nat.max f1 f2) ltac:(lia)).
  specialize (H2 (Nat.max f1 f2) ltac:(lia)).
  rewrite H1 in H2. inversion H2. auto.
Qed.

Lemma returns_bind_inv (m : M A) (k : A -> M B) w st a st1 b st2 :
  returns m w st a st1 -> returns (bind m k) w st b st2 ->
  returns (k a) w st1 b st2.
Proof.
  intros [f1 H1] [f2 H2]. exists (Nat.max f1 f2). intros fuel Hf.
  specialize (H2 fuel ltac:(lia)). unfold bind in H2.
  rewrite H1 in H2 by lia. exact H2.
Qed.
End Returns.

Section Loops.
Context {L : Type} (cond : L -> M bool) (body : L -> M L).

Lemma loop_returns_exit w st l st1 :
  returns (cond l) w st false st1 -> loop_returns cond body w st l l st1.
Proof.
  intros [f1 H1]. exists 1%nat, f1. intros n fuel Hn Hf.
  destruct n as [|n]; [lia|]. simpl. rewrite H1 by lia. reflexivity.
Qed.

Lemma loop_returns_round w st l st1 l' st2 r st3 :
  returns (cond l) w st true st1 ->
  returns (body l) w st1 l' st2 ->
  loop_returns cond body w st2 l' r st3 ->
  loop_returns cond body w st l r st3.
Proof.
  intros [f1 H1] [f2 H2] (n3 & f3 & H3).
  exists (S n3), (Nat.max f1 (Nat.max f2 f3)). intros n fuel Hn Hf.
  destruct n as [|n]; [lia|]. simpl.
  rewrite H1 by lia. rewrite H2 by lia. apply H3; lia.
Qed.

Lemma loop_returns_while w st l r st' :
  loop_returns cond body w st l r st' -> returns (while cond body l) w st r st'.
Proof.
  intros (n0 & f0 & H). exists (Nat.max n0 f0). intros fuel Hf.
  unfold while. apply H; lia.
Qed.

(** A loop whose test and body raise nothing raises nothing. *)
Lemma while_fuel_no_raise
    (Hc : forall l fuel w st e, cond l fuel w st <> Raised e)
    (Hb : forall l fuel w st e, body l fuel w st <> Raised e) :
  forall n l fuel w st e, while_fuel cond body n l fuel w st <> Raised e.
Proof.
  induction n as [|n IH]; intros l fuel w st e; simpl; [discriminate|].
  destruct (cond l fuel w st) as [[[] st1]|e1|] eqn:Ec; try discriminate.
  - destruct (body l fuel w st1) as [[l' st2]|e2|] eqn:Eb; try discriminate.
    + apply IH.
    + exfalso. exact (Hb _ _ _ _ _ Eb).
  - exfalso. exact (Hc _ _ _ _ _ Ec).
Qed.
End Loops.

(** ** Facts on strings *)

Lemma string_app_cons (c : ascii) (s t : string) :
  String c s +:+ t = String c (s +:+ t).
Proof. reflexivity. Qed.

Lemma string_length_app (s t : string) :
  String.length (s +:+ t) = (String.length s + String.length t)%nat.
Proof.
  induction s as [|c s IH]; [reflexivity|].
  rewrite string_app_cons. simpl. now rewrite IH.
Qed.

Lemma string_app_inv_tail (s1 s2 t : string) : s1 +:+ t = s2 +:+ t -> s1 = s2.
Proof.
  revert s2. induction s1 as [|c s1 IH]; intros [|c2 s2] H.
  - reflexivity.
  - apply (f_equal String.length) in H.
    rewrite !string_length_app in H. simpl in H. lia.
  - apply (f_equal String.length) in H.
    rewrite !string_length_app in H. simpl in H. lia.
  - rewrite !string_app_cons in H. inversion H. f_equal. now apply IH.
Qed.

Lemma pretty_N_go_length (x : N) (s : string) :
  (String.length s <= String.length (pretty_N_go x s))%nat.
Proof.
  revert s. induction (N.lt_wf_0 x) as [x _ IH]; intros s.
  destruct (decide (0 < x)%N) as [Hx|Hx].
  - rewrite pretty_N_go_step by done.
    etransitivity; [|apply IH; by apply N.div_lt]. simpl. lia.
  - assert (x = 0%N) as -> by lia. rewrite pretty_N_go_0. lia.
Qed.

Lemma str_nat_nonempty (n : nat) : str_nat n <> "".
Proof.
  unfold str_nat, pretty, pretty_nat, pretty, pretty_N.
  destruct (decide (N.of_nat n = 0%N)) as [_|Hn]; [discriminate|].
  intros H. apply (f_equal String.length) in H.
  destruct (decide (0 < N.of_nat n)%N) as [Hx|Hx]; [|lia].
  rewrite pretty_N_go_step in H by done.
  pose proof (pretty_N_go_length (N.of_nat n `div` 10)
                (String (pretty_N_char (N.of_nat n `mod` 10)) "")) as Hl.
  rewrite H in Hl. simpl in Hl. lia.
Qed.

Lemma str_nat_inj (i j : nat) : str_nat i = str_nat j -> i = j.
Proof. unfold str_nat. apply (inj pretty). Qed.

(** The candidates of one name and domain are pairwise distinct. *)
Lemma candidate_inj (base domain : string) (i j : nat) :
  candidate base domain i = candidate base domain j -> i = j.
Proof.
  unfold candidate. destruct i as [|i], j as [|j]; intros H.
  - reflexivity.
  - apply (inj (String.append base)) in H.
    change ("@" +:+ domain) with ("" +:+ ("@" +:+ domain)) in H at 1.
    apply string_app_inv_tail in H. symmetry in H.
    now apply str_nat_nonempty in H.
  - apply (inj (String.append base)) in H.
    change ("@" +:+ domain) with ("" +:+ ("@" +:+ domain)) in H at 2.
    apply string_app_inv_tail in H.
    now apply str_nat_nonempty in H.
  - apply (inj (String.append base)) in H.
    apply string_app_inv_tail in H. now apply str_nat_inj.
Qed.

(** ** The email loop ends on the first free candidate *)

Lemma least_such (P : nat -> Prop) (Hdec : forall n, Decision (P n)) (n : nat) :
  P n -> exists k, (k <= n)%nat /\ P k /\ forall j, (j < k)%nat -> ~ P j.
Proof.
  assert (Hq : forall m, (forall j, (j < m)%nat -> ~ P j) \/
                         (exists k, (k < m)%nat /\ P k /\ forall j, (j < k)%nat -> ~ P j)).
  { induction m as [|m [IH|IH]].
    - left. intros j Hj. lia.
    - destruct (Hdec m) as [Hm|Hm].
      + right. exists m. split; [lia|]. split; assumption.
      + left. intros j Hj. destruct (decide (j = m)) as [->|Hne]; [exact Hm|].
        apply IH. lia.
    - right. destruct IH as (k & Hk & HP & Hl). exists k. split; [lia|]. split; assumption. }
  intros Hn. destruct (Hq (S n)) as [Hno|(k & Hk & HP & Hl)].
  - exfalso. apply (Hno n); [lia|exact Hn].
  - exists k. split; [lia|]. split; assumption.
Qed.

(** Pigeonhole: among the first [size issued + 1] candidates one is free. *)
Lemma candidate_free_exists (issued : gset string) (base domain : string) :
  exists k, (k <= size issued)%nat /\ candidate base domain k ∉ issued.
Proof.
  set (cs := map (candidate base domain) (seq 0 (S (size issued)))).
  destruct (decide (Forall (fun e => e ∈ issued) cs)) as [Hall|Hnot].
  - exfalso.
    assert (Hnd : NoDup cs).
    { apply NoDup_fmap_2; [|apply NoDup_seq].
      intros i j. apply candidate_inj. }
    assert (Hsub : list_to_set (C := gset string) cs ⊆ issued).
    { intros e He. apply elem_of_list_to_set in He.
      rewrite Forall_forall in Hall. now apply Hall. }
    apply subseteq_size in Hsub.
    rewrite size_list_to_set in Hsub by exact Hnd.
    unfold cs in Hsub. rewrite length_map, length_seq in Hsub. lia.
  - apply not_Forall_Exists in Hnot; [|intros e; apply _].
    apply Exists_exists in Hnot as (e & He & Hfree).
    unfold cs in He. apply list_elem_of_fmap in He as (k & -> & Hk).
    apply elem_of_seq in Hk. exists k. split; [lia|exact Hfree].
Qed.

Lemma first_free_candidate (issued : gset string) (base domain : string) :
  exists k, (k <= size issued)%nat /\ (candidate base domain k ∉ issued) /\
            forall j, (j < k)%nat -> candidate base domain j ∈ issued.
Proof.
  destruct (candidate_free_exists issued base domain) as (n & Hn & Hfree).
  destruct (least_such (fun k => candidate base domain k ∉ issued) _ n Hfree)
    as (k & Hk & HP & Hl).
  exists k. split; [lia|]. split; [exact HP|].
  intros j Hj. specialize (Hl j Hj).
  destruct (decide (candidate base domain j ∈ issued)) as [Hin|Hout]; [exact Hin|].
  contradiction.
Qed.

Lemma email_taken_returns w st (l : string * nat) :
  returns (email_taken l) w st (bool_decide (fst l ∈ generated_emails st)) st.
Proof. exists O. reflexivity. Qed.

Lemma email_loop_returns w st (base domain : string) (d k0 : nat) :
  (forall j, (k0 <= j < k0 + d)%nat -> candidate base domain j ∈ generated_emails st) ->
  candidate base domain (k0 + d) ∉ generated_emails st ->
  loop_returns email_taken (email_retry base domain) w st
    (candidate base domain k0, S k0) (candidate base domain (k0 + d), S (k0 + d)) st.
Proof.
  revert k0. induction d as [|d IH]; intros k0 Hin Hout.
  - rewrite Nat.add_0_r in *. apply loop_returns_exit.
    pose proof (email_taken_returns w st (candidate base domain k0, S k0)) as H.
    simpl in H. rewrite bool_decide_eq_false_2 in H by exact Hout. exact H.
  - eapply loop_returns_round.
    + pose proof (email_taken_returns w st (candidate base domain k0, S k0)) as H.
      simpl in H. rewrite bool_decide_eq_true_2 in H; [exact H|]. apply Hin. lia.
    + apply returns_ret.
    + simpl. change (base +:+ str_nat (S k0) +:+ "@" +:+ domain)
        with (candidate base domain (S k0)).
      replace (k0 + S d)%nat with (S k0 + d)%nat by lia.
      apply IH.
      * intros j Hj. apply Hin. lia.
      * replace (S k0 + d)%nat with (k0 + S d)%nat by lia. exact Hout.
Qed.

Lemma generate_email_no_raise first_name last_name domain_num fuel w st e :
  generate_email first_name last_name domain_num fuel w st <> Raised e.
Proof.
  unfold generate_email, bind, while.
  match goal with |- context [while_fuel ?c ?b ?n ?l ?f ?w ?s] =>
    pose proof (while_fuel_no_raise c b) as Hw;
    destruct (while_fuel c b n l f w s) as [[l' st']|e'|] eqn:E end;
    try discriminate.
  exfalso. eapply Hw; [| |exact E].
  - intros. discriminate.
  - intros. discriminate.
Qed.

(** What one call of [generate_email] does. *)
Lemma generate_email_spec w st first_name last_name domain_num :
  let base := email_base first_name last_name in
  let domain := email_domain domain_num in
  exists k,
    (k <= size (generated_emails st))%nat /\
    (candidate base domain k ∉ generated_emails st) /\
    (forall j, (j < k)%nat -> candidate base domain j ∈ generated_emails st) /\
    returns (generate_email first_name last_name domain_num) w st
      (candidate base domain k)
      (mkState (chapters st) ({[ candidate base domain k ]} ∪ generated_emails st)
               (rng_pos st) (clock_pos st) (uuid_pos st)).
Proof.
  intros base domain.
  destruct (first_free_candidate (generated_emails st) base domain) as (k & Hk & Hfree & Hl).
  exists k. repeat split; try assumption.
  unfold generate_email. eapply returns_bind.
  - apply loop_returns_while.
    apply (email_loop_returns w st base domain k 0).
    + intros j Hj. apply Hl. lia.
    + exact Hfree.
  - simpl. eapply returns_bind; [|apply returns_ret].
    exists O. reflexivity.
Qed.

(** ** Specifications of the primitive steps *)

Lemma frame_refl st : frame st st.
Proof. unfold frame. auto. Qed.

Lemma frame_trans st1 st2 st3 : frame st1 st2 -> frame st2 st3 -> frame st1 st3.
Proof. unfold frame. intros (-> & -> & ?) (-> & -> & ?). repeat split; lia. Qed.

Lemma ensures_ret {A} w (a : A) st (Q : A -> State -> Prop) :
  Q a st -> ensures w (ret a) st Q.
Proof. intros H. exists a, st. split; [apply returns_ret|exact H]. Qed.

Lemma ensures_bind {A B} w (m : M A) (k : A -> M B) st
    (R : A -> State -> Prop) (Q : B -> State -> Prop) :
  ensures w m st R ->
  (forall a st', R a st' -> ensures w (k a) st' Q) ->
  ensures w (bind m k) st Q.
Proof.
  intros (a & st1 & Hm & HR) Hk.
  destruct (Hk a st1 HR) as (b & st2 & Hka & HQ).
  exists b, st2. split; [eapply returns_bind; eassumption|exact HQ].
Qed.

Lemma ensures_conseq {A} w (m : M A) st (R Q : A -> State -> Prop) :
  ensures w m st R -> (forall a st', R a st' -> Q a st') -> ensures w m st Q.
Proof. intros (a & st' & Hm & HR) H. exists a, st'. auto. Qed.

Lemma ensures_get_chapters w st :
  ensures w get_chapters st (fun chs st' => st' = st /\ chs = chapters st).
Proof. exists (chapters st), st. split; [exists O; reflexivity|auto]. Qed.

Lemma ensures_draw w st :
  ensures w draw st (fun _ st' => frame st st' /\ clock_pos st' = clock_pos st).
Proof.
  eexists _, _. split; [exists O; reflexivity|].
  unfold frame. simpl. auto.
Qed.

Lemma ensures_now w st :
  ensures w now st (fun t st' =>
    frame st st' /\ t = clock w (clock_pos st) /\ clock_pos st' = S (clock_pos st)).
Proof.
  eexists _, _. split; [exists O; reflexivity|].
  unfold frame. simpl. repeat split; lia.
Qed.

Lemma ensures_uuid4 w st :
  ensures w uuid4 st (fun _ st' => frame st st' /\ clock_pos st' = clock_pos st).
Proof.
  eexists _, _. split; [exists O; reflexivity|].
  unfold frame. simpl. auto.
Qed.

Lemma quiet_refl st : quiet st st.
Proof. split; [apply frame_refl|reflexivity]. Qed.

Lemma quiet_trans st1 st2 st3 : quiet st1 st2 -> quiet st2 st3 -> quiet st1 st3.
Proof.
  intros [F1 E1] [F2 E2]. split; [eapply frame_trans; eassumption|congruence].
Qed.

Lemma ensures_randbelow w st (n : N) :
  (0 < n)%N ->
  ensures w (randbelow n) st (fun v st' => quiet st st' /\ (v < n)%N).
Proof.
  intros Hn. unfold randbelow. eapply ensures_bind; [apply ensures_draw|].
  intros r st' Hq. apply ensures_ret. split; [exact Hq|].
  apply N.mod_lt. lia.
Qed.

Lemma ensures_random w st :
  ensures w random_random st (fun u st' => quiet st st' /\ (0 <= u)%Q /\ (u < 1)%Q).
Proof.
  unfold random_random. eapply ensures_bind; [apply ensures_draw|].
  intros r st' Hq. apply ensures_ret. split; [exact Hq|].
  pose proof (N.mod_lt r (N.pos two53) ltac:(discriminate)) as Hlt.
  apply N2Z.inj_lt in Hlt. change (Z.of_N (N.pos two53)) with (Z.pos two53) in Hlt.
  pose proof (N2Z.is_nonneg (r `mod` N.pos two53)) as Hge.
  unfold Qle, Qlt. cbn [Qnum Qden].
  generalize dependent (Z.of_N (r `mod` N.pos two53)). intros x Hx Hge. lia.
Qed.

Lemma ensures_randint w st (a b : Z) :
  a <= b ->
  ensures w (randint a b) st (fun v st' => quiet st st' /\ a <= v <= b).
Proof.
  intros Hab. unfold randint.
  destruct (b <? a) eqn:E; [apply Z.ltb_lt in E; lia|].
  eapply ensures_bind; [apply ensures_randbelow; lia|].
  intros r st' [Hq Hr]. apply ensures_ret. split; [exact Hq|lia].
Qed.

Lemma ensures_choice {A} w st (seq : list A) :
  seq <> [] ->
  ensures w (choice seq) st (fun x st' => quiet st st' /\ In x seq).
Proof.
  intros Hne. unfold choice. destruct seq as [|x0 seq']; [contradiction|].
  eapply ensures_bind; [apply ensures_randbelow; simpl; lia|].
  intros i st' [Hq Hi]. apply ensures_ret. split; [exact Hq|].
  apply nth_In. lia.
Qed.

Lemma ensures_uniform w st (a b : Q) :
  (a <= b)%Q ->
  ensures w (uniform a b) st (fun v st' => quiet st st' /\ (a <= v)%Q /\ (v <= b)%Q).
Proof.
  intros Hab. unfold uniform. eapply ensures_bind; [apply ensures_random|].
  intros u st' (Hq & H0 & H1). apply ensures_ret. split; [exact Hq|].
  split; nra.
Qed.

Lemma ensures_sample_pool {A} w (d : A) (k : nat) :
  forall st (pool : list A) (n : nat), (k <= n)%nat ->
  ensures w (sample_pool d k pool n) st (fun l st' => quiet st st' /\ length l = k).
Proof.
  induction k as [|k IH]; intros st pool n Hn; simpl.
  - apply ensures_ret. split; [apply quiet_refl|reflexivity].
  - eapply ensures_bind; [apply ensures_randbelow; lia|].
    intros j st1 [Hq1 Hj].
    eapply ensures_bind; [apply IH; lia|].
    intros rest st2 [Hq2 Hlen]. apply ensures_ret.
    split; [eapply quiet_trans; eassumption|simpl; congruence].
Qed.

Lemma ensures_sample {A} w st (population : list A) (k : Z) :
  0 <= k <= Z.of_nat (length population) ->
  ensures w (sample population k) st
    (fun l st' => quiet st st' /\ length l = Z.to_nat k).
Proof.
  intros Hk. unfold sample. destruct population as [|d pop].
  - simpl in Hk. assert (k = 0) as -> by lia. simpl.
    apply ensures_ret. split; [apply quiet_refl|reflexivity].
  - destruct (k <? 0) eqn:E1; [apply Z.ltb_lt in E1; lia|].
    destruct (Z.of_nat (length (d :: pop)) <? k) eqn:E2; [apply Z.ltb_lt in E2; lia|].
    simpl orb. cbv iota. apply ensures_sample_pool. lia.
Qed.

(** ** The other methods always end *)

Lemma ensures_generate_phone w st :
  ensures w generate_phone st (fun _ st' => quiet st st').
Proof.
  unfold generate_phone.
  eapply ensures_bind; [apply ensures_choice; discriminate|]. intros area st1 [H1 _].
  eapply ensures_bind; [apply ensures_randint; lia|]. intros ex st2 [H2 _].
  eapply ensures_bind; [apply ensures_randint; lia|]. intros nb st3 [H3 _].
  apply ensures_ret. eauto using quiet_trans.
Qed.

Lemma dict_get_nonempty (d : list (string * list string)) key default :
  Forall (fun kv => snd kv <> []) d -> default <> [] -> dict_get d key default <> [].
Proof.
  intros Hd Hdef. induction Hd as [|[k v] d Hv _ IH]; simpl; [exact Hdef|].
  destruct (String.eqb k key); [exact Hv|exact IH].
Qed.

Lemma ensures_generate_zip_code w st state :
  ensures w (generate_zip_code state) st (fun _ st' => quiet st st').
Proof.
  unfold generate_zip_code.
  eapply ensures_bind.
  { apply ensures_choice. apply dict_get_nonempty; [|discriminate].
    unfold zip_prefixes. repeat constructor; discriminate. }
  intros prefix st1 [H1 _].
  eapply ensures_bind; [apply ensures_randint; lia|]. intros n st2 [H2 _].
  apply ensures_ret. eauto using quiet_trans.
Qed.

Lemma ensures_calculate_engagement_score w st :
  ensures w calculate_engagement_score st (fun _ st' => quiet st st').
Proof.
  unfold calculate_engagement_score.
  eapply ensures_bind; [apply ensures_random|]. intros rand st1 [H1 _].
  destruct (Qlt_bool rand (2 # 10)); [|destruct (Qlt_bool rand (7 # 10))];
    (eapply ensures_conseq; [apply ensures_randint; lia|]);
    intros v st2 [H2 _]; eauto using quiet_trans.
Qed.

(** ** Dates: since, renewal, credits *)

Lemma DAY_pos : 0 < DAY.
Proof. reflexivity. Qed.

Lemma strftime_strptime (d : Z) : strftime_date (strptime_date d) = d.
Proof. unfold strftime_date, strptime_date. apply Z.div_mul. discriminate. Qed.

Lemma strptime_add_days (d n : Z) :
  strptime_date d + timedelta_days n = strptime_date (d + n).
Proof. unfold strptime_date, timedelta_days. ring. Qed.

Lemma strptime_le (d1 d2 : Z) : d1 <= d2 <-> strptime_date d1 <= strptime_date d2.
Proof. unfold strptime_date. pose proof DAY_pos. nia. Qed.

(** A datetime is not before the midnight of its day. *)
Lemma strptime_strftime_le (dt : Z) : strptime_date (strftime_date dt) <= dt.
Proof.
  unfold strptime_date, strftime_date. pose proof DAY_pos.
  pose proof (Z.mul_div_le dt DAY ltac:(lia)). lia.
Qed.

Lemma strftime_sub_days (dt n : Z) :
  strftime_date (dt - timedelta_days n) = strftime_date dt - n.
Proof.
  unfold strftime_date, timedelta_days.
  replace (dt - n * DAY) with (dt + (- n) * DAY) by ring.
  rewrite Z.div_add by discriminate. ring.
Qed.

Lemma ensures_generate_member_since_date w st :
  ensures w generate_member_since_date st (fun since st' =>
    frame st st' /\ clock_pos st' = S (clock_pos st) /\
    exists years_ago months_ago,
      0 <= years_ago <= 30 /\ 0 <= months_ago <= 11 /\
      since = strftime_date (clock w (clock_pos st)) - (years_ago * 365 + months_ago * 30)).
Proof.
  unfold generate_member_since_date.
  eapply ensures_bind; [apply ensures_randint; lia|]. intros y st1 [[F1 E1] Hy].
  eapply ensures_bind; [apply ensures_randint; lia|]. intros mo st2 [[F2 E2] Hm].
  eapply ensures_bind; [apply ensures_now|]. intros t st3 (F3 & -> & E3).
  apply ensures_ret. split; [eauto using frame_trans|]. split; [congruence|].
  exists y, mo. split; [exact Hy|]. split; [exact Hm|].
  rewrite strftime_sub_days. congruence.
Qed.

Lemma returns_renewal_in_past w st (renewal : Z) :
  exists st', returns (renewal_in_past renewal) w st (renewal <? clock w (clock_pos st)) st' /\
              frame st st' /\ clock_pos st' = S (clock_pos st).
Proof.
  eexists. split; [exists O; reflexivity|].
  unfold frame. simpl. repeat split; lia.
Qed.

(** The renewal loop: it ends after [n] rounds when the clock is bounded;
    the [n] tests before the last one found the value in the past, the
    last one did not. *)
Lemma renewal_loop_returns w (B : Z) (Hb : forall i, clock w i <= B) :
  forall (d : nat) st (r0 : Z), B - r0 < Z.of_nat d ->
  exists (n : nat) st',
    loop_returns renewal_in_past renewal_advance w st r0
      (r0 + timedelta_days 365 * Z.of_nat n) st' /\
    frame st st' /\ clock_pos st' = (clock_pos st + n + 1)%nat /\
    ~ (r0 + timedelta_days 365 * Z.of_nat n < clock w (clock_pos st + n)) /\
    (forall j : nat, (j < n)%nat ->
       r0 + timedelta_days 365 * Z.of_nat j < clock w (clock_pos st + j)).
Proof.
  assert (Hper : 0 < timedelta_days 365) by reflexivity.
  induction d as [|d IH]; intros st r0 Hd.
  - destruct (returns_renewal_in_past w st r0) as (st' & Hr & Hf & Hp).
    assert (Hnot : ~ r0 < clock w (clock_pos st)) by (specialize (Hb (clock_pos st)); lia).
    exists O, st'. rewrite Z.mul_0_r, Z.add_0_r, Nat.add_0_r.
    split; [|split; [exact Hf|split; [lia|split; [exact Hnot|intros; lia]]]].
    apply loop_returns_exit.
    apply Z.ltb_nlt in Hnot. rewrite Hnot in Hr. exact Hr.
  - destruct (returns_renewal_in_past w st r0) as (st1 & Hr & Hf & Hp).
    destruct (r0 <? clock w (clock_pos st)) eqn:E.
    + apply Z.ltb_lt in E.
      destruct (IH st1 (r0 + timedelta_days 365)) as (n & st' & Hl & Hf' & Hp' & Hex & Hbefore).
      { lia. }
      exists (S n), st'. split; [|split; [|split; [|split]]].
      * eapply loop_returns_round; [exact Hr|apply returns_ret|].
        replace (r0 + timedelta_days 365 * Z.of_nat (S n))
          with (r0 + timedelta_days 365 + timedelta_days 365 * Z.of_nat n) by lia.
        exact Hl.
      * eapply frame_trans; eassumption.
      * lia.
      * replace (clock_pos st + S n)%nat with (clock_pos st1 + n)%nat by lia.
        replace (r0 + timedelta_days 365 * Z.of_nat (S n))
          with (r0 + timedelta_days 365 + timedelta_days 365 * Z.of_nat n) by lia.
        exact Hex.
      * intros j Hj. destruct j as [|j].
        -- rewrite Z.mul_0_r, Z.add_0_r, Nat.add_0_r. exact E.
        -- replace (clock_pos st + S j)%nat with (clock_pos st1 + j)%nat by lia.
           replace (r0 + timedelta_days 365 * Z.of_nat (S j))
             with (r0 + timedelta_days 365 + timedelta_days 365 * Z.of_nat j) by lia.
           apply Hbefore. lia.
    + apply Z.ltb_nlt in E.
      exists O, st1. rewrite Z.mul_0_r, Z.add_0_r, Nat.add_0_r.
      split; [|split; [exact Hf|split; [lia|split; [exact E|intros; lia]]]].
      apply loop_returns_exit. exact Hr.
Qed.

Lemma ensures_generate_renewal_date w st (member_since : Z) :
  clock_bounded w ->
  ensures w (generate_renewal_date member_since) st (fun renewal st' =>
    frame st st' /\
    exists n : nat,
      clock_pos st' = (clock_pos st + n + 1)%nat /\
      renewal = member_since + 365 * (Z.of_nat n + 1) /\
      ~ (strptime_date renewal < clock w (clock_pos st + n)) /\
      (forall j : nat, (j < n)%nat ->
         strptime_date (member_since + 365 * (Z.of_nat j + 1)) < clock w (clock_pos st + j))).
Proof.
  intros [B Hb]. unfold generate_renewal_date.
  set (r0 := strptime_date member_since + timedelta_days 365).
  destruct (renewal_loop_returns w B Hb (Z.to_nat (B - r0 + 1)) st r0 ltac:(lia))
    as (n & st' & Hl & Hf & Hp & Hex & Hbefore).
  assert (Heq : forall j : nat,
            r0 + timedelta_days 365 * Z.of_nat j
            = strptime_date (member_since + 365 * (Z.of_nat j + 1))).
  { intros j. unfold r0, strptime_date, timedelta_days. ring. }
  eapply ensures_bind.
  - exists (r0 + timedelta_days 365 * Z.of_nat n), st'.
    split; [apply loop_returns_while; exact Hl|].
    instantiate (1 := fun r s => r = r0 + timedelta_days 365 * Z.of_nat n /\ s = st').
    split; reflexivity.
  - intros r s [-> ->]. apply ensures_ret. split; [exact Hf|].
    exists n. rewrite Heq, strftime_strptime.
    split; [exact Hp|]. split; [reflexivity|]. split.
    + rewrite <- Heq. exact Hex.
    + intros j Hj. rewrite <- Heq. now apply Hbefore.
Qed.

Lemma ensures_calculate_ce_credits w st (member_since : Z) :
  ensures w (calculate_ce_credits member_since) st (fun ce st' =>
    frame st st' /\ clock_pos st' = S (clock_pos st) /\
    exists rate : Q,
      (8 <= rate)%Q /\ (rate <= 18)%Q /\
      ce = ce_credits_value
             (timedelta_get_days (clock w (clock_pos st) - strptime_date member_since)) rate).
Proof.
  unfold calculate_ce_credits.
  eapply ensures_bind; [apply ensures_now|]. intros t st1 (F1 & -> & E1).
  eapply ensures_bind; [apply ensures_uniform; discriminate|].
  intros rate st2 ([F2 E2] & Hlo & Hhi).
  apply ensures_ret. split; [eauto using frame_trans|]. split; [congruence|].
  exists rate. auto.
Qed.

(** ** One record *)

Lemma ensures_generate_email w st first_name last_name domain_num :
  ensures w (generate_email first_name last_name domain_num) st (fun e st' =>
    chapters st' = chapters st /\ clock_pos st' = clock_pos st /\
    generated_emails st' = {[ e ]} ∪ generated_emails st /\
    (e ∉ generated_emails st) /\
    exists k : nat,
      e = candidate (email_base first_name last_name) (email_domain domain_num) k /\
      forall j : nat, (j < k)%nat ->
        candidate (email_base first_name last_name) (email_domain domain_num) j
          ∈ generated_emails st).
Proof.
  destruct (generate_email_spec w st first_name last_name domain_num)
    as (k & _ & Hfree & Hl & Hr).
  eexists _, _. split; [exact Hr|]. simpl.
  repeat split; try assumption. exists k. split; [reflexivity|exact Hl].
Qed.

Lemma cities_nonempty state : dict_get CITIES_BY_STATE state ["City"] <> [].
Proof.
  apply dict_get_nonempty; [|discriminate].
  unfold CITIES_BY_STATE. repeat constructor; discriminate.
Qed.

Ltac frames :=
  cbv beta in *; unfold quiet in *;
  repeat match goal with
  | H : _ /\ _ |- _ => destruct H as [H ?]
  | H : frame _ _ |- _ => destruct H as (? & ? & ?)
  end.

Lemma generate_member_spec w st (i : nat) :
  chapters st <> [] -> clock_bounded w ->
  ensures w (generate_member i) st (fun m st' => member_generated w i st st' m).
Proof.
  intros Hch Hb. unfold generate_member.
  eapply ensures_bind; [apply ensures_get_chapters|]. intros chs s0 [-> ->].
  eapply ensures_bind; [apply ensures_choice; exact Hch|]. intros chapter s1 [Q1 _].
  eapply ensures_bind; [apply ensures_choice; discriminate|]. intros first_name s2 [Q2 Hfn].
  eapply ensures_bind; [apply ensures_choice; discriminate|]. intros last_name s3 [Q3 Hln].
  eapply ensures_bind; [apply ensures_choice; apply cities_nonempty|]. intros city s4 [Q4 _].
  eapply ensures_bind; [apply ensures_generate_member_since_date|].
  intros since s5 (F5 & P5 & years_ago & months_ago & Hy & Hmo & Hsince).
  eapply ensures_bind; [apply ensures_generate_renewal_date; exact Hb|].
  intros renewal s6 (F6 & n & P6 & Hren & Hexit & Hbefore).
  eapply ensures_bind; [apply ensures_random|]. intros u s7 (Q7 & Hu0 & Hu1).
  eapply ensures_bind; [apply ensures_choice; discriminate|]. intros company_type s8 [Q8 _].
  eapply ensures_bind; [apply ensures_uuid4|]. intros id_ s9 Q9.
  eapply ensures_bind; [apply ensures_generate_email|].
  intros email s10 (C10 & P10 & E10 & Hfresh & k & Hk & Hless).
  eapply ensures_bind; [apply ensures_generate_phone|]. intros phone s11 Q11.
  eapply ensures_bind; [apply ensures_randint; lia|]. intros house s12 [Q12 _].
  eapply ensures_bind; [apply ensures_choice; discriminate|]. intros street s13 [Q13 _].
  eapply ensures_bind; [apply ensures_random|]. intros suite_rand s14 (Q14 & _ & _).
  eapply ensures_bind.
  { instantiate (1 := fun _ s => quiet s14 s).
    destruct (Qlt_bool (2 # 10) suite_rand).
    - apply ensures_ret. apply quiet_refl.
    - eapply ensures_bind; [apply ensures_randint; lia|]. intros suite s [Q _].
      apply ensures_ret. exact Q. }
  intros address_line2 s15 Q15.
  eapply ensures_bind; [apply ensures_generate_zip_code|]. intros zip_code s16 Q16.
  eapply ensures_bind; [apply ensures_calculate_engagement_score|]. intros score s17 Q17.
  eapply ensures_bind; [apply ensures_calculate_ce_credits|].
  intros ce s18 (F18 & P18 & rate & Hr8 & Hr18 & Hce).
  eapply ensures_bind; [apply ensures_randint; lia|]. intros kk s19 [Q19 Hkk].
  eapply ensures_bind; [apply ensures_sample; simpl; lia|]. intros specialties s20 [Q20 _].
  eapply ensures_bind; [apply ensures_choice; discriminate|]. intros job_title s21 [Q21 _].
  eapply ensures_bind; [apply ensures_choice; discriminate|]. intros bio_title s22 [Q22 _].
  eapply ensures_bind; [apply ensures_sample; simpl; lia|]. intros bio_sp s23 [Q23 _].
  eapply ensures_bind; [apply ensures_now|]. intros updated_at s24 (F24 & _ & P24).
  apply ensures_ret. frames.
  unfold member_generated. cbn [m_email m_first_name m_last_name m_status m_member_since
    m_renewal_date m_total_ce_credits m_created_at].
  assert (Hem : generated_emails s9 = generated_emails st) by congruence.
  rewrite Hem in *.
  split; [congruence|]. split; [exists k; split; assumption|].
  split; [assumption|]. split; [congruence|].
  split; [assumption|]. split; [assumption|].
  split; [exists u; auto|]. split; [|reflexivity].
  exists (clock_pos s4), n, years_ago, months_ago.
  split; [lia|]. split; [lia|]. split; [assumption|].
  split; [assumption|].
  replace (clock_pos s5) with (clock_pos s4 + 1)%nat in * by lia.
  split; [assumption|]. split; [assumption|].
  exists (clock_pos s17), rate. split; [lia|]. auto.
Qed.

(** ** A whole run of [generate_members] *)

Lemma member_generated_chapters w i st st' m :
  member_generated w i st st' m -> chapters st' = chapters st.
Proof. intros H. apply H. Qed.

Lemma for_range_generated w (n : nat) :
  clock_bounded w ->
  forall (start : nat) (st : State) (acc : list Member), chapters st <> [] ->
  exists ms st',
    returns (for_range_from start n
               (fun i members => member <- generate_member i ;; ret (members ++ [member]))
               acc) w st (acc ++ ms) st' /\
    length ms = n /\ generated_run w start st ms st'.
Proof.
  intros Hb. induction n as [|n IH]; intros start st acc Hch.
  - exists [], st. rewrite app_nil_r. split; [apply returns_ret|].
    split; [reflexivity|constructor].
  - destruct (generate_member_spec w st start Hch Hb) as (m & st1 & Hm & Hgen).
    assert (Hch1 : chapters st1 <> []).
    { rewrite (member_generated_chapters _ _ _ _ _ Hgen). exact Hch. }
    destruct (IH (S start) st1 (acc ++ [m]) Hch1) as (ms & st' & Hr & Hlen & Hrun).
    exists (m :: ms), st'. split; [|split].
    + simpl. eapply returns_bind.
      * eapply returns_bind; [exact Hm|apply returns_ret].
      * rewrite <- app_assoc in Hr. exact Hr.
    + simpl. congruence.
    + econstructor; eassumption.
Qed.

Lemma generate_members_run w (n : nat) (st : State) :
  chapters st <> [] -> clock_bounded w ->
  exists ms st',
    returns (generate_members n) w st ms st' /\
    length ms = n /\ generated_run w 0 st ms st'.
Proof.
  intros Hch Hb.
  destruct (for_range_generated w n Hb 0%nat st [] Hch) as (ms & st' & Hr & Hlen & Hrun).
  exists ms, st'. auto.
Qed.

(** The issued set grows by exactly the emails of the run, which are new
    and pairwise distinct. *)
Lemma generated_run_emails w i st ms st' :
  generated_run w i st ms st' ->
  generated_emails st' = list_to_set (map m_email ms) ∪ generated_emails st /\
  (forall m, In m ms -> m_email m ∉ generated_emails st) /\
  NoDup (map m_email ms).
Proof.
  induction 1 as [i st|i st st1 st' m ms Hm Hrun (IHe & IHn & IHd)].
  - simpl. split; [set_solver|]. split; [intros m []|constructor].
  - destruct Hm as (_ & _ & Hfresh & Hadd & _).
    split; [|split].
    + rewrite IHe, Hadd. simpl. set_solver.
    + intros m' [<-|Hin]; [exact Hfresh|].
      specialize (IHn m' Hin). rewrite Hadd in IHn. set_solver.
    + simpl. constructor; [|exact IHd].
      intros Hin. apply list_elem_of_fmap in Hin as (m' & He & Hin).
      apply list_elem_of_In in Hin. specialize (IHn m' Hin).
      rewrite Hadd, <- He in IHn. set_solver.
Qed.

(** The record at position [j] of a run was made from the issued set of
    the start plus the emails of the records before it. *)
Lemma generated_run_lookup w i st ms st' :
  generated_run w i st ms st' ->
  forall (j : nat) (m : Member), ms !! j = Some m ->
  exists sa sb,
    member_generated w (i + j) sa sb m /\
    generated_emails sa = list_to_set (map m_email (take j ms)) ∪ generated_emails st.
Proof.
  induction 1 as [i st|i st st1 st' m ms Hm Hrun IH]; intros j m' Hj.
  - discriminate.
  - destruct j as [|j]; simpl in Hj.
    + inversion Hj; subst m'. exists st, st1. rewrite Nat.add_0_r.
      split; [exact Hm|]. simpl. set_solver.
    + destruct (IH j m' Hj) as (sa & sb & Hgen & He).
      exists sa, sb. replace (i + S j)%nat with (S i + j)%nat by lia.
      split; [exact Hgen|]. rewrite He.
      destruct Hm as (_ & _ & _ & Hadd & _). rewrite Hadd. simpl. set_solver.
Qed.

Lemma generated_run_Forall w (P : Member -> Prop) :
  (forall i sa sb m, member_generated w i sa sb m -> P m) ->
  forall i st ms st', generated_run w i st ms st' -> Forall P ms.
Proof.
  intros HP i st ms st' Hrun. induction Hrun; constructor; eauto.
Qed.

(** ** Comparisons, rounding and the credit value *)

Lemma Qlt_bool_iff (x y : Q) : Qlt_bool x y = true <-> (x < y)%Q.
Proof.
  unfold Qlt_bool. rewrite negb_true_iff. split.
  - intros H. apply Qnot_le_lt. intros Hle. apply Qle_bool_iff in Hle. congruence.
  - intros H. destruct (Qle_bool y x) eqn:E; [|reflexivity].
    apply Qle_bool_iff in E. exfalso. exact (Qlt_not_le _ _ H E).
Qed.

Lemma Qlt_bool_false_iff (x y : Q) : Qlt_bool x y = false <-> (y <= x)%Q.
Proof.
  split.
  - intros H. apply Qnot_lt_le. intros Hlt. apply Qlt_bool_iff in Hlt. congruence.
  - intros H. destruct (Qlt_bool x y) eqn:E; [|reflexivity].
    apply Qlt_bool_iff in E. exfalso. exact (Qlt_not_le _ _ E H).
Qed.

Ltac qbool :=
  repeat match goal with
  | H : Qlt_bool _ _ = true |- _ => apply Qlt_bool_iff in H
  | H : Qlt_bool _ _ = false |- _ => apply Qlt_bool_false_iff in H
  end.




Lemma round_half_even_bounds (q : Q) :
  Qfloor q <= round_half_even q <= Qfloor q + 1.
Proof.
  unfold round_half_even.
  destruct (Qlt_bool _ _); [lia|]. destruct (Qlt_bool _ _); [lia|].
  destruct (Z.even _); lia.
Qed.



Lemma inject_Z_div100_le (a b : Z) : a <= b -> (inject_Z a / 100 <= inject_Z b / 100)%Q.
Proof.
  intros H. rewrite Zle_Qle in H. unfold Qdiv.
  apply Qmult_le_compat_r; [exact H|]. discriminate.
Qed.








(** * Batches *)

(** ** Chunks of a list *)

Lemma take_min_length {A} (n : nat) (l : list A) :
  take (Nat.min n (length l)) l = take n l.
Proof.
  destruct (le_lt_dec n (length l)) as [H|H].
  - now rewrite Nat.min_l.
  - rewrite Nat.min_r by lia. rewrite !take_ge by lia. reflexivity.
Qed.

Lemma py_slice_chunk {A} (xs : list A) (bs : Z) (k : nat) :
  0 < bs -> (k * Z.to_nat bs < length xs)%nat ->
  py_slice xs (Z.of_nat k * bs) (Z.of_nat k * bs + bs)
  = take (Z.to_nat bs) (drop (k * Z.to_nat bs) xs).
Proof.
  intros Hbs Hk. unfold py_slice, clamp_index.
  assert (Hi : Z.of_nat k * bs = Z.of_nat (k * Z.to_nat bs)) by lia.
  destruct (Z.of_nat k * bs <? 0) eqn:E1; [apply Z.ltb_lt in E1; lia|].
  destruct (Z.of_nat k * bs + bs <? 0) eqn:E2; [apply Z.ltb_lt in E2; lia|].
  rewrite (Z.min_l (Z.of_nat k * bs)) by lia.
  replace (Z.to_nat (Z.of_nat k * bs)) with (k * Z.to_nat bs)%nat by lia.
  rewrite <- (take_min_length (Z.to_nat bs)). f_equal.
  rewrite length_drop. lia.
Qed.

(** The shape of the chunks for a positive size. *)
Lemma chunks_shape {A} (xs : list A) (bs : Z) :
  0 < bs ->
  exists cnt : nat,
    chunks xs bs
      = Ok (map (fun k => take (Z.to_nat bs) (drop (k * Z.to_nat bs) xs)) (seq 0 cnt)) /\
    (forall k : nat, (S k < cnt)%nat -> (k * Z.to_nat bs + Z.to_nat bs <= length xs)%nat) /\
    (forall k : nat, (k < cnt)%nat -> (k * Z.to_nat bs < length xs)%nat) /\
    (length xs <= cnt * Z.to_nat bs)%nat.
Proof.
  intros Hbs.
  set (len := Z.of_nat (length xs)).
  exists (Z.to_nat (range_length 0 len bs)).
  assert (Hcnt : (len = 0 /\ range_length 0 len bs = 0) \/
                 (0 < len /\ exists q, range_length 0 len bs = q + 1 /\ 0 <= q /\
                               bs * q <= len - 1 < bs * (q + 1))).
  { unfold range_length. destruct (0 <? bs) eqn:E; [|apply Z.ltb_nlt in E; lia].
    destruct (0 <? len) eqn:E2.
    - apply Z.ltb_lt in E2. right. split; [exact E2|].
      exists ((len - 0 - 1) / bs). split; [reflexivity|].
      replace (len - 0 - 1) with (len - 1) by lia.
      split; [apply Z.div_pos; lia|].
      pose proof (Z.mul_div_le (len - 1) bs Hbs).
      pose proof (Z.mul_succ_div_gt (len - 1) bs Hbs). lia.
    - apply Z.ltb_nlt in E2. left. unfold len in *. lia. }
  assert (Hlt : forall k : nat, (k < Z.to_nat (range_length 0 len bs))%nat ->
                  (k * Z.to_nat bs < length xs)%nat).
  { intros k Hk. destruct Hcnt as [[_ H0]|(Hpos & q & Hq & Hq0 & Hlo & Hhi)]; [lia|].
    rewrite Hq in Hk. unfold len in *. nia. }
  split; [|split; [|split; [exact Hlt|]]].
  - unfold chunks, py_range. destruct (bs =? 0) eqn:E; [apply Z.eqb_eq in E; lia|].
    f_equal. fold len. rewrite map_map. apply map_ext_in.
    intros k Hk. apply in_seq in Hk. rewrite Z.add_0_l.
    apply py_slice_chunk; [exact Hbs|]. apply Hlt. lia.
  - intros k Hk. destruct Hcnt as [[_ H0]|(Hpos & q & Hq & Hq0 & Hlo & Hhi)]; [lia|].
    rewrite Hq in Hk. unfold len in *. nia.
  - destruct Hcnt as [[H0 _]|(Hpos & q & Hq & Hq0 & Hlo & Hhi)].
    + unfold len in H0. lia.
    + rewrite Hq. unfold len in *. nia.
Qed.

Lemma concat_chunks {A} (xs : list A) (b cnt : nat) :
  concat (map (fun k => take b (drop (k * b) xs)) (seq 0 cnt)) = take (cnt * b) xs.
Proof.
  induction cnt as [|cnt IH]; [reflexivity|].
  rewrite seq_S, map_app, concat_app, IH. simpl. rewrite app_nil_r.
  rewrite take_take_drop. f_equal. lia.
Qed.

(** For a positive size the chunks, put end to end, are the list. *)
Lemma chunks_concat {A} (xs : list A) (bs : Z) (cs : list (list A)) :
  0 < bs -> chunks xs bs = Ok cs -> concat cs = xs.
Proof.
  intros Hbs Hcs. destruct (chunks_shape xs bs Hbs) as (cnt & Hshape & _ & _ & Hlen).
  rewrite Hshape in Hcs. inversion Hcs; subst cs.
  rewrite concat_chunks. apply take_ge. exact Hlen.
Qed.

Lemma chunks_nonpositive {A} (xs : list A) (bs : Z) (cs : list (list A)) :
  bs <= 0 -> chunks xs bs = Ok cs -> cs = [].
Proof.
  intros Hbs. unfold chunks, py_range.
  destruct (bs =? 0) eqn:E; [discriminate|]. apply Z.eqb_neq in E.
  unfold range_length. destruct (0 <? bs) eqn:E1; [apply Z.ltb_lt in E1; lia|].
  destruct (Z.of_nat (length xs) <? 0) eqn:E2; [apply Z.ltb_lt in E2; lia|].
  simpl. intros H. inversion H. reflexivity.
Qed.


(** The record path keeps the sequence of tuples: for a positive size the
    tuples of the batches of [generate_members_sql], put end to end, are
    the tuples of the members in their order. *)
Lemma member_batches_concat (all_members : list SchemaMember) (bs : Z)
    (tuples : list (list string)) :
  0 < bs -> member_batches all_members bs = Ok tuples ->
  concat tuples = map member_value all_members.
Proof.
  intros Hbs Ht. unfold member_batches in Ht.
  destruct (chunks all_members bs) as [cs|e] eqn:E; [|discriminate].
  inversion Ht; subst tuples.
  pose proof (chunks_concat all_members bs cs Hbs E) as Hc.
  rewrite <- Hc at 1. symmetry. apply concat_map.
Qed.

(** ** The matcher only moves forward *)

Lemma is_suffix_refl s : is_suffix s s.
Proof. exists "". reflexivity. Qed.

Lemma is_suffix_cons c s' s : is_suffix s' s -> is_suffix s' (String c s).
Proof. intros [p ->]. exists (String c p). reflexivity. Qed.

Lemma string_app_assoc (a b c : string) : (a +:+ b) +:+ c = a +:+ (b +:+ c).
Proof.
  induction a as [|x a IH]; [reflexivity|].
  rewrite !string_app_cons. now rewrite IH.
Qed.

Lemma is_suffix_trans s1 s2 s3 : is_suffix s1 s2 -> is_suffix s2 s3 -> is_suffix s1 s3.
Proof.
  intros [p ->] [q ->]. exists (q +:+ p). now rewrite string_app_assoc.
Qed.

Lemma lit_match_suffix (lit s s' : string) :
  lit_match lit s = Some s' -> is_suffix s' s.
Proof.
  revert s. induction lit as [|a lit IH]; intros s H; simpl in H.
  - inversion H. apply is_suffix_refl.
  - destruct s as [|b s]; [discriminate|].
    destruct (Ascii.eqb a b); [|discriminate].
    apply is_suffix_cons. now apply IH.
Qed.

Lemma rep_match_suffix {A} greedy cls (k : string -> option A) :
  forall (s : string) (least : nat) (x : A),
    rep_match greedy cls least s k = Some x ->
    exists s', is_suffix s' s /\ k s' = Some x.
Proof.
  induction s as [|c s IH]; intros least x H.
  - destruct least; simpl in H; [|discriminate].
    exists "". split; [apply is_suffix_refl|exact H].
  - destruct least as [|least]; simpl in H.
    + destruct (cls c).
      * destruct greedy.
        -- destruct (rep_match true cls 0 s k) as [y|] eqn:E.
           ++ inversion H; subst y. destruct (IH 0%nat x E) as (s' & Hs & Hk).
              exists s'. split; [now apply is_suffix_cons|exact Hk].
           ++ exists (String c s). split; [apply is_suffix_refl|exact H].
        -- destruct (k (String c s)) as [y|] eqn:E.
           ++ inversion H; subst y.
              exists (String c s). split; [apply is_suffix_refl|exact E].
           ++ destruct (IH 0%nat x H) as (s' & Hs & Hk).
              exists s'. split; [now apply is_suffix_cons|exact Hk].
      * exists (String c s). split; [apply is_suffix_refl|exact H].
    + destruct (cls c); [|discriminate].
      destruct (IH least x H) as (s' & Hs & Hk).
      exists s'. split; [now apply is_suffix_cons|exact Hk].
Qed.

Lemma rmatch_suffix {A} (r : regex) :
  forall (s : string) (caps : list string) (k : string -> list string -> option A) (x : A),
    rmatch r s caps k = Some x ->
    exists s' caps', is_suffix s' s /\ k s' caps' = Some x.
Proof.
  induction r as [l|greedy least cls|r1 IH1 r2 IH2|r1 IH1]; intros s caps k x H; simpl in H.
  - destruct (lit_match l s) as [s'|] eqn:E; [|discriminate].
    exists s', caps. split; [eapply lit_match_suffix; exact E|exact H].
  - apply rep_match_suffix in H as (s' & Hs & Hk). exists s', caps. auto.
  - apply IH1 in H as (s1 & caps1 & Hs1 & H).
    apply IH2 in H as (s2 & caps2 & Hs2 & H).
    exists s2, caps2. split; [eapply is_suffix_trans; eassumption|exact H].
  - apply IH1 in H as (s1 & caps1 & Hs1 & H). eauto.
Qed.

Lemma occurs_app (c : ascii) (p s : string) :
  occurs c s = true -> occurs c (p +:+ s) = true.
Proof.
  intros H. induction p as [|a p IH]; [exact H|].
  rewrite string_app_cons. simpl. rewrite IH. apply orb_true_r.
Qed.

Lemma occurs_suffix (c : ascii) (s' s : string) :
  is_suffix s' s -> occurs c s' = true -> occurs c s = true.
Proof. intros [p ->]. apply occurs_app. Qed.

Lemma rmatch_cat {A} (r1 r2 : regex) s caps (k : string -> list string -> option A) :
  rmatch (Cat r1 r2) s caps k = rmatch r1 s caps (fun s' caps' => rmatch r2 s' caps' k).
Proof. reflexivity. Qed.

(** A statement is found only up to a semicolon. *)
Lemma re_insert_needs_semicolon (s : string) :
  occurs ";" s = false -> re_match re_insert s = None.
Proof.
  intros Hno. destruct (re_match re_insert s) as [x|] eqn:E; [exfalso|reflexivity].
  unfold re_match, re_insert in E. rewrite rmatch_cat in E.
  apply rmatch_suffix in E as (s' & caps' & Hs & E). cbn [rmatch] in E.
  destruct (lit_match ";" s') as [s''|] eqn:El; [|discriminate].
  assert (Hocc : occurs ";" s' = true).
  { destruct s' as [|b s']; cbn [lit_match] in El; [discriminate|].
    destruct (Ascii.eqb ";" b) eqn:Eb; [|discriminate].
    apply Ascii.eqb_eq in Eb. subst b. reflexivity. }
  rewrite (occurs_suffix _ _ _ Hs Hocc) in Hno. discriminate.
Qed.

Lemma finditer_go_no_semicolon (fuel : nat) :
  forall s : string, occurs ";" s = false -> finditer_go fuel re_insert s = [].
Proof.
  induction fuel as [|fuel IH]; intros s Hno; [reflexivity|].
  simpl. rewrite (re_insert_needs_semicolon s Hno).
  destruct s as [|c s]; [reflexivity|].
  apply IH. simpl in Hno. apply orb_false_iff in Hno. apply Hno.
Qed.

Lemma chunks_ok {A} (xs : list A) (bs : Z) :
  bs <> 0 -> exists cs, chunks xs bs = Ok cs.
Proof.
  intros Hbs. unfold chunks, py_range.
  destruct (bs =? 0) eqn:E; [apply Z.eqb_eq in E; contradiction|]. eauto.
Qed.

Lemma chunks_error {A} (xs : list A) (bs : Z) (e : exn) :
  chunks xs bs = Error e -> e = ValueError /\ bs = 0.
Proof.
  unfold chunks, py_range. destruct (bs =? 0) eqn:E; [|discriminate].
  apply Z.eqb_eq in E. intros H. inversion H. auto.
Qed.

Lemma split_inserts_ok (inserts : list string) (bs : Z) :
  bs <> 0 -> forall batches, exists out, split_inserts inserts bs batches = Ok out.
Proof.
  intros Hbs. induction inserts as [|insert inserts IH]; intros batches; simpl; [eauto|].
  destruct (re_match re_header insert) as [[rest [|header [|values [|? ?]]]]|]; try apply IH.
  destruct (chunks_ok (findall_whole re_tuple values) bs Hbs) as [cs ->]. apply IH.
Qed.

Lemma split_inserts_error (inserts : list string) (bs : Z) (e : exn) :
  forall batches, split_inserts inserts bs batches = Error e -> e = ValueError /\ bs = 0.
Proof.
  induction inserts as [|insert inserts IH]; intros batches; simpl; [discriminate|].
  destruct (re_match re_header insert) as [[rest [|header [|values [|? ?]]]]|]; try apply IH.
  destruct (chunks (findall_whole re_tuple values) bs) as [cs|e'] eqn:E; [apply IH|].
  intros H. inversion H; subst e'. eapply chunks_error. exact E.
Qed.

(** * Further properties of the record generator *)

(** ** Decimal renderings *)

Lemma pretty_N_char_is_digit (x : N) : is_digit (pretty_N_char x) = true.
Proof.
  unfold pretty_N_char. repeat case_match; reflexivity.
Qed.

Lemma all_chars_app (p : ascii -> bool) (s t : string) :
  all_chars p (s +:+ t) = all_chars p s && all_chars p t.
Proof.
  induction s as [|c s IH]; [reflexivity|].
  rewrite string_app_cons. simpl. rewrite IH. apply andb_assoc.
Qed.

(** The digits that [pretty_N_go] puts before its accumulator. *)
Lemma pretty_N_go_digits (x : N) :
  forall s : string, exists ds : string,
    pretty_N_go x s = ds +:+ s /\ all_chars is_digit ds = true /\
    ((0 < x)%N -> ds <> "").
Proof.
  induction (N.lt_wf_0 x) as [x _ IH]; intros s.
  destruct (decide (0 < x)%N) as [Hx|Hx].
  - rewrite pretty_N_go_step by done.
    destruct (IH (x `div` 10)%N ltac:(by apply N.div_lt)
                (String (pretty_N_char (x `mod` 10)) s)) as (ds & Heq & Hall & _).
    exists (ds +:+ String (pretty_N_char (x `mod` 10)) "").
    split; [|split].
    + rewrite Heq. rewrite string_app_assoc. reflexivity.
    + rewrite all_chars_app, Hall. simpl. now rewrite pretty_N_char_is_digit.
    + intros _ H. apply (f_equal String.length) in H.
      rewrite string_length_app in H. simpl in H. lia.
  - assert (x = 0%N) as -> by lia. exists "". rewrite pretty_N_go_0.
    split; [reflexivity|]. split; [reflexivity|]. intros H. lia.
Qed.

Lemma str_nat_digits (n : nat) : all_chars is_digit (str_nat n) = true.
Proof.
  unfold str_nat, pretty, pretty_nat, pretty, pretty_N.
  destruct (decide (N.of_nat n = 0%N)); [reflexivity|].
  destruct (pretty_N_go_digits (N.of_nat n) "") as (ds & Heq & Hall & _).
  rewrite Heq. rewrite all_chars_app, Hall. reflexivity.
Qed.

Lemma str_Z_of_pos (z : Z) : 0 < z -> str_Z z = pretty_N_go (Z.to_N z) "".
Proof.
  intros Hz. destruct z as [|p|p]; try lia.
  unfold str_Z, pretty, pretty_Z, pretty, pretty_positive, pretty, pretty_N.
  destruct (decide (N.pos p = 0%N)); [discriminate|]. reflexivity.
Qed.

Lemma pretty_N_go_1_digit (x : N) (s : string) :
  (1 <= x <= 9)%N -> String.length (pretty_N_go x s) = S (String.length s).
Proof.
  intros Hx. rewrite pretty_N_go_step by lia.
  replace (x `div` 10)%N with 0%N by (symmetry; apply N.div_small; lia).
  rewrite pretty_N_go_0. reflexivity.
Qed.

Lemma pretty_N_go_2_digits (x : N) (s : string) :
  (10 <= x <= 99)%N -> String.length (pretty_N_go x s) = S (S (String.length s)).
Proof.
  intros Hx. rewrite pretty_N_go_step by lia.
  rewrite pretty_N_go_1_digit; [reflexivity|].
  split; [apply N.div_le_lower_bound; lia|].
  apply N.lt_succ_r. apply N.Div0.div_lt_upper_bound; lia.
Qed.

Lemma pretty_N_go_3_digits (x : N) (s : string) :
  (100 <= x <= 999)%N -> String.length (pretty_N_go x s) = S (S (S (String.length s))).
Proof.
  intros Hx. rewrite pretty_N_go_step by lia.
  rewrite pretty_N_go_2_digits; [reflexivity|].
  split; [apply N.div_le_lower_bound; lia|].
  apply N.lt_succ_r. apply N.Div0.div_lt_upper_bound; lia.
Qed.

Lemma pretty_N_go_4_digits (x : N) (s : string) :
  (1000 <= x <= 9999)%N ->
  String.length (pretty_N_go x s) = S (S (S (S (String.length s)))).
Proof.
  intros Hx. rewrite pretty_N_go_step by lia.
  rewrite pretty_N_go_3_digits; [reflexivity|].
  split; [apply N.div_le_lower_bound; lia|].
  apply N.lt_succ_r. apply N.Div0.div_lt_upper_bound; lia.
Qed.

Lemma str_Z_length_2 (z : Z) : 10 <= z <= 99 -> String.length (str_Z z) = 2%nat.
Proof. intros H. rewrite str_Z_of_pos by lia. apply pretty_N_go_2_digits. lia. Qed.

Lemma str_Z_length_3 (z : Z) : 100 <= z <= 999 -> String.length (str_Z z) = 3%nat.
Proof. intros H. rewrite str_Z_of_pos by lia. apply pretty_N_go_3_digits. lia. Qed.

Lemma str_Z_length_4 (z : Z) : 1000 <= z <= 9999 -> String.length (str_Z z) = 4%nat.
Proof. intros H. rewrite str_Z_of_pos by lia. apply pretty_N_go_4_digits. lia. Qed.

Lemma format_02d_length (n : Z) : 0 <= n <= 99 -> String.length (format_02d n) = 2%nat.
Proof.
  intros H. unfold format_02d. destruct (n <? 10) eqn:E.
  - apply Z.ltb_lt in E. rewrite string_length_app. simpl.
    destruct (Z.eq_dec n 0) as [->|Hn]; [reflexivity|].
    rewrite str_Z_of_pos by lia. rewrite pretty_N_go_1_digit by lia. reflexivity.
  - apply Z.ltb_ge in E. apply str_Z_length_2. lia.
Qed.

Lemma occurs_app_l (c : ascii) (s t : string) :
  occurs c s = true -> occurs c (s +:+ t) = true.
Proof.
  induction s as [|a s IH]; [discriminate|].
  rewrite string_app_cons. simpl. intros H.
  apply orb_true_iff in H as [H|H]; [now rewrite H|].
  rewrite IH by exact H. apply orb_true_r.
Qed.

(** ** Phone, zip code, engagement score *)

Lemma area_codes_three_digits (area : Z) : In area area_codes -> 100 <= area <= 999.
Proof.
  intros H. assert (Hall : Forall (fun a => 100 <= a <= 999) area_codes).
  { unfold area_codes. repeat constructor; lia. }
  rewrite Forall_forall in Hall. apply Hall. now apply list_elem_of_In.
Qed.

Lemma phone_format_length (phone : string) :
  phone_format phone -> String.length phone = 14%nat /\ occurs ")" phone = true.
Proof.
  intros (area & exchange & number & Ha & He & Hn & ->).
  apply area_codes_three_digits in Ha. split.
  - rewrite !string_length_app.
    rewrite (str_Z_length_3 area), (str_Z_length_3 exchange), (str_Z_length_4 number) by lia.
    reflexivity.
  - change ("(" +:+ str_Z area +:+ ") " +:+ str_Z exchange +:+ "-" +:+ str_Z number)
      with (String "(" (str_Z area +:+ String ")" (" " +:+ str_Z exchange +:+ "-"
                                                     +:+ str_Z number))).
    cbn [occurs]. apply orb_true_iff. right.
    apply occurs_app. cbn [occurs]. rewrite Ascii.eqb_refl. reflexivity.
Qed.

Lemma ensures_generate_phone_format w st :
  ensures w generate_phone st (fun phone st' => quiet st st' /\ phone_format phone).
Proof.
  unfold generate_phone.
  eapply ensures_bind; [apply ensures_choice; discriminate|]. intros area st1 [H1 Ha].
  eapply ensures_bind; [apply ensures_randint; lia|]. intros ex st2 [H2 He].
  eapply ensures_bind; [apply ensures_randint; lia|]. intros nb st3 [H3 Hn].
  apply ensures_ret. split; [eauto using quiet_trans|].
  exists area, ex, nb. auto.
Qed.

Lemma dict_get_missing {V} (d : list (string * V)) (key : string) (default : V) :
  ~ In key (dict_keys d) -> dict_get d key default = default.
Proof.
  induction d as [|[k v] d IH]; intros Hno; [reflexivity|]. simpl.
  destruct (String.eqb k key) eqn:E.
  - apply String.eqb_eq in E. exfalso. apply Hno. left. exact E.
  - apply IH. intros Hin. apply Hno. right. exact Hin.
Qed.

Lemma dict_get_cases {V} (d : list (string * V)) (key : string) (default : V) :
  dict_get d key default = default \/ In (key, dict_get d key default) d.
Proof.
  induction d as [|[k v] d IH]; [left; reflexivity|]. simpl.
  destruct (String.eqb k key) eqn:E.
  - apply String.eqb_eq in E. subst k. right. left. reflexivity.
  - destruct IH as [IH|IH]; [left; exact IH|right; right; exact IH].
Qed.

Lemma zip_prefix_length state (prefix : string) :
  In prefix (dict_get zip_prefixes state ["900"]) -> String.length prefix = 3%nat.
Proof.
  assert (Hall : Forall (fun kv => Forall (fun p => String.length p = 3%nat) (snd kv))
                   zip_prefixes).
  { unfold zip_prefixes. repeat constructor. }
  intros Hin. destruct (dict_get_cases zip_prefixes state ["900"]) as [Hd|Hd].
  - rewrite Hd in Hin. destruct Hin as [<-|[]]. reflexivity.
  - rewrite Forall_forall in Hall. apply list_elem_of_In in Hd.
    specialize (Hall _ Hd). simpl in Hall. rewrite Forall_forall in Hall.
    apply Hall. now apply list_elem_of_In.
Qed.

Lemma zip_format_length state zip : zip_format state zip -> String.length zip = 5%nat.
Proof.
  intros (prefix & n & Hp & Hn & ->). rewrite string_length_app.
  rewrite (zip_prefix_length state prefix Hp), format_02d_length by exact Hn. reflexivity.
Qed.

Lemma ensures_generate_zip_code_format w st state :
  ensures w (generate_zip_code state) st (fun zip st' => quiet st st' /\ zip_format state zip).
Proof.
  unfold generate_zip_code.
  eapply ensures_bind.
  { apply ensures_choice. apply dict_get_nonempty; [|discriminate].
    unfold zip_prefixes. repeat constructor; discriminate. }
  intros prefix st1 [H1 Hp].
  eapply ensures_bind; [apply ensures_randint; lia|]. intros n st2 [H2 Hn].
  apply ensures_ret. split; [eauto using quiet_trans|].
  exists prefix, n. auto.
Qed.

Lemma ensures_calculate_engagement_score_tier w st :
  ensures w calculate_engagement_score st (fun score st' =>
    quiet st st' /\ 0 <= score <= 100 /\
    exists rand : Q, (0 <= rand)%Q /\ (rand < 1)%Q /\ engagement_tier rand score).
Proof.
  unfold calculate_engagement_score.
  eapply ensures_bind; [apply ensures_random|]. intros rand st1 (H1 & Hr0 & Hr1).
  destruct (Qlt_bool rand (2 # 10)) eqn:E1; [|destruct (Qlt_bool rand (7 # 10)) eqn:E2];
    qbool;
    (eapply ensures_conseq; [apply ensures_randint; lia|]);
    intros v st2 [H2 Hv]; (split; [eauto using quiet_trans|]); (split; [lia|]);
    exists rand; (split; [exact Hr0|]); (split; [exact Hr1|]);
    unfold engagement_tier; repeat split; intros; try lia; exfalso; lra.
Qed.

(** ** [random.sample] draws without replacement *)

Lemma insert_swap_perm {A} (l : list A) (j : nat) (x y : A) :
  l !! j = Some x -> x :: <[j := y]> l ≡ₚ y :: l.
Proof.
  revert j. induction l as [|a l IH]; intros j Hj; [discriminate|].
  destruct j as [|j]; simpl in *.
  - inversion Hj; subst a. apply perm_swap.
  - rewrite (perm_swap a x). rewrite (IH j Hj). apply perm_swap.
Qed.

(** One round of the pool: the element taken, with what is left of the
    pool, is the pool before the round. *)
Lemma sample_round_perm {A} (d : A) (pool : list A) (n j : nat) :
  (0 < n <= length pool)%nat -> (j < n)%nat ->
  nth j pool d :: take (n - 1) (<[j := nth (n - 1) pool d]> pool) ≡ₚ take n pool.
Proof.
  intros Hn Hj.
  destruct (lookup_lt_is_Some_2 pool j ltac:(lia)) as [x Hx].
  destruct (lookup_lt_is_Some_2 pool (n - 1) ltac:(lia)) as [y Hy].
  rewrite (nth_lookup_Some _ _ _ _ Hx), (nth_lookup_Some _ _ _ _ Hy).
  replace n with (S (n - 1)) at 2 by lia.
  rewrite (take_S_r _ _ _ Hy).
  destruct (decide (j = n - 1)%nat) as [->|Hne].
  - rewrite list_insert_id by exact Hy.
    assert (x = y) as -> by congruence.
    apply Permutation_cons_append.
  - rewrite take_insert_lt by lia.
    rewrite insert_swap_perm by (rewrite lookup_take_lt by lia; exact Hx).
    apply Permutation_cons_append.
Qed.

Lemma ensures_sample_pool_submseteq {A} w (d : A) (k : nat) :
  forall st (pool : list A) (n : nat), (k <= n <= length pool)%nat ->
  ensures w (sample_pool d k pool n) st (fun l st' =>
    quiet st st' /\ length l = k /\ l ⊆+ take n pool).
Proof.
  induction k as [|k IH]; intros st pool n Hn; simpl.
  - apply ensures_ret. split; [apply quiet_refl|]. split; [reflexivity|].
    apply submseteq_nil_l.
  - eapply ensures_bind; [apply ensures_randbelow; lia|].
    intros j st1 [Hq1 Hj].
    eapply ensures_bind.
    { apply (IH st1 (<[N.to_nat j := nth (n - 1) pool d]> pool) (n - 1)%nat).
      rewrite length_insert. lia. }
    intros rest st2 (Hq2 & Hlen & Hsub). apply ensures_ret.
    split; [eapply quiet_trans; eassumption|]. split; [simpl; congruence|].
    rewrite <- (sample_round_perm d pool n (N.to_nat j)) by lia.
    apply submseteq_skip. exact Hsub.
Qed.

Lemma ensures_sample_distinct {A} w st (population : list A) (k : Z) :
  0 <= k <= Z.of_nat (length population) ->
  ensures w (sample population k) st (fun l st' =>
    quiet st st' /\ length l = Z.to_nat k /\ l ⊆+ population).
Proof.
  intros Hk. unfold sample. destruct population as [|d pop].
  - simpl in Hk. assert (k = 0) as -> by lia. simpl.
    apply ensures_ret. split; [apply quiet_refl|]. split; [reflexivity|].
    apply submseteq_nil_l.
  - destruct (k <? 0) eqn:E1; [apply Z.ltb_lt in E1; lia|].
    destruct (Z.of_nat (length (d :: pop)) <? k) eqn:E2; [apply Z.ltb_lt in E2; lia|].
    simpl orb. cbv iota.
    eapply ensures_conseq; [apply ensures_sample_pool_submseteq; lia|].
    intros l st' (Hq & Hlen & Hsub). split; [exact Hq|]. split; [exact Hlen|].
    rewrite take_ge in Hsub by lia. exact Hsub.
Qed.

(** ** The fields of a record *)

Lemma NoDup_of_submseteq {A} (l k : list A) : l ⊆+ k -> NoDup k -> NoDup l.
Proof.
  intros Hsub Hk. apply submseteq_Permutation in Hsub as [k' Hp].
  rewrite Hp in Hk. apply NoDup_app in Hk. apply Hk.
Qed.

Lemma SPECIALTIES_NoDup : NoDup SPECIALTIES.
Proof. apply (bool_decide_unpack _). vm_compute. exact I. Qed.

Lemma ensures_choice_index {A} w st (seq : list A) :
  seq <> [] ->
  ensures w (choice seq) st (fun x st' =>
    quiet st st' /\ In x seq /\
    seq !! N.to_nat (rng w (rng_pos st) mod N.of_nat (length seq))%N = Some x).
Proof.
  intros Hne. unfold choice. destruct seq as [|x0 seq']; [contradiction|].
  set (seq := x0 :: seq').
  assert (Hlt : (N.to_nat (rng w (rng_pos st) mod N.of_nat (length seq)) < length seq)%nat).
  { pose proof (N.mod_lt (rng w (rng_pos st)) (N.of_nat (length seq))
                 ltac:(unfold seq; simpl; lia)). lia. }
  eexists _, _. split; [exists O; reflexivity|]. cbv beta.
  split; [|split].
  - unfold quiet, frame. simpl. auto.
  - apply nth_In. exact Hlt.
  - destruct (lookup_lt_is_Some_2 seq _ Hlt) as [y Hy].
    rewrite Hy. f_equal. symmetry. apply nth_lookup_Some. exact Hy.
Qed.

Lemma generate_member_fields_spec w st (i : nat) :
  chapters st <> [] -> clock_bounded w ->
  ensures w (generate_member i) st (fun m st' =>
    (member_location w (chapters st) m /\ member_well_formed m) /\
    chapters st' = chapters st).
Proof.
  intros Hch Hb. unfold generate_member.
  eapply ensures_bind; [apply ensures_get_chapters|]. intros chs s0 [-> ->].
  eapply ensures_bind; [apply ensures_choice_index; exact Hch|].
  intros chapter s1 (Q1 & _ & Hidx).
  eapply ensures_bind; [apply ensures_choice; discriminate|]. intros first_name s2 [Q2 _].
  eapply ensures_bind; [apply ensures_choice; discriminate|]. intros last_name s3 [Q3 _].
  eapply ensures_bind; [apply ensures_choice; apply cities_nonempty|].
  intros city s4 [Q4 Hcity].
  eapply ensures_bind; [apply ensures_generate_member_since_date|].
  intros since s5 (F5 & _).
  eapply ensures_bind; [apply ensures_generate_renewal_date; exact Hb|].
  intros renewal s6 (F6 & _).
  eapply ensures_bind; [apply ensures_random|]. intros u s7 (Q7 & _).
  eapply ensures_bind; [apply ensures_choice; discriminate|].
  intros company_type s8 [Q8 Hct].
  eapply ensures_bind; [apply ensures_uuid4|]. intros id_ s9 Q9.
  eapply ensures_bind; [apply ensures_generate_email|].
  intros email s10 (C10 & _).
  eapply ensures_bind; [apply ensures_generate_phone_format|]. intros phone s11 [Q11 Hphone].
  eapply ensures_bind; [apply ensures_randint; lia|]. intros house s12 [Q12 _].
  eapply ensures_bind; [apply ensures_choice; discriminate|]. intros street s13 [Q13 _].
  eapply ensures_bind; [apply ensures_random|]. intros suite_rand s14 (Q14 & _).
  eapply ensures_bind.
  { instantiate (1 := fun a s => quiet s14 s /\
      (a = None \/ exists suite : Z, 100 <= suite <= 999 /\
                                     a = Some ("Suite " +:+ str_Z suite))).
    destruct (Qlt_bool (2 # 10) suite_rand).
    - apply ensures_ret. split; [apply quiet_refl|left; reflexivity].
    - eapply ensures_bind; [apply ensures_randint; lia|]. intros suite s [Q Hs].
      apply ensures_ret. split; [exact Q|]. right. exists suite. auto. }
  intros address_line2 s15 [Q15 Haddr].
  eapply ensures_bind; [apply ensures_generate_zip_code_format|].
  intros zip_code s16 [Q16 Hzip].
  eapply ensures_bind; [apply ensures_calculate_engagement_score_tier|].
  intros score s17 (Q17 & Hscore & _).
  eapply ensures_bind; [apply ensures_calculate_ce_credits|]. intros ce s18 (F18 & _).
  eapply ensures_bind; [apply ensures_randint; lia|]. intros kk s19 [Q19 Hkk].
  eapply ensures_bind; [apply ensures_sample_distinct; simpl; lia|].
  intros specialties s20 (Q20 & Hlen & Hsub).
  eapply ensures_bind; [apply ensures_choice; discriminate|]. intros job_title s21 [Q21 Hjob].
  eapply ensures_bind; [apply ensures_choice; discriminate|]. intros bio_title s22 [Q22 _].
  eapply ensures_bind; [apply ensures_sample; simpl; lia|]. intros bio_sp s23 [Q23 _].
  eapply ensures_bind; [apply ensures_now|]. intros updated_at s24 (F24 & _).
  apply ensures_ret. split; [split|].
  - exists (rng_pos st), chapter. simpl. auto.
  - unfold member_well_formed. simpl.
    split; [reflexivity|]. split; [exists company_type; auto|].
    split; [reflexivity|]. split; [exact Hphone|]. split; [exact Hzip|].
    split; [exact Hscore|]. split; [lia|]. split; [exact Hsub|].
    split; [exact (NoDup_of_submseteq _ _ Hsub SPECIALTIES_NoDup)|].
    split; [exact Hjob|]. split; [exact Haddr|reflexivity].
  - unfold quiet, frame in *. cbv beta in *.
    repeat match goal with H : _ /\ _ |- _ => destruct H end. congruence.
Qed.

(** From a property of every record made by the loop body to the records
    of a run. *)
Lemma generate_members_Forall w (P : list Chapter -> Member -> Prop) :
  (forall i st, chapters st <> [] ->
     ensures w (generate_member i) st (fun m st' =>
       P (chapters st) m /\ chapters st' = chapters st)) ->
  forall (n : nat) (st : State), chapters st <> [] ->
  exists ms st',
    returns (generate_members n) w st ms st' /\ length ms = n /\
    Forall (P (chapters st)) ms.
Proof.
  intros Hbody n st Hch.
  assert (Hgen : forall (n start : nat) (st : State) (acc : list Member),
            chapters st <> [] ->
            exists ms st',
              returns (for_range_from start n
                         (fun i members =>
                            member <- generate_member i ;; ret (members ++ [member]))
                         acc) w st (acc ++ ms) st' /\
              length ms = n /\ Forall (P (chapters st)) ms).
  { clear n st Hch. induction n as [|n IH]; intros start st acc Hch.
    - exists [], st. rewrite app_nil_r. split; [apply returns_ret|].
      split; [reflexivity|constructor].
    - destruct (Hbody start st Hch) as (m & st1 & Hm & HP & Hsame).
      destruct (IH (S start) st1 (acc ++ [m]) ltac:(congruence))
        as (ms & st' & Hr & Hlen & Hall).
      exists (m :: ms), st'. split; [|split].
      + simpl. eapply returns_bind.
        * eapply returns_bind; [exact Hm|apply returns_ret].
        * rewrite <- app_assoc in Hr. exact Hr.
      + simpl. congruence.
      + constructor; [exact HP|]. rewrite <- Hsame. exact Hall. }
  destruct (Hgen n 0%nat st [] Hch) as (ms & st' & Hr & Hlen & Hall).
  exists ms, st'. auto.
Qed.

Lemma generate_members_fields w (n : nat) (st : State) :
  chapters st <> [] -> clock_bounded w ->
  exists ms st',
    returns (generate_members n) w st ms st' /\ length ms = n /\
    Forall (fun m => member_location w (chapters st) m /\ member_well_formed m) ms.
Proof.
  intros Hch Hb.
  apply (generate_members_Forall w
           (fun chs m => member_location w chs m /\ member_well_formed m)); [|exact Hch].
  intros i s Hs. apply generate_member_fields_spec; assumption.
Qed.

(** Two calls for one lower-cased name and one domain. *)
Lemma generate_email_twice w st fn1 ln1 d1 fn2 ln2 d2 :
  email_base fn1 ln1 = email_base fn2 ln2 ->
  email_domain d1 = email_domain d2 ->
  candidate (email_base fn1 ln1) (email_domain d1) 0 ∉ generated_emails st ->
  candidate (email_base fn1 ln1) (email_domain d1) 1 ∉ generated_emails st ->
  exists st',
    returns (e1 <- generate_email fn1 ln1 d1 ;;
             e2 <- generate_email fn2 ln2 d2 ;; ret (e1, e2)) w st
      (candidate (email_base fn1 ln1) (email_domain d1) 0,
       candidate (email_base fn1 ln1) (email_domain d1) 1) st' /\
    generated_emails st'
    = {[ candidate (email_base fn1 ln1) (email_domain d1) 1 ]}
      ∪ ({[ candidate (email_base fn1 ln1) (email_domain d1) 0 ]} ∪ generated_emails st).
Proof.
  intros Hbase Hdom Hfree0 Hfree1.
  destruct (generate_email_spec w st fn1 ln1 d1) as (k1 & _ & Hk1 & Hl1 & Hr1).
  cbv zeta in *.
  assert (k1 = 0%nat) as ->.
  { destruct k1 as [|k1]; [reflexivity|]. exfalso. apply Hfree0. apply Hl1. lia. }
  set (st1 := mkState (chapters st)
                ({[ candidate (email_base fn1 ln1) (email_domain d1) 0 ]} ∪ generated_emails st)
                (rng_pos st) (clock_pos st) (uuid_pos st)) in *.
  destruct (generate_email_spec w st1 fn2 ln2 d2) as (k2 & _ & Hk2 & Hl2 & Hr2).
  cbv zeta in *. rewrite <- Hbase, <- Hdom in *.
  assert (k2 = 1%nat) as ->.
  { destruct k2 as [|[|k2]]; [| reflexivity |].
    - exfalso. apply Hk2. unfold st1. cbn [generated_emails]. set_solver.
    - exfalso. specialize (Hl2 1%nat ltac:(lia)). unfold st1 in Hl2.
      cbn [generated_emails] in Hl2.
      apply elem_of_union in Hl2 as [Hl2|Hl2]; [|contradiction].
      apply elem_of_singleton in Hl2. apply candidate_inj in Hl2. discriminate. }
  eexists. split.
  - eapply returns_bind; [exact Hr1|].
    eapply returns_bind; [exact Hr2|]. apply returns_ret.
  - reflexivity.
Qed.

(** ** Credits for a date in the future *)

Lemma round2_negative (x : Q) : (x * 100 <= -2)%Q -> (round2 x <= -2 # 100)%Q.
Proof.
  intros Hx. unfold round2.
  pose proof (Qfloor_resp_le _ _ Hx) as Hf. change (Qfloor (-2)) with (-2) in Hf.
  pose proof (round_half_even_bounds (x * 100)) as [Hlo Hhi].
  assert (Hr : round_half_even (x * 100) <= -2).
  { unfold round_half_even in *.
    destruct (Qlt_bool (x * 100 - inject_Z (Qfloor (x * 100))) (1 # 2)) eqn:E1; [lia|].
    destruct (Z_lt_le_dec (Qfloor (x * 100)) (-2)) as [Hlt|Hge]; [|exfalso].
    - destruct (Qlt_bool (1 # 2) _); [lia|]. destruct (Z.even _); lia.
    - assert (Hfl : Qfloor (x * 100) = -2) by lia.
      apply Qlt_bool_false_iff in E1. rewrite Hfl in E1.
      change (inject_Z (-2)) with (-2)%Q in E1. lra. }
  apply Qle_trans with (inject_Z (-2) / 100)%Q; [|discriminate].
  apply inject_Z_div100_le. exact Hr.
Qed.

Lemma ce_credits_value_negative (days : Z) (rate : Q) :
  days <= -1 -> (8 <= rate)%Q -> (ce_credits_value days rate < 0)%Q.
Proof.
  intros Hd Hr. unfold ce_credits_value.
  assert (Hx : (inject_Z days / 365 * rate * 100 <= -2)%Q).
  { assert (Hdq : (inject_Z days <= -1)%Q).
    { rewrite Zle_Qle in Hd. exact Hd. }
    assert (H1 : (inject_Z days / 365 <= - (1 # 365))%Q).
    { apply Qle_trans with ((-1) * / 365)%Q; [|discriminate].
      unfold Qdiv. apply Qmult_le_compat_r; [exact Hdq|discriminate]. }
    nra. }
  pose proof (round2_negative _ Hx) as Hneg.
  unfold py_min.
  destruct (Qlt_bool 150 (round2 (inject_Z days / 365 * rate))) eqn:E; qbool; lra.
Qed.

(** * Further properties of the batch splitter *)

(** ** What the third pattern can match *)

Lemma lit_match_eq (lit s s' : string) : lit_match lit s = Some s' -> s = lit +:+ s'.
Proof.
  revert s. induction lit as [|a lit IH]; intros s H; cbn [lit_match] in H.
  - inversion H. reflexivity.
  - destruct s as [|b s]; [discriminate|].
    destruct (Ascii.eqb a b) eqn:E; [|discriminate].
    apply Ascii.eqb_eq in E. subst b. rewrite string_app_cons. f_equal. now apply IH.
Qed.

(** A repetition consumes characters of its class, at least [least]. *)
Lemma rep_match_shape {A} greedy cls (k : string -> option A) :
  forall (s : string) (least : nat) (x : A),
    rep_match greedy cls least s k = Some x ->
    exists body rest : string,
      s = body +:+ rest /\ all_chars cls body = true /\
      (least <= String.length body)%nat /\ k rest = Some x.
Proof.
  induction s as [|c s IH]; intros least x H.
  - destruct least; simpl in H; [|discriminate].
    exists "", "". repeat split; auto.
  - destruct least as [|least]; cbn [rep_match] in H.
    + destruct (cls c) eqn:Ec.
      * assert (Hmore : forall y, rep_match greedy cls 0 s k = Some y ->
                  exists body rest : string,
                    String c s = body +:+ rest /\ all_chars cls body = true /\
                    (0 <= String.length body)%nat /\ k rest = Some y).
        { intros y Hy. destruct (IH 0%nat y Hy) as (body & rest & -> & Hall & _ & Hk).
          exists (String c body), rest. rewrite string_app_cons.
          split; [reflexivity|]. split; [simpl; now rewrite Ec, Hall|].
          split; [lia|exact Hk]. }
        assert (Hstop : forall y, k (String c s) = Some y ->
                  exists body rest : string,
                    String c s = body +:+ rest /\ all_chars cls body = true /\
                    (0 <= String.length body)%nat /\ k rest = Some y).
        { intros y Hy. exists "", (String c s). repeat split; auto. }
        destruct greedy.
        -- destruct (rep_match true cls 0 s k) as [y|] eqn:E.
           ++ inversion H; subst y. now apply Hmore.
           ++ now apply Hstop.
        -- destruct (k (String c s)) as [y|] eqn:E.
           ++ inversion H; subst y. now apply Hstop.
           ++ now apply Hmore.
      * exists "", (String c s). repeat split; auto.
    + destruct (cls c) eqn:Ec; [|discriminate].
      destruct (IH least x H) as (body & rest & -> & Hall & Hlen & Hk).
      exists (String c body), rest. rewrite string_app_cons.
      split; [reflexivity|]. split; [simpl; now rewrite Ec, Hall|].
      split; [simpl; lia|exact Hk].
Qed.

Lemma all_not_rparen (body : string) :
  all_chars not_rparen body = true -> occurs ")" body = false.
Proof.
  induction body as [|c body IH]; [reflexivity|]. simpl.
  intros H. apply andb_true_iff in H as [Hc Hb]. rewrite (IH Hb).
  unfold not_rparen in Hc. apply negb_true_iff in Hc. rewrite Hc. reflexivity.
Qed.

Lemma re_tuple_match_shape (s rest : string) (caps : list string) :
  re_match re_tuple s = Some (rest, caps) ->
  exists body : string,
    s = ("(" +:+ body +:+ ")") +:+ rest /\ body <> "" /\ occurs ")" body = false.
Proof.
  unfold re_match, re_tuple. rewrite rmatch_cat. cbn [rmatch]. intros H.
  destruct (lit_match "(" s) as [s1|] eqn:E1; [|discriminate].
  apply lit_match_eq in E1. subst s.
  apply rep_match_shape in H as (body & rest1 & -> & Hall & Hlen & H).
  destruct (lit_match ")" rest1) as [rest2|] eqn:E2; [|discriminate].
  apply lit_match_eq in E2. subst rest1. inversion H; subst rest2 caps.
  exists body. split; [|split].
  - rewrite !string_app_assoc. reflexivity.
  - intros ->. simpl in Hlen. lia.
  - now apply all_not_rparen.
Qed.

Lemma substring_prefix (p r : string) : substring 0 (String.length p) (p +:+ r) = p.
Proof.
  induction p as [|c p IH].
  - destruct r; reflexivity.
  - rewrite string_app_cons. cbn [String.length substring]. now rewrite IH.
Qed.

Lemma consumed_app (p r : string) : consumed (p +:+ r) r = p.
Proof.
  unfold consumed. rewrite string_length_app.
  replace (String.length p + String.length r - String.length r)%nat
    with (String.length p) by lia.
  apply substring_prefix.
Qed.

Lemma finditer_go_re_tuple_shape (fuel : nat) :
  forall (s whole : string) (caps : list string),
    In (whole, caps) (finditer_go fuel re_tuple s) -> value_set_shape whole.
Proof.
  induction fuel as [|fuel IH]; intros s whole caps Hin; [destruct Hin|].
  cbn [finditer_go] in Hin.
  destruct (re_match re_tuple s) as [[rest caps']|] eqn:E.
  - destruct Hin as [Heq|Hin].
    + inversion Heq; subst whole caps.
      apply re_tuple_match_shape in E as (body & -> & Hne & Hno).
      rewrite consumed_app. exists body. auto.
    + destruct s as [|c s]; [destruct Hin|]. eapply IH. exact Hin.
  - destruct s as [|c s]; [destruct Hin|]. eapply IH. exact Hin.
Qed.

Lemma findall_whole_re_tuple_shape (s v : string) :
  In v (findall_whole re_tuple s) -> value_set_shape v.
Proof.
  unfold findall_whole, finditer. intros Hin.
  apply in_map_iff in Hin as ([whole caps] & <- & Hin).
  eapply finditer_go_re_tuple_shape. exact Hin.
Qed.

Lemma value_set_shape_no_inner_rparen (a : string) :
  occurs ")" a = true -> ~ value_set_shape ("(" +:+ a +:+ ")").
Proof.
  intros Ha (body & Heq & _ & Hno).
  apply (inj (String.append "(")) in Heq.
  apply string_app_inv_tail in Heq. subst body. congruence.
Qed.

(** ** Number of chunks; statements in order; odd batch sizes *)

Lemma chunks_count {A} (xs : list A) (bs : Z) (cs : list (list A)) :
  0 < bs -> chunks xs bs = Ok cs ->
  Z.of_nat (length cs) = (Z.of_nat (length xs) + bs - 1) / bs /\
  Forall (fun c => c <> []) cs.
Proof.
  intros Hbs Hcs.
  destruct (chunks_shape xs bs Hbs) as (cnt & Hshape & _ & Hlt & Hlen).
  rewrite Hshape in Hcs. inversion Hcs; subst cs. clear Hcs. split.
  - rewrite length_map, length_seq.
    apply (Z.div_unique_pos _ _ _ (Z.of_nat (length xs) + bs - 1 - bs * Z.of_nat cnt)).
    + split; [|nia]. destruct cnt as [|cnt]; [lia|].
      specialize (Hlt cnt ltac:(lia)). nia.
    + ring.
  - apply Forall_forall. intros c Hc. apply list_elem_of_fmap in Hc as (k & -> & Hk).
    apply elem_of_seq in Hk. specialize (Hlt k ltac:(lia)).
    intros Hnil. apply (f_equal length) in Hnil.
    rewrite length_take, length_drop in Hnil. simpl in Hnil. lia.
Qed.



Lemma chunks_negative {A} (xs : list A) (bs : Z) : bs < 0 -> chunks xs bs = Ok [].
Proof.
  intros Hbs. destruct (chunks_ok xs bs ltac:(lia)) as [cs Hcs].
  rewrite Hcs. f_equal. eapply chunks_nonpositive; [|exact Hcs]. lia.
Qed.

Lemma chunks_zero {A} (xs : list A) : chunks xs 0 = Error ValueError.
Proof. reflexivity. Qed.

Lemma header_matches_true (insert : string) :
  header_matches insert = true ->
  exists rest h v, re_match re_header insert = Some (rest, [h; v]).
Proof.
  unfold header_matches.
  destruct (re_match re_header insert) as [[rest [|h [|v [|? ?]]]]|]; try discriminate.
  eauto.
Qed.

(** For a negative batch size the statements with a matching header vanish
    and the others pass through. *)
Lemma split_inserts_negative (inserts : list string) (bs : Z) :
  bs < 0 ->
  forall acc : list string,
    split_inserts inserts bs acc
    = Ok (acc ++ map (fun i => i +:+ ";")
                     (List.filter (fun i => negb (header_matches i)) inserts)).
Proof.
  intros Hbs. induction inserts as [|insert inserts IH]; intros acc; simpl.
  - now rewrite app_nil_r.
  - unfold header_matches at 1.
    destruct (re_match re_header insert) as [[rest [|h [|v [|? ?]]]]|]; simpl;
      try (rewrite IH, <- app_assoc; reflexivity).
    rewrite chunks_negative by exact Hbs. simpl. rewrite app_nil_r. apply IH.
Qed.

(** For the batch size 0 the call raises as soon as one statement has a
    matching header, and passes everything through otherwise. *)
Lemma split_inserts_zero (inserts : list string) :
  forall acc : list string,
    split_inserts inserts 0 acc
    = if forallb (fun i => negb (header_matches i)) inserts
      then Ok (acc ++ map (fun i => i +:+ ";") inserts)
      else Error ValueError.
Proof.
  induction inserts as [|insert inserts IH]; intros acc; simpl.
  - now rewrite app_nil_r.
  - unfold header_matches at 1.
    destruct (re_match re_header insert) as [[rest [|h [|v [|? ?]]]]|]; simpl;
      try (rewrite IH; destruct (forallb _ inserts); [rewrite <- app_assoc|];
           reflexivity).
    reflexivity.
Qed.

(** * Further properties: the records of the existing schema *)

(** ** The addresses *)

(** A text without digit followed by digits determines both parts. *)
Lemma app_digits_inj (a a' d d' : string) :
  all_chars ExistingSchema.not_digit a = true ->
  all_chars ExistingSchema.not_digit a' = true ->
  all_chars is_digit d = true -> all_chars is_digit d' = true ->
  a +:+ d = a' +:+ d' -> a = a' /\ d = d'.
Proof.
  revert a'. induction a as [|c a IH]; intros [|c' a'] Ha Ha' Hd Hd' H.
  - auto.
  - exfalso. change (d = String c' (a' +:+ d')) in H. subst d.
    simpl in Ha', Hd. apply andb_true_iff in Ha' as [Hc _].
    apply andb_true_iff in Hd as [Hc' _].
    unfold ExistingSchema.not_digit in Hc. rewrite Hc' in Hc. discriminate.
  - exfalso. change (String c (a +:+ d) = d') in H. subst d'.
    simpl in Ha, Hd'. apply andb_true_iff in Ha as [Hc _].
    apply andb_true_iff in Hd' as [Hc' _].
    unfold ExistingSchema.not_digit in Hc. rewrite Hc' in Hc. discriminate.
  - rewrite !string_app_cons in H. inversion H; subst c'.
    simpl in Ha, Ha'. apply andb_true_iff in Ha as [_ Ha].
    apply andb_true_iff in Ha' as [_ Ha'].
    destruct (IH a' Ha Ha' Hd Hd' ltac:(assumption)) as [-> ->]. auto.
Qed.

Lemma first_names_no_digit (n : string) :
  In n ExistingSchema.FIRST_NAMES -> all_chars ExistingSchema.not_digit (lower n) = true.
Proof.
  intros H. unfold ExistingSchema.FIRST_NAMES in H. simpl in H.
  repeat (destruct H as [<-|H]; [reflexivity|]). destruct H.
Qed.

Lemma last_names_no_digit (n : string) :
  In n ExistingSchema.LAST_NAMES -> all_chars ExistingSchema.not_digit (lower n) = true.
Proof.
  intros H. unfold ExistingSchema.LAST_NAMES in H. simpl in H.
  repeat (destruct H as [<-|H]; [reflexivity|]). destruct H.
Qed.

Lemma plain_email_split (f l : string) (i : nat) :
  ExistingSchema.plain_email f l i
  = ((lower f +:+ "." +:+ lower l) +:+ str_nat i) +:+ "@example.com".
Proof. unfold ExistingSchema.plain_email. now rewrite !string_app_assoc. Qed.

(** The index can be read off a plain address. *)
Lemma plain_email_index (f l f' l' : string) (i j : nat) :
  In f ExistingSchema.FIRST_NAMES -> In l ExistingSchema.LAST_NAMES ->
  In f' ExistingSchema.FIRST_NAMES -> In l' ExistingSchema.LAST_NAMES ->
  ExistingSchema.plain_email f l i = ExistingSchema.plain_email f' l' j -> i = j.
Proof.
  intros Hf Hl Hf' Hl' H. rewrite !plain_email_split in H.
  apply string_app_inv_tail in H.
  apply app_digits_inj in H as [_ H].
  - now apply str_nat_inj.
  - rewrite !all_chars_app, first_names_no_digit, last_names_no_digit by assumption.
    reflexivity.
  - rewrite !all_chars_app, first_names_no_digit, last_names_no_digit by assumption.
    reflexivity.
  - apply str_nat_digits.
  - apply str_nat_digits.
Qed.

(** ** The retry loop *)

Lemma email_exists_returns w st (existing : gset string) (email : string) :
  returns (ExistingSchema.email_exists existing email) w st
    (bool_decide (email ∈ existing)) st.
Proof. exists O. reflexivity. Qed.

(** A free address is kept: the loop leaves at its first test. *)
Lemma email_loop_free w st (existing : gset string) f l (i : nat) (email : string) :
  email ∉ existing ->
  returns (while (ExistingSchema.email_exists existing)
                 (ExistingSchema.email_redraw f l i) email) w st email st.
Proof.
  intros Hfree. apply loop_returns_while. apply loop_returns_exit.
  pose proof (email_exists_returns w st existing email) as H.
  rewrite bool_decide_eq_false_2 in H by exact Hfree. exact H.
Qed.

(** While every address that can be tried is taken, the loop goes on. *)
Lemma email_loop_stuck (existing : gset string) f l (i : nat) w :
  (forall n : Z, 1 <= n <= 999 -> ExistingSchema.suffixed_email f l i n ∈ existing) ->
  forall (rounds fuel : nat) (st : State) (email : string),
    email ∈ existing ->
    while_fuel (ExistingSchema.email_exists existing) (ExistingSchema.email_redraw f l i)
      rounds email fuel w st = OutOfFuel.
Proof.
  intros Hall. induction rounds as [|rounds IH]; intros fuel st email Hin; [reflexivity|].
  cbn [while_fuel]. unfold ExistingSchema.email_exists at 1. unfold ret at 1.
  rewrite bool_decide_eq_true_2 by exact Hin.
  destruct (ensures_randint w st 1 999 ltac:(lia)) as (n & st1 & [f0 Hn] & _ & Hrange).
  unfold ExistingSchema.email_redraw at 1.
  assert (Hstep : forall fuel', randint 1 999 fuel' w st = Done (n, st1)).
  { intros fuel'. specialize (Hn (Nat.max f0 fuel') ltac:(lia)).
    unfold randint, randbelow, bind, draw, ret in *. simpl in *. exact Hn. }
  unfold bind at 1. rewrite Hstep. unfold ret at 1.
  apply IH. apply Hall. exact Hrange.
Qed.

(** ** One record *)

Lemma status_of_roll_in_statuses (u : Q) :
  In (ExistingSchema.status_of_roll u) ExistingSchema.STATUSES.
Proof.
  unfold ExistingSchema.status_of_roll, ExistingSchema.STATUSES.
  repeat destruct (Qlt_bool _ _); simpl; auto 10.
Qed.

(** The record of an index whose plain addresses are all free. *)
Lemma schema_generate_member_spec (isoformat : Z -> string) w st (index : nat)
    (existing : gset string) :
  (forall f l, In f ExistingSchema.FIRST_NAMES -> In l ExistingSchema.LAST_NAMES ->
     ExistingSchema.plain_email f l index ∉ existing) ->
  ensures w (ExistingSchema.generate_member isoformat index existing) st (fun r st' =>
    frame st st' /\
    ExistingSchema.member_fields isoformat w st (fst r) /\
    sm_email (fst r)
      = ExistingSchema.plain_email (sm_first_name (fst r)) (sm_last_name (fst r)) index /\
    snd r = {[ sm_email (fst r) ]} ∪ existing).
Proof.
  intros Hfree. unfold ExistingSchema.generate_member.
  eapply ensures_bind; [apply ensures_choice; discriminate|]. intros first_name s1 [Q1 Hfn].
  eapply ensures_bind; [apply ensures_choice; discriminate|]. intros last_name s2 [Q2 Hln].
  eapply ensures_bind.
  { exists (ExistingSchema.plain_email first_name last_name index), s2.
    split; [apply email_loop_free; now apply Hfree|].
    instantiate (1 := fun e s =>
      e = ExistingSchema.plain_email first_name last_name index /\ s = s2).
    cbv beta. auto. }
  intros email s3 [-> ->].
  eapply ensures_bind; [apply ensures_randint; lia|]. intros days_member s4 [Q4 Hdm].
  eapply ensures_bind; [apply ensures_now|]. intros today s5 (F5 & Ht5 & P5).
  eapply ensures_bind; [apply ensures_now|]. intros today' s6 (F6 & Ht6 & P6).
  eapply ensures_bind; [apply ensures_randint; lia|]. intros days_left s7 [Q7 Hdl].
  eapply ensures_bind; [apply ensures_random|]. intros u s8 (Q8 & Hu0 & Hu1).
  eapply ensures_bind; [apply ensures_uuid4|]. intros id_ s9 Q9.
  eapply ensures_bind; [apply ensures_choice; discriminate|]. intros member_type s10 [Q10 Hmt].
  eapply ensures_bind; [apply ensures_choice; discriminate|]. intros chapter_id s11 [Q11 Hci].
  eapply ensures_bind; [apply ensures_choice; discriminate|]. intros reminder s12 [Q12 _].
  eapply ensures_bind; [apply ensures_randint; lia|]. intros phone s13 [Q13 Hph].
  eapply ensures_bind; [apply ensures_choice; discriminate|]. intros company_type s14 [Q14 Hct].
  eapply ensures_bind; [apply ensures_choice; discriminate|]. intros job_title s15 [Q15 Hjt].
  eapply ensures_bind; [apply ensures_randint; lia|]. intros score s16 [Q16 Hsc].
  eapply ensures_bind; [apply ensures_randint; lia|]. intros house s17 [Q17 Hho].
  eapply ensures_bind; [apply ensures_randint; lia|]. intros zip s18 [Q18 Hzi].
  apply ensures_ret. cbn [fst snd sm_email sm_first_name sm_last_name].
  assert (Hp4 : clock_pos s4 = clock_pos s2 /\ (clock_pos st <= clock_pos s2)%nat).
  { clear -Q1 Q2 Q4. frames. split; [congruence|lia]. }
  split; [|split; [|split; reflexivity]].
  - clear -Q1 Q2 Q4 F5 F6 Q7 Q8 Q9 Q10 Q11 Q12 Q13 Q14 Q15 Q16 Q17 Q18.
    frames. unfold frame. repeat split; try congruence; lia.
  - unfold ExistingSchema.member_fields.
    cbn [sm_first_name sm_last_name sm_member_type sm_status sm_chapter_id sm_job_title
         sm_company sm_engagement_score sm_phone sm_address sm_joined_date sm_expiry_date].
    split; [exact Hfn|]. split; [exact Hln|]. split; [exact Hmt|].
    split; [apply status_of_roll_in_statuses|].
    split; [exists u; auto|]. split; [exact Hci|]. split; [exact Hjt|].
    split; [exists company_type; auto|]. split; [exact Hsc|].
    split; [exists phone; auto|].
    split; [exists house, zip; auto|].
    exists (clock_pos s4), days_member, days_left.
    destruct Hp4 as [Hp4 Hle]. split; [lia|]. split; [exact Hdm|]. split; [exact Hdl|].
    unfold timedelta_days. subst today today'. rewrite P5. auto.
Qed.

(** ** The loop over the indices *)

Lemma for_range_from_inv {A} w (body : nat -> A -> M A) (I : nat -> A -> State -> Prop) :
  (forall i acc st, I i acc st ->
     ensures w (body i acc) st (fun acc' st' => I (S i) acc' st')) ->
  forall (n start : nat) (acc : A) (st : State),
    I start acc st ->
    ensures w (for_range_from start n body acc) st
      (fun acc' st' => I (start + n)%nat acc' st').
Proof.
  intros Hbody. induction n as [|n IH]; intros start acc st HI.
  - simpl. apply ensures_ret. now rewrite Nat.add_0_r.
  - simpl. eapply ensures_bind; [apply Hbody; exact HI|].
    intros acc' st' HI'. replace (start + S n)%nat with (S start + n)%nat by lia.
    apply IH. exact HI'.
Qed.

Lemma member_fields_earlier isoformat w st0 st m :
  frame st0 st ->
  ExistingSchema.member_fields isoformat w st m ->
  ExistingSchema.member_fields isoformat w st0 m.
Proof.
  intros (_ & _ & Hle) H. unfold ExistingSchema.member_fields in *.
  destruct H as (H1 & H2 & H3 & H4 & H5 & H6 & H7 & H8 & H9 & H10 & H11 & H12).
  repeat (split; [assumption|]).
  destruct H12 as (p & dm & dl & Hp & Hrest). exists p, dm, dl. split; [lia|exact Hrest].
Qed.

Lemma schema_run_step isoformat w st0 (i : nat) acc st :
  schema_run_inv isoformat w st0 i acc st ->
  ensures w (r <- ExistingSchema.generate_member isoformat i (snd acc) ;;
             ret (fst acc ++ [fst r], snd r)) st
    (fun acc' st' => schema_run_inv isoformat w st0 (S i) acc' st').
Proof.
  intros (Hfr & Hlen & Hset & Hall).
  eapply ensures_bind.
  { apply schema_generate_member_spec. intros f l Hf Hl Hin.
    rewrite Hset in Hin. apply elem_of_list_to_set in Hin.
    apply list_elem_of_fmap in Hin as (m & Heq & Hm).
    apply list_elem_of_lookup in Hm as [j Hj].
    pose proof (lookup_lt_Some _ _ _ Hj) as Hlt.
    destruct (Hall j m Hj) as [Hfields Hemail].
    rewrite Hemail in Heq.
    destruct Hfields as (Hfn & Hln & _).
    apply plain_email_index in Heq; try assumption. lia. }
  intros [m ex] st' (Hfr' & Hfields & Hemail & Hex). cbn [fst snd] in *.
  apply ensures_ret. unfold schema_run_inv. cbn [fst snd].
  split; [eapply frame_trans; eassumption|].
  split; [rewrite length_app; simpl; lia|].
  split.
  - rewrite Hex, Hset, map_app, list_to_set_app_L. simpl. set_solver.
  - intros j m' Hj. apply lookup_app_Some in Hj as [Hj|[Hge Hj]].
    + now apply Hall.
    + rewrite Hlen in *. destruct (j - i)%nat as [|d] eqn:Ed; [|destruct d; discriminate].
      simpl in Hj. inversion Hj; subst m'. assert (j = i) as -> by lia.
      split; [|exact Hemail]. eapply member_fields_earlier; eassumption.
Qed.

Lemma generate_all_members_spec isoformat w st (count : nat) :
  ensures w (ExistingSchema.generate_all_members isoformat count) st
    (fun acc st' => schema_run_inv isoformat w st count acc st').
Proof.
  unfold ExistingSchema.generate_all_members, for_range.
  apply (for_range_from_inv w _ (schema_run_inv isoformat w st)
           (schema_run_step isoformat w st) count 0%nat).
  unfold schema_run_inv. cbn [fst snd]. split; [apply frame_refl|].
  split; [reflexivity|]. split; [reflexivity|]. intros j m Hj. discriminate.
Qed.

Lemma schema_run_inv_NoDup isoformat w st0 i acc st :
  schema_run_inv isoformat w st0 i acc st -> NoDup (map sm_email (fst acc)).
Proof.
  intros (_ & _ & _ & Hall). apply NoDup_alt. intros j k e Hj Hk.
  apply list_lookup_fmap_Some in Hj as (mj & -> & Hmj).
  apply list_lookup_fmap_Some in Hk as (mk & Heq & Hmk).
  destruct (Hall j mj Hmj) as [(Hf & Hl & _) Hej].
  destruct (Hall k mk Hmk) as [(Hf' & Hl' & _) Hek].
  rewrite Hej, Hek in Heq.
  exact (plain_email_index _ _ _ _ j k Hf Hl Hf' Hl' Heq).
Qed.

(** ** The batches by the sign of the batch size *)

Lemma sql_batches_zero (ms : list SchemaMember) : sql_batches ms 0 = Error ValueError.
Proof. reflexivity. Qed.

Lemma sql_batches_negative (ms : list SchemaMember) (bs : Z) :
  bs < 0 -> sql_batches ms bs = Ok [].
Proof.
  intros Hbs. unfold sql_batches, member_batches. now rewrite chunks_negative.
Qed.

Lemma sql_batches_positive (ms : list SchemaMember) (bs : Z) :
  0 < bs ->
  exists batches,
    sql_batches ms bs = Ok batches /\
    Z.of_nat (length batches) = (Z.of_nat (length ms) + bs - 1) / bs.
Proof.
  intros Hbs. destruct (chunks_ok ms bs ltac:(lia)) as [cs Hcs].
  unfold sql_batches, member_batches. rewrite Hcs. eexists. split; [reflexivity|].
  rewrite !length_map. apply (chunks_count ms bs cs Hbs Hcs).
Qed.

(** [random.choice] reads one cell of the tape. *)
Lemma choice_step {A} (x : A) (xs : list A) (fuel : nat) w st :
  choice (x :: xs) fuel w st
  = Done (nth (N.to_nat (rng w (rng_pos st) mod N.of_nat (length (x :: xs)))) (x :: xs) x,
          mkState (chapters st) (generated_emails st) (S (rng_pos st)) (clock_pos st)
                  (uuid_pos st)).
Proof. reflexivity. Qed.

(** With the plain address and every suffixed address of the drawn name
    taken, the call never gets past its loop. *)
Lemma schema_generate_member_stuck (isoformat : Z -> string) (index : nat)
    (existing : gset string) w st :
  let f := nth (N.to_nat (rng w (rng_pos st) mod 30)) ExistingSchema.FIRST_NAMES "James" in
  let l := nth (N.to_nat (rng w (S (rng_pos st)) mod 30)) ExistingSchema.LAST_NAMES "Smith" in
  ExistingSchema.plain_email f l index ∈ existing ->
  (forall n : Z, 1 <= n <= 999 -> ExistingSchema.suffixed_email f l index n ∈ existing) ->
  forall fuel : nat,
    ExistingSchema.generate_member isoformat index existing fuel w st = OutOfFuel.
Proof.
  intros f l Hplain Hall fuel. unfold ExistingSchema.generate_member.
  unfold bind at 1. unfold ExistingSchema.FIRST_NAMES at 1. rewrite choice_step.
  unfold bind at 1. unfold ExistingSchema.LAST_NAMES at 1. rewrite choice_step.
  cbn [rng_pos]. unfold bind at 1. unfold while.
  change (N.of_nat (length _)) with 30%N.
  change (N.of_nat (length _)) with 30%N.
  fold ExistingSchema.FIRST_NAMES ExistingSchema.LAST_NAMES. fold f l.
  rewrite (email_loop_stuck existing f l index w Hall); [reflexivity|exact Hplain].
Qed.

(** * Further properties: read_sql_file *)

(** ** The comment pattern *)

(** A greedy repetition before a part that always matches takes all the
    characters of its class. *)
Lemma rep_greedy_total {A} (cls : ascii -> bool) (f : string -> A) (s : string) :
  rep_match true cls 0 s (fun s' => Some (f s')) = Some (f (drop_while cls s)).
Proof.
  induction s as [|c s IH]; [reflexivity|].
  cbn [rep_match drop_while]. destruct (cls c); [|reflexivity].
  rewrite IH. reflexivity.
Qed.

Lemma re_comment_match (s : string) :
  re_match re_comment s
  = match lit_match "--" s with
    | Some t => Some (drop_while not_newline t, [])
    | None => None
    end.
Proof.
  unfold re_match, re_comment. rewrite rmatch_cat. cbn [rmatch].
  destruct (lit_match "--" s) as [t|]; [|reflexivity].
  apply (rep_greedy_total not_newline (fun s' => (s', @nil string))).
Qed.

Lemma drop_while_split (cls : ascii -> bool) (s : string) :
  exists q : string, s = q +:+ drop_while cls s /\ all_chars cls q = true.
Proof.
  induction s as [|c s (q & Hq & Hall)]; [exists ""; auto|].
  cbn [drop_while]. destruct (cls c) eqn:E.
  - exists (String c q). rewrite string_app_cons, <- Hq. split; [reflexivity|].
    simpl. now rewrite E, Hall.
  - exists "". auto.
Qed.

Lemma drop_while_length (cls : ascii -> bool) (s : string) :
  (String.length (drop_while cls s) <= String.length s)%nat.
Proof.
  destruct (drop_while_split cls s) as (q & Hq & _).
  rewrite Hq at 2. rewrite string_length_app. lia.
Qed.

Lemma lit_match_dashes (c : ascii) (s t : string) :
  lit_match "--" (String c s) = Some t -> c = "-"%char /\ s = String "-" t.
Proof.
  intros H. apply lit_match_eq in H. rewrite !string_app_cons in H.
  inversion H. auto.
Qed.

(** One round of the substitution. *)
Lemma sub_go_comment_nil (fuel : nat) : sub_go (S fuel) re_comment "" = "".
Proof. reflexivity. Qed.

Lemma sub_go_comment_hit (fuel : nat) (s t : string) :
  lit_match "--" s = Some t ->
  sub_go (S fuel) re_comment s = sub_go fuel re_comment (drop_while not_newline t).
Proof.
  intros E. cbn [sub_go]. rewrite re_comment_match, E.
  destruct (drop_while_split not_newline t) as (q & Hq & _).
  apply lit_match_eq in E.
  assert (Hs : s = ("--" +:+ q) +:+ drop_while not_newline t).
  { rewrite E. rewrite Hq at 1. now rewrite string_app_assoc. }
  rewrite Hs at 1. rewrite consumed_app. reflexivity.
Qed.

Lemma sub_go_comment_miss (fuel : nat) (c : ascii) (s : string) :
  lit_match "--" (String c s) = None ->
  sub_go (S fuel) re_comment (String c s) = String c (sub_go fuel re_comment s).
Proof. intros E. cbn [sub_go]. rewrite re_comment_match, E. reflexivity. Qed.

(** ** The substitution is the scan *)

Lemma cut_comments_newline (s : string) :
  cut_comments false (nl +:+ s) = nl +:+ cut_comments false s.
Proof. reflexivity. Qed.

Lemma not_newline_false (c : ascii) : not_newline c = false -> c = ascii_of_nat 10.
Proof.
  unfold not_newline. intros H. apply negb_false_iff in H. now apply Ascii.eqb_eq in H.
Qed.

Lemma cut_comments_skip (t : string) :
  cut_comments true t = cut_comments false (drop_while not_newline t).
Proof.
  induction t as [|c t IH]; [reflexivity|].
  cbn [cut_comments drop_while]. destruct (not_newline c) eqn:E; [exact IH|].
  apply not_newline_false in E. subst c. reflexivity.
Qed.

Lemma sub_go_cut (fuel : nat) :
  forall s : string, (String.length s < fuel)%nat ->
    sub_go fuel re_comment s = cut_comments false s.
Proof.
  induction fuel as [|fuel IH]; intros s Hlen; [lia|].
  destruct s as [|c s]; [reflexivity|].
  destruct (lit_match "--" (String c s)) as [t|] eqn:E.
  - rewrite (sub_go_comment_hit fuel _ t E).
    destruct (lit_match_dashes c s t E) as [-> ->].
    rewrite IH.
    + change (cut_comments false (String "-" (String "-" t))) with (cut_comments true t).
      symmetry. apply cut_comments_skip.
    + pose proof (drop_while_length not_newline t). simpl in Hlen. lia.
  - rewrite (sub_go_comment_miss fuel c s E). cbn [cut_comments]. rewrite E.
    f_equal. apply IH. simpl in Hlen. lia.
Qed.

Lemma re_sub_comment_cut (s : string) :
  re_sub_empty re_comment s = cut_comments false s.
Proof. unfold re_sub_empty. apply sub_go_cut. lia. Qed.

(** ** What the scan does *)

Lemma has_sub_cons (pat : string) (c : ascii) (s : string) :
  has_sub pat (String c s)
  = match lit_match pat (String c s) with
    | Some _ => true
    | None => has_sub pat s
    end.
Proof. reflexivity. Qed.

Lemma cut_comments_clean (s : string) :
  has_sub "--" s = false -> cut_comments false s = s.
Proof.
  induction s as [|c s IH]; [reflexivity|].
  rewrite has_sub_cons. cbn [cut_comments].
  destruct (lit_match "--" (String c s)); [discriminate|].
  intros H. now rewrite IH.
Qed.

Lemma cut_comments_no_dashes (s : string) :
  has_sub "--" (cut_comments false s) = false /\
  has_sub "--" (cut_comments true s) = false /\
  (forall r : string, cut_comments true s <> String "-" r) /\
  (forall r : string, cut_comments false s = String "-" r -> exists s1, s = String "-" s1).
Proof.
  induction s as [|c s (IHa & IHb & IHc & IHd)].
  - repeat split; try reflexivity; intros r H; discriminate.
  - assert (Hb : has_sub "--" (cut_comments true (String c s)) = false).
    { cbn [cut_comments]. destruct (not_newline c) eqn:E; [exact IHb|].
      apply not_newline_false in E. subst c. rewrite has_sub_cons. exact IHa. }
    assert (Hc : forall r : string, cut_comments true (String c s) <> String "-" r).
    { intros r. cbn [cut_comments]. destruct (not_newline c) eqn:E; [apply IHc|].
      apply not_newline_false in E. subst c. discriminate. }
    split; [|split; [exact Hb|split; [exact Hc|]]].
    + cbn [cut_comments]. destruct (lit_match "--" (String c s)) as [t|] eqn:E; [exact IHb|].
      rewrite has_sub_cons.
      destruct (lit_match "--" (String c (cut_comments false s))) as [u|] eqn:Eu;
        [exfalso|exact IHa].
      destruct (lit_match_dashes _ _ _ Eu) as [-> Hx].
      destruct (IHd _ Hx) as [s1 ->]. cbn in E. discriminate.
    + intros r. cbn [cut_comments].
      destruct (lit_match "--" (String c s)) as [t|] eqn:E.
      * intros H. exfalso. exact (IHc r H).
      * intros H. inversion H. subst c. eauto.
Qed.

Lemma cut_comments_count_newlines (s : string) :
  forall skip : bool,
    count_char (ascii_of_nat 10) (cut_comments skip s) = count_char (ascii_of_nat 10) s.
Proof.
  induction s as [|c s IH]; intros skip; [destruct skip; reflexivity|].
  destruct skip; cbn [cut_comments].
  - destruct (not_newline c) eqn:E.
    + rewrite IH. cbn [count_char]. unfold not_newline in E.
      apply negb_true_iff in E. now rewrite E.
    + cbn [count_char]. now rewrite IH.
  - destruct (lit_match "--" (String c s)) as [t|] eqn:E.
    + destruct (lit_match_dashes _ _ _ E) as [-> _]. rewrite IH. reflexivity.
    + cbn [count_char]. now rewrite IH.
Qed.

(** A comment that ends its line. *)
Lemma cut_comments_tail (c rest : string) :
  all_chars not_newline c = true ->
  rest = "" \/ (exists r, rest = nl +:+ r) ->
  cut_comments true (c +:+ rest) = cut_comments false rest.
Proof.
  intros Hc Hrest. induction c as [|a c IH].
  - destruct Hrest as [->|[r ->]]; reflexivity.
  - rewrite string_app_cons. cbn [cut_comments]. simpl in Hc.
    apply andb_true_iff in Hc as [Ha Hc]. rewrite Ha. now apply IH.
Qed.

Lemma cut_comments_line (p c rest : string) :
  has_sub "--" (p +:+ "-") = false ->
  all_chars not_newline c = true ->
  rest = "" \/ (exists r, rest = nl +:+ r) ->
  cut_comments false (p +:+ "--" +:+ c +:+ rest) = p +:+ cut_comments false rest.
Proof.
  intros Hp Hc Hrest. induction p as [|a p IH].
  - change (cut_comments false ("" +:+ "--" +:+ c +:+ rest))
      with (cut_comments true (c +:+ rest)).
    now apply cut_comments_tail.
  - rewrite string_app_cons in Hp. rewrite has_sub_cons in Hp.
    destruct (lit_match "--" (String a (p +:+ "-"))) as [u|] eqn:E; [discriminate|].
    change (String a p +:+ "--" +:+ c +:+ rest)
      with (String a (p +:+ "--" +:+ c +:+ rest)).
    change (String a p +:+ cut_comments false rest)
      with (String a (p +:+ cut_comments false rest)).
    assert (E' : lit_match "--" (String a (p +:+ "--" +:+ c +:+ rest)) = None).
    { clear IH. cbn [lit_match] in *. destruct (Ascii.eqb "-" a); [|reflexivity].
      destruct p as [|b p].
      - exfalso. vm_compute in E. discriminate E.
      - change (String b p +:+ "-") with (String b (p +:+ "-")) in E.
        change (String b p +:+ "--" +:+ c +:+ rest)
          with (String b (p +:+ "--" +:+ c +:+ rest)).
        cbn [lit_match] in E |- *.
        destruct (Ascii.eqb "-" b); [discriminate E|reflexivity]. }
    cbn [cut_comments]. rewrite E'. f_equal. now apply IH.
Qed.

(** ** strip *)

Lemma lstrip_first (s : string) :
  from_option is_space false (first_char (lstrip s)) = false.
Proof.
  induction s as [|c s IH]; [reflexivity|].
  cbn [lstrip]. destruct (is_space c) eqn:E; [exact IH|]. simpl. exact E.
Qed.

Lemma rstrip_first (s : string) :
  from_option is_space false (first_char s) = false ->
  from_option is_space false (first_char (rstrip s)) = false.
Proof.
  destruct s as [|c s]; [reflexivity|]. cbn [first_char from_option rstrip].
  intros E. rewrite E. destruct (rstrip s); simpl; exact E.
Qed.

Lemma rstrip_last (s : string) :
  from_option is_space false (last_char (rstrip s)) = false.
Proof.
  induction s as [|c s IH]; [reflexivity|].
  cbn [rstrip]. destruct (rstrip s) as [|b t] eqn:E.
  - destruct (is_space c) eqn:Ec; [reflexivity|]. simpl. exact Ec.
  - exact IH.
Qed.

(** ** What the cleaning cannot add *)

Lemma occurs_suffix_false (c : ascii) (s' s : string) :
  is_suffix s' s -> occurs c s = false -> occurs c s' = false.
Proof.
  intros Hs Hno. destruct (occurs c s') eqn:E; [|reflexivity].
  rewrite (occurs_suffix c s' s Hs E) in Hno. discriminate.
Qed.

Lemma occurs_remove_go (c : ascii) (old : string) (fuel : nat) :
  forall s : string, occurs c s = false -> occurs c (remove_go fuel old s) = false.
Proof.
  induction fuel as [|fuel IH]; intros s Hno; [exact Hno|].
  cbn [remove_go]. destruct (lit_match old s) as [rest|] eqn:E.
  - apply IH. apply (occurs_suffix_false c rest s); [|exact Hno].
    exists old. now apply lit_match_eq.
  - destruct s as [|a s]; [reflexivity|]. simpl in Hno |- *.
    apply orb_false_iff in Hno as [Ha Hs]. rewrite Ha. simpl. now apply IH.
Qed.

Lemma occurs_lstrip (c : ascii) (s : string) :
  occurs c s = false -> occurs c (lstrip s) = false.
Proof.
  induction s as [|a s IH]; [reflexivity|]. intros Hno. cbn [lstrip].
  destruct (is_space a); [|exact Hno].
  simpl in Hno. apply orb_false_iff in Hno as [_ Hs]. now apply IH.
Qed.

Lemma occurs_rstrip (c : ascii) (s : string) :
  occurs c s = false -> occurs c (rstrip s) = false.
Proof.
  induction s as [|a s IH]; [reflexivity|]. intros Hno. cbn [rstrip].
  simpl in Hno. apply orb_false_iff in Hno as [Ha Hs]. specialize (IH Hs).
  destruct (rstrip s) as [|b t].
  - destruct (is_space a); [reflexivity|]. simpl. now rewrite Ha.
  - cbn [occurs]. rewrite Ha. simpl. exact IH.
Qed.

Lemma string_app_nil_r (s : string) : s +:+ "" = s.
Proof.
  induction s as [|c s IH]; [reflexivity|]. rewrite string_app_cons. now rewrite IH.
Qed.

Lemma occurs_read_sql_file (c : ascii) (content : string) :
  occurs c (re_sub_empty re_comment content) = false ->
  occurs c (read_sql_file content) = false.
Proof.
  intros Hno. unfold read_sql_file, strip, str_remove.
  apply occurs_rstrip, occurs_lstrip, occurs_remove_go, occurs_remove_go. exact Hno.
Qed.

Lemma split_into_batches_no_semicolon (s : string) (bs : Z) :
  occurs ";" s = false -> split_into_batches s bs = Ok [].
Proof.
  intros Hno. unfold split_into_batches, findall_group, finditer.
  now rewrite finditer_go_no_semicolon.
Qed.

(** * Further properties: the first pattern of the splitter *)

(** A lazy repetition stops at the first place where the rest matches. *)
Lemma rep_lazy_first {A} (cls : ascii -> bool) (k : string -> option A) :
  forall (s : string) (x : A),
    rep_match false cls 0 s k = Some x ->
    exists body rest : string,
      s = body +:+ rest /\ k rest = Some x /\
      forall b1 b2 : string, body = b1 +:+ b2 -> b2 <> "" -> k (b2 +:+ rest) = None.
Proof.
  induction s as [|c s IH]; intros x H.
  - exists "", "". split; [reflexivity|]. split; [exact H|].
    intros [|? ?] [|? ?] Hb Hne; try discriminate. contradiction.
  - assert (Hstop : k (String c s) = Some x ->
              exists body rest : string,
                String c s = body +:+ rest /\ k rest = Some x /\
                forall b1 b2 : string,
                  body = b1 +:+ b2 -> b2 <> "" -> k (b2 +:+ rest) = None).
    { intros Hk. exists "", (String c s). split; [reflexivity|]. split; [exact Hk|].
      intros [|? ?] [|? ?] Hb Hne; try discriminate. contradiction. }
    cbn [rep_match] in H. destruct (cls c); [|now apply Hstop].
    destruct (k (String c s)) as [y|] eqn:E; [apply Hstop; exact H|].
    destruct (IH x H) as (body & rest & -> & Hk & Hmin).
    exists (String c body), rest. split; [reflexivity|]. split; [exact Hk|].
    intros b1 b2 Hb Hne. destruct b1 as [|d b1].
    + change ("" +:+ b2) with b2 in Hb. subst b2. exact E.
    + rewrite string_app_cons in Hb. inversion Hb. eapply Hmin; eassumption.
Qed.

Lemma occurs_split (c : ascii) (s : string) :
  occurs c s = true -> exists s1 s2 : string, s = s1 +:+ String c s2.
Proof.
  induction s as [|a s IH]; [discriminate|]. simpl. intros H.
  destruct (Ascii.eqb a c) eqn:E.
  - apply Ascii.eqb_eq in E. subst a. exists "", s. reflexivity.
  - destruct (IH H) as (s1 & s2 & ->). exists (String a s1), s2. reflexivity.
Qed.

Lemma rmatch_lit {A} (l s : string) caps (k : string -> list string -> option A) :
  rmatch (Lit l) s caps k
  = match lit_match l s with
    | Some s' => k s' caps
    | None => None
    end.
Proof. reflexivity. Qed.

Lemma rmatch_rep {A} greedy least cls s caps (k : string -> list string -> option A) :
  rmatch (Rep greedy least cls) s caps k
  = rep_match greedy cls least s (fun s' => k s' caps).
Proof. reflexivity. Qed.

Lemma rmatch_group {A} (r : regex) s caps (k : string -> list string -> option A) :
  rmatch (Group r) s caps k
  = rmatch r s caps (fun s' caps' => k s' (caps' ++ [consumed s s'])).
Proof. reflexivity. Qed.

(** What the first pattern matches at the start of a text. *)
Lemma re_insert_match_shape (s rest : string) (caps : list string) :
  re_match re_insert s = Some (rest, caps) ->
  exists w a b : string,
    s = ("INSERT INTO " +:+ w +:+ a +:+ "VALUES" +:+ b) +:+ ";" +:+ rest /\
    caps = ["INSERT INTO " +:+ w +:+ a +:+ "VALUES" +:+ b] /\
    w <> "" /\ all_chars is_word w = true /\ occurs ";" b = false.
Proof.
  unfold re_match, re_insert. rewrite rmatch_cat, rmatch_group, rmatch_cat, rmatch_lit.
  intros H.
  destruct (lit_match "INSERT INTO " s) as [s1|] eqn:E1; [|discriminate].
  apply lit_match_eq in E1.
  rewrite rmatch_cat, rmatch_rep in H.
  apply rep_match_shape in H as (w & s2 & Hs1 & Hw & Hlen & H).
  rewrite rmatch_cat, rmatch_rep in H.
  apply rep_match_shape in H as (a & s3 & Hs2 & _ & _ & H).
  rewrite rmatch_cat, rmatch_lit in H.
  destruct (lit_match "VALUES" s3) as [s4|] eqn:E4; [|discriminate].
  apply lit_match_eq in E4.
  rewrite rmatch_rep in H.
  apply rep_lazy_first in H as (b & s5 & Hs4 & H & Hmin).
  rewrite rmatch_lit in H.
  destruct (lit_match ";" s5) as [s6|] eqn:E5; [|discriminate].
  apply lit_match_eq in E5. inversion H; subst s6 caps. clear H.
  assert (Hs : s = ("INSERT INTO " +:+ w +:+ a +:+ "VALUES" +:+ b) +:+ s5).
  { rewrite E1, Hs1, Hs2, E4, Hs4. now rewrite !string_app_assoc. }
  exists w, a, b. split; [rewrite Hs, E5; reflexivity|].
  split; [|split; [|split; [exact Hw|]]].
  - rewrite Hs at 1. rewrite consumed_app. reflexivity.
  - intros ->. simpl in Hlen. lia.
  - destruct (occurs ";" b) eqn:Eb; [exfalso|reflexivity].
    apply occurs_split in Eb as (b1 & b2 & Hb).
    specialize (Hmin b1 (String ";" b2) Hb ltac:(discriminate)).
    rewrite rmatch_lit in Hmin. rewrite string_app_cons in Hmin.
    cbn [lit_match] in Hmin. rewrite Ascii.eqb_refl in Hmin. discriminate Hmin.
Qed.

(** Every match that the search reports is a match at some place of the
    text. *)
Lemma finditer_go_in (r : regex) (fuel : nat) :
  forall (s whole : string) (caps : list string),
    In (whole, caps) (finditer_go fuel r s) ->
    exists t rest : string,
      is_suffix t s /\ re_match r t = Some (rest, caps) /\ whole = consumed t rest.
Proof.
  induction fuel as [|fuel IH]; intros s whole caps Hin; [destruct Hin|].
  cbn [finditer_go] in Hin.
  assert (Hnext : forall (c : ascii) (s' t : string),
            s = String c s' -> is_suffix t s ->
            In (whole, caps) (finditer_go fuel r t) ->
            exists t' rest : string,
              is_suffix t' s /\ re_match r t' = Some (rest, caps) /\
              whole = consumed t' rest).
  { intros c s' t Hs Ht Hi. destruct (IH t whole caps Hi) as (t' & rest & Ht' & Hm & Hw).
    exists t', rest. split; [eapply is_suffix_trans; eassumption|auto]. }
  destruct (re_match r s) as [[rest caps']|] eqn:E.
  - destruct Hin as [Heq|Hin].
    + inversion Heq; subst whole caps'. exists s, rest.
      split; [apply is_suffix_refl|auto].
    + destruct s as [|c s']; [destruct Hin|].
      destruct (String.eqb (consumed (String c s') rest) "").
      * apply (Hnext c s' s' eq_refl); [apply is_suffix_cons, is_suffix_refl|exact Hin].
      * apply (Hnext c s' rest eq_refl); [|exact Hin].
        unfold re_match in E. apply rmatch_suffix in E as (s1 & caps1 & Hs1 & E).
        inversion E; subst s1. exact Hs1.
  - destruct s as [|c s']; [destruct Hin|].
    apply (Hnext c s' s' eq_refl); [apply is_suffix_cons, is_suffix_refl|exact Hin].
Qed.

Lemma findall_group_re_insert_shape (s insert : string) :
  In insert (findall_group re_insert s) ->
  statement_shape insert /\
  exists pre post : string, s = pre +:+ insert +:+ ";" +:+ post.
Proof.
  unfold findall_group, finditer. intros Hin.
  apply in_map_iff in Hin as ([whole caps] & Hnth & Hin). cbn [snd] in Hnth.
  apply finditer_go_in in Hin as (t & rest & [pre Ht] & Hm & _).
  apply re_insert_match_shape in Hm as (w & a & b & Hs & -> & Hw & Hall & Hb).
  cbn [nth] in Hnth. subst insert. split.
  - exists w, a, b. auto.
  - exists pre, rest. rewrite Ht, Hs. now rewrite !string_app_assoc.
Qed.

(** * Properties of the record generator *)

Lemma clock_bounded_const (r : nat -> N) (t : Z) (u : nat -> string) :
  clock_bounded (mkWorld r (fun _ => t) u).
Proof. exists t. intros i. simpl. lia. Qed.

Lemma clock_monotone_const (r : nat -> N) (t : Z) (u : nat -> string) :
  clock_monotone (mkWorld r (fun _ => t) u).
Proof. intros i j _. simpl. lia. Qed.

(** C1. A run of [generate_members N] on a generator with a non-empty
    chapter pool, under a bounded clock, ends with exactly [N] records;
    their emails are pairwise distinct and new; the email of the record of
    index [i] is built from the names of that very record and the domain of
    index [i], with the least counter whose candidate was not issued before
    (the plain address when it is free). *)
Theorem generate_members_count_and_unique_emails (N : nat) (w : World) (st : State) :
  chapters st <> [] -> clock_bounded w ->
  exists ms st',
    returns (generate_members N) w st ms st' /\
    length ms = N /\
    NoDup (map m_email ms) /\
    (forall m, In m ms -> m_email m ∉ generated_emails st) /\
    generated_emails st' = list_to_set (map m_email ms) ∪ generated_emails st /\
    forall (i : nat) (m : Member), ms !! i = Some m ->
      In (m_first_name m) FIRST_NAMES /\ In (m_last_name m) LAST_NAMES /\
      exists k : nat,
        m_email m
          = candidate (email_base (m_first_name m) (m_last_name m)) (email_domain i) k /\
        forall j : nat, (j < k)%nat ->
          candidate (email_base (m_first_name m) (m_last_name m)) (email_domain i) j
            ∈ list_to_set (map m_email (take i ms)) ∪ generated_emails st.
Proof.
  intros Hch Hb.
  destruct (generate_members_run w N st Hch Hb) as (ms & st' & Hr & Hlen & Hrun).
  destruct (generated_run_emails _ _ _ _ _ Hrun) as (He & Hnew & Hnd).
  exists ms, st'. repeat (split; [assumption|]).
  intros i m Hi.
  destruct (generated_run_lookup _ _ _ _ _ Hrun i m Hi) as (sa & sb & Hgen & Hsa).
  destruct Hgen as (_ & (k & Hk & Hless) & _ & _ & Hfn & Hln & _).
  split; [exact Hfn|]. split; [exact Hln|].
  exists k. split; [exact Hk|].
  intros j Hj. rewrite <- Hsa. simpl in Hless. now apply Hless.
Qed.

Lemma generate_members_count_and_unique_emails_witness :
  chapters (new_generator [california; texas]) <> [] /\
  clock_bounded morning_world /\
  exists ms st',
    returns (generate_members 7) morning_world (new_generator [california; texas]) ms st' /\
    length ms = 7%nat /\ NoDup (map m_email ms).
Proof.
  split; [discriminate|]. split; [apply clock_bounded_const|].
  destruct (generate_members_count_and_unique_emails 7 morning_world
              (new_generator [california; texas]))
    as (ms & st' & Hr & Hlen & Hnd & _).
  - discriminate.
  - apply clock_bounded_const.
  - exists ms, st'. auto.
Defined.

(** C10. [generate_email] always ends and has no error path: the
    candidates of a name and domain are pairwise distinct, the loop walks
    them in the order of the counter, and stops at the first one outside
    the issued set, after at most [size issued + 1] tests; that email is
    not in the prior set, and the issued set afterwards is the prior set
    plus that email. *)
Theorem generate_email_terminates_with_fresh_email
    (w : World) (st : State) (first_name last_name : string) (domain_num : nat) :
  let base := email_base first_name last_name in
  let domain := email_domain domain_num in
  (forall i j : nat, candidate base domain i = candidate base domain j -> i = j) /\
  (forall fuel e, generate_email first_name last_name domain_num fuel w st <> Raised e) /\
  exists (k : nat) (email : string) (st' : State),
    (k <= size (generated_emails st))%nat /\
    email = candidate base domain k /\
    (forall j : nat, (j < k)%nat -> candidate base domain j ∈ generated_emails st) /\
    loop_returns email_taken (email_retry base domain) w st
      (candidate base domain 0, 1%nat) (email, S k) st /\
    returns (generate_email first_name last_name domain_num) w st email st' /\
    (email ∉ generated_emails st) /\
    generated_emails st' = {[ email ]} ∪ generated_emails st /\
    chapters st' = chapters st.
Proof.
  intros base domain.
  split; [intros i j; apply candidate_inj|].
  split; [intros fuel e; apply generate_email_no_raise|].
  destruct (generate_email_spec w st first_name last_name domain_num)
    as (k & Hk & Hfree & Hl & Hr).
  exists k, (candidate base domain k). eexists.
  split; [exact Hk|]. split; [reflexivity|]. split; [exact Hl|].
  split; [|split; [exact Hr|split; [exact Hfree|split; reflexivity]]].
  apply (email_loop_returns w st base domain k 0).
  - intros j Hj. apply Hl. lia.
  - exact Hfree.
Qed.

(** C6, as stated, fails: no bound on the attempts makes the call end in
    an error. *)
Lemma generate_email_not_bounded_fail : ~ capacity_bounded_fail.
Proof.
  intros [bound H].
  set (issued := list_to_set (C := gset string)
                   (map (candidate (email_base "A" "B") (email_domain 0)) (seq 0 bound))).
  destruct (H midnight_world (mkState [] issued 0 0 0) "A" "B" 0%nat) as (fuel & e & Hrun).
  - intros j Hj. simpl. unfold issued. apply elem_of_list_to_set.
    apply list_elem_of_fmap. exists j. split; [reflexivity|].
    apply elem_of_seq. lia.
  - exact (generate_email_no_raise _ _ _ _ _ _ _ Hrun).
Qed.

(** C6, amended. However many candidates are issued already, the call
    raises nothing and ends with a later candidate that is free: the
    retries are not bounded and there is no capacity error. *)
Theorem generate_email_retries_without_bound
    (w : World) (st : State) (first_name last_name : string) (domain_num attempts : nat) :
  (forall j : nat, (j < attempts)%nat ->
     candidate (email_base first_name last_name) (email_domain domain_num) j
       ∈ generated_emails st) ->
  (forall fuel e, generate_email first_name last_name domain_num fuel w st <> Raised e) /\
  exists (k : nat) (st' : State),
    (attempts <= k)%nat /\
    returns (generate_email first_name last_name domain_num) w st
      (candidate (email_base first_name last_name) (email_domain domain_num) k) st' /\
    candidate (email_base first_name last_name) (email_domain domain_num) k
      ∉ generated_emails st.
Proof.
  intros Htaken.
  split; [intros fuel e; apply generate_email_no_raise|].
  destruct (generate_email_spec w st first_name last_name domain_num)
    as (k & _ & Hfree & _ & Hr).
  exists k. eexists. split; [|split; [exact Hr|exact Hfree]].
  destruct (le_lt_dec attempts k) as [Hle|Hlt]; [exact Hle|].
  exfalso. apply Hfree. now apply Htaken.
Qed.

Lemma generate_email_retries_without_bound_witness :
  (forall j : nat, (j < 2)%nat ->
     candidate (email_base "A" "B") (email_domain 0) j ∈ generated_emails two_issued) /\
  exists (k : nat) (st' : State),
    (2 <= k)%nat /\
    returns (generate_email "A" "B" 0) morning_world two_issued
      (candidate (email_base "A" "B") (email_domain 0) k) st'.
Proof.
  assert (Htaken : forall j : nat, (j < 2)%nat ->
     candidate (email_base "A" "B") (email_domain 0) j ∈ generated_emails two_issued).
  { intros j Hj. destruct j as [|[|j]]; [| |lia];
      apply (bool_decide_unpack _); vm_compute; exact I. }
  split; [exact Htaken|].
  destruct (generate_email_retries_without_bound morning_world two_issued "A" "B" 0 2 Htaken)
    as (_ & k & st' & Hk & Hr & _).
  exists k, st'. auto.
Defined.

(** ** Dates of a generated record *)

Lemma member_generated_dates w i sa sb m :
  clock_monotone w -> member_generated w i sa sb m ->
  exists p : nat,
    renewal_is_next_due m (clock w p) /\
    strptime_date (m_renewal_date m) <= clock w p + timedelta_days 365 /\
    (strptime_date (m_member_since m) < clock w p -> less_than_one_period_past m (clock w p)).
Proof.
  intros Hmono (_ & _ & _ & _ & _ & _ & _ & Hd & _).
  destruct Hd as (p_since & n & ya & ma & Hya & Hma & Hsince & Hren & Hexit & Hbefore & _).
  exists (p_since + 1 + n)%nat.
  assert (Hper : timedelta_days 365 = 365 * DAY) by reflexivity.
  pose proof DAY_pos as HD.
  assert (Hs : strptime_date (m_member_since m) <= clock w (p_since + 1 + n)).
  { apply Z.le_trans with (clock w p_since); [|apply Hmono; lia].
    apply Z.le_trans with (strptime_date (strftime_date (clock w p_since)));
      [|apply strptime_strftime_le].
    apply (proj1 (strptime_le _ _)). lia. }
  assert (Hprev : strptime_date (m_renewal_date m) - timedelta_days 365
                  = strptime_date (m_member_since m + 365 * Z.of_nat n)).
  { rewrite Hren. unfold strptime_date, timedelta_days. ring. }
  assert (Hlate : (0 < n)%nat ->
            strptime_date (m_member_since m + 365 * Z.of_nat n) < clock w (p_since + 1 + n)).
  { intros Hn. destruct n as [|n']; [lia|].
    specialize (Hbefore n' ltac:(lia)).
    replace (Z.of_nat n' + 1) with (Z.of_nat (S n')) in Hbefore by lia.
    eapply Z.lt_le_trans; [exact Hbefore|]. apply Hmono. lia. }
  split; [|split].
  - unfold renewal_is_next_due. split; [lia|]. split; [exists (Z.of_nat n + 1); lia|].
    split; [lia|].
    intros j Hj Hnow. rewrite Hren.
    destruct (Z_lt_le_dec j (Z.of_nat n + 1)) as [Hlt|Hge]; [exfalso|lia].
    specialize (Hbefore (Z.to_nat (j - 1)) ltac:(lia)).
    replace (Z.of_nat (Z.to_nat (j - 1)) + 1) with j in Hbefore by lia.
    replace (365 * j) with (j * 365) in Hbefore by ring.
    assert (clock w (p_since + 1 + Z.to_nat (j - 1)) <= clock w (p_since + 1 + n))
      by (apply Hmono; lia).
    lia.
  - destruct n as [|n'].
    + rewrite Z.mul_0_r, Z.add_0_r in Hprev. lia.
    + specialize (Hlate ltac:(lia)). lia.
  - intros Hstrict. unfold less_than_one_period_past. destruct n as [|n'].
    + rewrite Z.mul_0_r, Z.add_0_r in Hprev. lia.
    + specialize (Hlate ltac:(lia)). lia.
Qed.

(** C3, as stated, fails: the record made at midnight sharp with both
    offsets drawn as 0 has its renewal exactly one full period past every
    reading of the clock, not less. *)
Lemma renewal_exactly_one_period_past_now :
  exists ms st',
    generate_members 1 3%nat midnight_world (new_generator [california]) = Done (ms, st') /\
    Exists (fun m => forall p : nat,
              ~ less_than_one_period_past m (clock midnight_world p)) ms.
Proof.
  eexists _, _. split; [vm_compute; reflexivity|].
  apply Exists_cons_hd. intros p. unfold less_than_one_period_past.
  vm_compute. discriminate.
Qed.

(** C3, amended. Under a monotone clock, for every generated record:
    since <= renewal; renewal - since is a positive multiple of 365 days;
    renewal is the smallest since + k * 365 days (k >= 1) that is not
    earlier than the reading "now" of the last test of the renewal loop;
    renewal is at most one full period past that "now", and less than one
    full period past it when the midnight of since is before "now". *)
Theorem renewal_date_is_next_due_date (N : nat) (w : World) (st : State) :
  chapters st <> [] -> clock_bounded w -> clock_monotone w ->
  exists ms st',
    returns (generate_members N) w st ms st' /\
    length ms = N /\
    Forall (fun m => exists p : nat,
              renewal_is_next_due m (clock w p) /\
              strptime_date (m_renewal_date m) <= clock w p + timedelta_days 365 /\
              (strptime_date (m_member_since m) < clock w p ->
               less_than_one_period_past m (clock w p))) ms.
Proof.
  intros Hch Hb Hmono.
  destruct (generate_members_run w N st Hch Hb) as (ms & st' & Hr & Hlen & Hrun).
  exists ms, st'. split; [exact Hr|]. split; [exact Hlen|].
  eapply generated_run_Forall; [|exact Hrun].
  intros i sa sb m Hgen. exact (member_generated_dates w i sa sb m Hmono Hgen).
Qed.

Lemma renewal_date_is_next_due_date_witness :
  chapters (new_generator [texas]) <> [] /\
  clock_bounded morning_world /\ clock_monotone morning_world /\
  exists ms st',
    returns (generate_members 4) morning_world (new_generator [texas]) ms st' /\
    length ms = 4%nat /\
    Forall (fun m => exists p : nat, renewal_is_next_due m (clock morning_world p)) ms.
Proof.
  split; [discriminate|]. split; [apply clock_bounded_const|].
  split; [apply clock_monotone_const|].
  destruct (renewal_date_is_next_due_date 4 morning_world (new_generator [texas]))
    as (ms & st' & Hr & Hlen & Hall).
  - discriminate.
  - apply clock_bounded_const.
  - apply clock_monotone_const.
  - exists ms, st'. split; [exact Hr|]. split; [exact Hlen|].
    eapply Forall_impl; [exact Hall|].
    intros m (p & Hp & _). exists p. exact Hp.
Defined.

(** ** Status and credits of a generated record *)







(** * Properties of the batch splitter *)



(** C5, as stated, fails: the two batches are not the two texts of the
    specification. *)
Lemma three_rows_not_as_specified :
  split_into_batches three_rows 2
  <> Ok [three_rows_first_as_specified; three_rows_second_as_specified].
Proof. vm_compute. discriminate. Qed.

(** C5, amended. On the three rows with batch size 2 the result is two
    batches: the header, a newline, the first two tuples joined by a comma
    and a newline, a semicolon; then the header, a newline, the third tuple,
    a semicolon. *)
Theorem three_rows_in_two_batches :
  split_into_batches three_rows 2 = Ok [three_rows_first; three_rows_second] /\
  findall_group re_insert three_rows
    = ["INSERT INTO t (a,b) VALUES (1,'x'),(2,'y'),(3,'z')"] /\
  re_match re_header "INSERT INTO t (a,b) VALUES (1,'x'),(2,'y'),(3,'z')"
    = Some ("", ["INSERT INTO t (a,b) VALUES"; "(1,'x'),(2,'y'),(3,'z')"]) /\
  findall_whole re_tuple "(1,'x'),(2,'y'),(3,'z')" = ["(1,'x')"; "(2,'y')"; "(3,'z')"].
Proof. repeat split; vm_compute; reflexivity. Qed.

(** C2: the code at the failing input. A tuple whose quoted phone number
    holds a closing parenthesis is cut there: the third pattern ends the
    tuple at the first closing parenthesis, and the batch carries the cut
    tuple. *)
Theorem phone_row_is_cut_in_quoted_value :
  re_match re_header "INSERT INTO members (id, phone) VALUES ('1', '(202) 555-1234')"
    = Some ("", ["INSERT INTO members (id, phone) VALUES"; "('1', '(202) 555-1234')"]) /\
  findall_whole re_tuple "('1', '(202) 555-1234')" = ["('1', '(202)"] /\
  split_into_batches phone_row 50 = Ok [phone_row_cut].
Proof. repeat split; vm_compute; reflexivity. Qed.

(** C7, as stated, fails: a statement without its terminator is dropped,
    and the call returns normally with no batch and no error. *)
Lemma unterminated_rows_dropped_silently :
  split_into_batches unterminated_rows 50 = Ok [] /\
  forall e, split_into_batches unterminated_rows 50 <> Error e.
Proof. split; [vm_compute; reflexivity|]. intros e. vm_compute. discriminate. Qed.

(** C7, amended. [split_into_batches] has no parse error: a text without a
    semicolon gives no batch and no error; for a batch size other than 0
    the call always returns batches; its only error is the ValueError of
    [range] for the batch size 0; a statement whose header does not match
    the second pattern is passed on unchanged with its semicolon. *)
Theorem split_into_batches_has_no_parse_error (sql_content : string) (batch_size : Z) :
  occurs ";" sql_content = false ->
  split_into_batches sql_content batch_size = Ok [] /\
  (forall content bs, bs <> 0 -> exists batches, split_into_batches content bs = Ok batches) /\
  (forall content bs e,
     split_into_batches content bs = Error e -> e = ValueError /\ bs = 0) /\
  (forall insert inserts bs batches,
     re_match re_header insert = None ->
     split_inserts (insert :: inserts) bs batches
     = split_inserts inserts bs (batches ++ [insert +:+ ";"])) /\
  split_into_batches headless_rows 50 = Ok [headless_rows].
Proof.
  intros Hno. split; [|split; [|split; [|split]]].
  - unfold split_into_batches, findall_group, finditer.
    rewrite finditer_go_no_semicolon by exact Hno. reflexivity.
  - intros content bs Hbs. apply split_inserts_ok. exact Hbs.
  - intros content bs e. apply split_inserts_error.
  - intros insert inserts bs batches Hnone. simpl. rewrite Hnone. reflexivity.
  - vm_compute. reflexivity.
Qed.

Lemma split_into_batches_has_no_parse_error_witness :
  occurs ";" unterminated_rows = false /\
  split_into_batches unterminated_rows 7 = Ok [].
Proof.
  split; [reflexivity|].
  apply (split_into_batches_has_no_parse_error unterminated_rows 7). reflexivity.
Defined.

(** * Further properties: generate_member_seed_data.py *)

(** X1. [generate_phone] always ends, changes nothing of the generator, and
    returns a text of the form "(AAA) EEE-NNNN": an area code of the table,
    an exchange of 200..999, a number of 1000..9999; it has 14 characters
    and holds a closing parenthesis. *)
Theorem generate_phone_fixed_format (w : World) (st : State) :
  ensures w generate_phone st (fun phone st' =>
    phone_format phone /\ String.length phone = 14%nat /\ occurs ")" phone = true /\
    generated_emails st' = generated_emails st /\ chapters st' = chapters st).
Proof.
  eapply ensures_conseq; [apply ensures_generate_phone_format|].
  intros phone st' [[(Hc & He & _) _] Hf].
  destruct (phone_format_length phone Hf) as [Hlen Hocc]. auto.
Qed.

(** X2. [generate_zip_code] always ends with a text of 5 characters: a
    prefix of the state, or "900" when the state has no entry, followed by
    two digits. The table has entries for CA, TX, FL, NY and PA only, so
    the other five states that have cities (IL, OH, GA, NC, MI) get a zip
    code that starts with "900". *)
Theorem generate_zip_code_prefix_and_length (w : World) (st : State) (state : string) :
  ensures w (generate_zip_code state) st (fun zip st' =>
    zip_format state zip /\ String.length zip = 5%nat /\
    (~ In state (dict_keys zip_prefixes) ->
     exists n : Z, 0 <= n <= 99 /\ zip = "900" +:+ format_02d n)) /\
  dict_keys zip_prefixes = ["CA"; "TX"; "FL"; "NY"; "PA"] /\
  Forall (fun s => In s (dict_keys CITIES_BY_STATE) /\
                   dict_get zip_prefixes s ["900"] = ["900"])
         ["IL"; "OH"; "GA"; "NC"; "MI"].
Proof.
  split; [|split; [reflexivity|]].
  - eapply ensures_conseq; [apply ensures_generate_zip_code_format|].
    intros zip st' [_ Hf]. split; [exact Hf|].
    split; [exact (zip_format_length state zip Hf)|].
    intros Hno. destruct Hf as (prefix & n & Hp & Hn & ->).
    rewrite (dict_get_missing zip_prefixes state ["900"] Hno) in Hp.
    destruct Hp as [<-|[]]. exists n. auto.
  - repeat (apply List.Forall_cons;
              [split; [unfold dict_keys; simpl; tauto|reflexivity]|]).
    apply List.Forall_nil.
Qed.


(** X4. [generate_member_since_date] returns a day that is never after the
    day of its clock reading and at most 30 * 365 + 11 * 30 = 11280 days
    before it; its midnight is not after the reading. *)
Theorem member_since_within_window (w : World) (st : State) :
  ensures w generate_member_since_date st (fun since st' =>
    let today := strftime_date (clock w (clock_pos st)) in
    today - max_tenure_days <= since <= today /\
    strptime_date since <= clock w (clock_pos st) /\
    clock_pos st' = S (clock_pos st)).
Proof.
  eapply ensures_conseq; [apply ensures_generate_member_since_date|].
  intros since st' (_ & Hp & ya & ma & Hya & Hma & ->). cbv zeta.
  unfold max_tenure_days. split; [lia|]. split; [|exact Hp].
  apply Z.le_trans with (strptime_date (strftime_date (clock w (clock_pos st))));
    [|apply strptime_strftime_le].
  apply (proj1 (strptime_le _ _)). lia.
Qed.



(** X6. The cap of [calculate_ce_credits] is one-sided: for a
    [member_since] whose midnight is after the clock reading, the result is
    negative. *)
Theorem ce_credits_negative_for_future_member_since
    (w : World) (st : State) (member_since : Z) :
  clock w (clock_pos st) < strptime_date member_since ->
  ensures w (calculate_ce_credits member_since) st (fun ce st' => (ce < 0)%Q).
Proof.
  intros Hfuture.
  eapply ensures_conseq; [apply ensures_calculate_ce_credits|].
  intros ce st' (_ & _ & rate & Hr8 & _ & ->).
  apply ce_credits_value_negative; [|exact Hr8].
  unfold timedelta_get_days.
  assert ((clock w (clock_pos st) - strptime_date member_since) / DAY < 0); [|lia].
  apply Z.div_lt_upper_bound; [apply DAY_pos|lia].
Qed.

Lemma ce_credits_negative_for_future_member_since_witness :
  clock morning_world (clock_pos fresh_state) < strptime_date 20104 /\
  ensures morning_world (calculate_ce_credits 20104) fresh_state
    (fun ce st' => (ce < 0)%Q).
Proof.
  split; [reflexivity|].
  apply (ce_credits_negative_for_future_member_since morning_world fresh_state 20104).
  reflexivity.
Defined.

(** X7. [random.sample(population, k)] for 0 <= k <= len(population) ends
    with k elements drawn without replacement: the result is a sub-multiset
    of the population, so it has no repetition when the population has
    none. *)
Theorem sample_draws_without_replacement {A : Type}
    (w : World) (st : State) (population : list A) (k : Z) :
  0 <= k <= Z.of_nat (length population) ->
  ensures w (sample population k) st (fun l st' =>
    length l = Z.to_nat k /\ l ⊆+ population /\ (NoDup population -> NoDup l)).
Proof.
  intros Hk.
  eapply ensures_conseq; [apply ensures_sample_distinct; exact Hk|].
  intros l st' (_ & Hlen & Hsub). split; [exact Hlen|]. split; [exact Hsub|].
  apply NoDup_of_submseteq. exact Hsub.
Qed.

Lemma sample_draws_without_replacement_witness :
  0 <= 3 <= Z.of_nat (length JOB_TITLES) /\
  ensures morning_world (sample JOB_TITLES 3) fresh_state (fun l st' =>
    length l = 3%nat /\ l ⊆+ JOB_TITLES).
Proof.
  split; [simpl; lia|].
  eapply ensures_conseq.
  - apply (sample_draws_without_replacement morning_world fresh_state JOB_TITLES 3).
    simpl. lia.
  - intros l st' (H1 & H2 & _). auto.
Defined.

(** X8. In a run of [generate_members] the chapter of every record is the
    chapter at the index of a raw draw modulo the number of chapters
    (a uniform choice: [actual_member_count] plays no part); the record's
    chapter_id is that chapter's id, its state that chapter's state, or
    "CA" without one, and its city one of the cities listed for that state,
    or "City" for a state without a list. *)
Theorem records_chapter_and_location (N : nat) (w : World) (st : State) :
  chapters st <> [] -> clock_bounded w ->
  exists ms st',
    returns (generate_members N) w st ms st' /\ length ms = N /\
    Forall (member_location w (chapters st)) ms.
Proof.
  intros Hch Hb.
  destruct (generate_members_fields w N st Hch Hb) as (ms & st' & Hr & Hlen & Hall).
  exists ms, st'. split; [exact Hr|]. split; [exact Hlen|].
  eapply Forall_impl; [exact Hall|]. intros m [H _]. exact H.
Qed.

Lemma records_chapter_and_location_witness :
  chapters (new_generator [bare_chapter; illinois]) <> [] /\
  clock_bounded morning_world /\
  exists ms st',
    returns (generate_members 6) morning_world (new_generator [bare_chapter; illinois])
      ms st' /\
    length ms = 6%nat /\
    Forall (member_location morning_world [bare_chapter; illinois]) ms.
Proof.
  split; [discriminate|]. split; [apply clock_bounded_const|].
  apply (records_chapter_and_location 6 morning_world
           (new_generator [bare_chapter; illinois])).
  - discriminate.
  - apply clock_bounded_const.
Defined.

(** X9. Every record of a run is well formed: name is first_name, a blank,
    last_name; company_name is last_name, a blank, a company type of the
    pool; country is "USA"; the phone and the zip code have their formats;
    the engagement score is in 0..100; specialties holds 2 to 5 pairwise
    distinct entries of SPECIALTIES; job_title is of the pool;
    address_line2 is None or "Suite " and a number of 100..999; created_at
    is member_since. *)
Theorem records_well_formed (N : nat) (w : World) (st : State) :
  chapters st <> [] -> clock_bounded w ->
  exists ms st',
    returns (generate_members N) w st ms st' /\ length ms = N /\
    Forall member_well_formed ms.
Proof.
  intros Hch Hb.
  destruct (generate_members_fields w N st Hch Hb) as (ms & st' & Hr & Hlen & Hall).
  exists ms, st'. split; [exact Hr|]. split; [exact Hlen|].
  eapply Forall_impl; [exact Hall|]. intros m [_ H]. exact H.
Qed.

Lemma records_well_formed_witness :
  chapters fresh_state <> [] /\ clock_bounded midnight_world /\
  exists ms st',
    returns (generate_members 2) midnight_world fresh_state ms st' /\
    length ms = 2%nat /\ Forall member_well_formed ms.
Proof.
  split; [discriminate|]. split; [apply clock_bounded_const|].
  apply (records_well_formed 2 midnight_world fresh_state).
  - discriminate.
  - apply clock_bounded_const.
Defined.

(** X10. Emails are built from the lower-cased names: when the plain
    address and the address with counter 1 are both free, two calls of
    [generate_email] whose names agree up to case, with domain numbers that
    select the same domain, return the plain address and then the address
    with the counter 1, and both are issued afterwards. *)
Theorem same_name_twice_gets_counter_one
    (w : World) (st : State) (fn1 ln1 fn2 ln2 : string) (d1 d2 : nat) :
  lower fn1 = lower fn2 -> lower ln1 = lower ln2 ->
  (d1 mod 6 = d2 mod 6)%nat ->
  candidate (email_base fn1 ln1) (email_domain d1) 0 ∉ generated_emails st ->
  candidate (email_base fn1 ln1) (email_domain d1) 1 ∉ generated_emails st ->
  exists st',
    returns (e1 <- generate_email fn1 ln1 d1 ;;
             e2 <- generate_email fn2 ln2 d2 ;; ret (e1, e2)) w st
      (email_base fn1 ln1 +:+ "@" +:+ email_domain d1,
       email_base fn1 ln1 +:+ "1" +:+ "@" +:+ email_domain d1) st' /\
    generated_emails st'
    = {[ candidate (email_base fn1 ln1) (email_domain d1) 1 ]}
      ∪ ({[ candidate (email_base fn1 ln1) (email_domain d1) 0 ]} ∪ generated_emails st).
Proof.
  intros Hfn Hln Hd Hfree0 Hfree1.
  apply (generate_email_twice w st fn1 ln1 d1 fn2 ln2 d2); try assumption.
  - unfold email_base. now rewrite Hfn, Hln.
  - unfold email_domain. change (length domains) with 6%nat. now rewrite Hd.
Qed.

Lemma same_name_twice_gets_counter_one_witness :
  lower "Ann" = lower "ANN" /\ lower "Lee" = lower "lee" /\
  (0 mod 6 = 6 mod 6)%nat /\
  exists st',
    returns (e1 <- generate_email "Ann" "Lee" 0 ;;
             e2 <- generate_email "ANN" "lee" 6 ;; ret (e1, e2)) morning_world fresh_state
      ("ann.lee@gmail.com", "ann.lee1@gmail.com") st'.
Proof.
  split; [reflexivity|]. split; [reflexivity|]. split; [reflexivity|].
  destruct (same_name_twice_gets_counter_one morning_world fresh_state
              "Ann" "Lee" "ANN" "lee" 0 6) as (st' & Hr & _);
    try reflexivity; try (simpl; apply not_elem_of_empty).
  exists st'. exact Hr.
Defined.

(** * Further properties: import_to_supabase.py and the batching loop *)

(** X11. Every value set that the third pattern of [split_into_batches]
    finds, in any text, is an opening parenthesis, a non-empty body without
    closing parenthesis, and a closing parenthesis. So it is never a tuple
    that holds a phone number of [generate_phone], whatever stands before
    and after the phone number in the tuple. *)
Theorem value_sets_end_at_first_closing_parenthesis (s v : string) :
  In v (findall_whole re_tuple s) ->
  value_set_shape v /\
  forall pre phone post : string,
    phone_format phone -> v <> "(" +:+ pre +:+ phone +:+ post +:+ ")".
Proof.
  intros Hin. pose proof (findall_whole_re_tuple_shape s v Hin) as Hshape.
  split; [exact Hshape|].
  intros pre phone post Hphone Heq. subst v.
  assert (Hassoc : "(" +:+ pre +:+ phone +:+ post +:+ ")"
                   = "(" +:+ (pre +:+ phone +:+ post) +:+ ")")
    by (now rewrite !string_app_assoc).
  rewrite Hassoc in Hshape.
  apply (value_set_shape_no_inner_rparen (pre +:+ phone +:+ post)); [|exact Hshape].
  apply occurs_app. apply occurs_app_l.
  apply (phone_format_length phone Hphone).
Qed.

Lemma value_sets_end_at_first_closing_parenthesis_witness :
  In "('1', '(202)" (findall_whole re_tuple "('1', '(202) 555-1234')") /\
  value_set_shape "('1', '(202)".
Proof.
  assert (Hin : In "('1', '(202)" (findall_whole re_tuple "('1', '(202) 555-1234')")).
  { vm_compute. left. reflexivity. }
  split; [exact Hin|].
  apply (value_sets_end_at_first_closing_parenthesis "('1', '(202) 555-1234')"
           "('1', '(202)" Hin).
Defined.

(** X12. For a positive batch size the chunks of a list partition it: put
    end to end they are the list, none is empty, and there are
    ceil(len / batch_size) of them. *)
Theorem chunks_partition_the_list {A : Type} (xs : list A) (batch_size : Z)
    (cs : list (list A)) :
  0 < batch_size -> chunks xs batch_size = Ok cs ->
  concat cs = xs /\
  Forall (fun c => c <> []) cs /\
  Z.of_nat (length cs) = (Z.of_nat (length xs) + batch_size - 1) / batch_size.
Proof.
  intros Hbs Hcs. destruct (chunks_count xs batch_size cs Hbs Hcs) as [Hn Hne].
  split; [exact (chunks_concat xs batch_size cs Hbs Hcs)|]. auto.
Qed.

Lemma chunks_partition_the_list_witness :
  0 < 3 /\ chunks [1; 2; 3; 4; 5; 6; 7] 3 = Ok [[1; 2; 3]; [4; 5; 6]; [7]] /\
  concat [[1; 2; 3]; [4; 5; 6]; [7]] = [1; 2; 3; 4; 5; 6; 7].
Proof.
  split; [lia|]. split; [reflexivity|].
  apply (chunks_partition_the_list [1; 2; 3; 4; 5; 6; 7] 3); [lia|reflexivity].
Defined.

(** X13. The batching loop of [generate_members_sql], for a positive batch
    size: the tuples of the batches, put end to end, are the tuples of all
    members in their order; there are ceil(count / batch_size) batches; and
    the text of each batch is the header line, its tuples joined by a comma
    and a newline, a semicolon and a newline. *)
Theorem sql_batches_hold_every_member_once
    (all_members : list SchemaMember) (batch_size : Z) (tuples : list (list string)) :
  0 < batch_size -> member_batches all_members batch_size = Ok tuples ->
  concat tuples = map member_value all_members /\
  Z.of_nat (length tuples) = (Z.of_nat (length all_members) + batch_size - 1) / batch_size /\
  sql_batches all_members batch_size
  = Ok (map (fun values => members_header +:+ join ("," +:+ nl) values +:+ ";" +:+ nl)
            tuples).
Proof.
  intros Hbs Ht. split; [exact (member_batches_concat all_members batch_size tuples Hbs Ht)|].
  split.
  - unfold member_batches in Ht.
    destruct (chunks all_members batch_size) as [cs|e] eqn:E; [|discriminate].
    inversion Ht; subst tuples. rewrite length_map.
    apply (chunks_count all_members batch_size cs Hbs E).
  - unfold sql_batches. rewrite Ht. reflexivity.
Qed.

Lemma sql_batches_hold_every_member_once_witness :
  0 < 2 /\
  exists tuples,
    member_batches (repeat (mkSchemaMember "i" "e" "f" "l" "individual" "active" "c"
                              "j" "x" true "p" "co" "t" 7 "a") 5) 2 = Ok tuples /\
    Z.of_nat (length tuples) = (5 + 2 - 1) / 2.
Proof.
  split; [lia|].
  destruct (member_batches (repeat (mkSchemaMember "i" "e" "f" "l" "individual" "active"
                                      "c" "j" "x" true "p" "co" "t" 7 "a") 5) 2)
    as [tuples|e] eqn:E; [|vm_compute in E; discriminate].
  exists tuples. split; [reflexivity|].
  apply (sql_batches_hold_every_member_once _ 2 tuples ltac:(lia) E).
Defined.


(** X15. A negative batch size is not refused: every statement whose header
    matches the second pattern then yields no batch at all, and only the
    statements that do not match are passed through. *)
Theorem negative_batch_size_drops_matching_statements
    (sql_content : string) (batch_size : Z) :
  batch_size < 0 ->
  split_into_batches sql_content batch_size
  = Ok (map (fun i => i +:+ ";")
            (List.filter (fun i => negb (header_matches i))
                         (findall_group re_insert sql_content))).
Proof.
  intros Hbs. unfold split_into_batches.
  rewrite (split_inserts_negative _ batch_size Hbs []). reflexivity.
Qed.

Lemma negative_batch_size_drops_matching_statements_witness :
  -1 < 0 /\ split_into_batches three_rows (-1) = Ok [].
Proof.
  split; [lia|].
  rewrite (negative_batch_size_drops_matching_statements three_rows (-1)) by lia.
  vm_compute. reflexivity.
Defined.

(** X16. The batch size 0 raises ValueError exactly when some statement of
    the text has a header that matches the second pattern; a text whose
    statements all fail to match is passed through without error. *)
Theorem zero_batch_size_raises_for_matching_statement (sql_content : string) :
  (split_into_batches sql_content 0 = Error ValueError <->
   exists insert : string,
     In insert (findall_group re_insert sql_content) /\ header_matches insert = true) /\
  ((forall insert : string,
      In insert (findall_group re_insert sql_content) -> header_matches insert = false) ->
   split_into_batches sql_content 0
   = Ok (map (fun i => i +:+ ";") (findall_group re_insert sql_content))).
Proof.
  unfold split_into_batches. rewrite split_inserts_zero.
  set (inserts := findall_group re_insert sql_content).
  destruct (forallb (fun i => negb (header_matches i)) inserts) eqn:E.
  - rewrite forallb_forall in E. split; [split|].
    + discriminate.
    + intros (insert & Hin & Hm). specialize (E insert Hin). rewrite Hm in E. discriminate.
    + intros _. reflexivity.
  - assert (Hex : exists insert, In insert inserts /\ header_matches insert = true).
    { apply not_true_iff_false in E. rewrite forallb_forall in E.
      destruct (existsb header_matches inserts) eqn:Eb.
      - apply existsb_exists in Eb. exact Eb.
      - exfalso. apply E. intros x Hx.
        destruct (header_matches x) eqn:Hm; [|reflexivity].
        assert (existsb header_matches inserts = true)
          by (apply existsb_exists; eauto).
        congruence. }
    split; [split; [intros _; exact Hex|reflexivity]|].
    intros Hall. destruct Hex as (insert & Hin & Hm).
    rewrite (Hall insert Hin) in Hm. discriminate.
Qed.

(** * Further properties: generate_members_for_existing_schema.py *)

(** X17. The first loop of [generate_members_sql] always ends, whatever the
    random draws and the clock: it yields [count] records, the record of
    index [i] has the plain address made of its own lower-cased names and
    [i] (the retry loop of [generate_member] is never entered, since the
    index tells the addresses apart), the addresses are pairwise distinct,
    and the shared set holds exactly them. *)
Theorem schema_run_keeps_plain_addresses (isoformat : Z -> string) (w : World)
    (st : State) (count : nat) :
  ensures w (ExistingSchema.generate_all_members isoformat count) st (fun acc st' =>
    length (fst acc) = count /\
    (forall (i : nat) (m : SchemaMember),
       fst acc !! i = Some m ->
       sm_email m = ExistingSchema.plain_email (sm_first_name m) (sm_last_name m) i) /\
    NoDup (map sm_email (fst acc)) /\
    snd acc = list_to_set (map sm_email (fst acc)) /\
    chapters st' = chapters st /\ generated_emails st' = generated_emails st).
Proof.
  eapply ensures_conseq; [apply generate_all_members_spec|].
  intros acc st' Hinv. pose proof (schema_run_inv_NoDup _ _ _ _ _ _ Hinv) as Hnd.
  destruct Hinv as ((Hch & Hem & _) & Hlen & Hset & Hall).
  split; [exact Hlen|]. split; [intros i m Him; apply (Hall i m Him)|].
  split; [exact Hnd|]. auto.
Qed.


(** X19. The retry loop of [generate_member] has no bound and no way out:
    when the plain address of the drawn name and its addresses with every
    suffix from 1 to 999 are in [existing_emails], the call never returns,
    whatever the later draws are. *)
Theorem schema_generate_member_loops_when_all_taken (isoformat : Z -> string)
    (index : nat) (existing : gset string) (w : World) (st : State) :
  let f := nth (N.to_nat (rng w (rng_pos st) mod 30)) ExistingSchema.FIRST_NAMES "James" in
  let l := nth (N.to_nat (rng w (S (rng_pos st)) mod 30)) ExistingSchema.LAST_NAMES "Smith" in
  ExistingSchema.plain_email f l index ∈ existing ->
  (forall n : Z, 1 <= n <= 999 -> ExistingSchema.suffixed_email f l index n ∈ existing) ->
  forall fuel : nat,
    ExistingSchema.generate_member isoformat index existing fuel w st = OutOfFuel.
Proof. exact (schema_generate_member_stuck isoformat index existing w st). Qed.

Lemma schema_generate_member_loops_when_all_taken_witness :
  ExistingSchema.plain_email "James" "Smith" 0 ∈ james_smith_all_taken /\
  ExistingSchema.generate_member (fun _ => "") 0 james_smith_all_taken 1000%nat
    midnight_world fresh_state = OutOfFuel.
Proof.
  assert (Hplain : ExistingSchema.plain_email "James" "Smith" 0 ∈ james_smith_all_taken).
  { apply elem_of_list_to_set. left. }
  split; [exact Hplain|].
  apply (schema_generate_member_loops_when_all_taken (fun _ => "") 0 james_smith_all_taken
           midnight_world fresh_state).
  - exact Hplain.
  - intros n Hn. apply elem_of_list_to_set. right.
    apply list_elem_of_fmap. exists (Z.to_nat n). split.
    + change (nth _ ExistingSchema.FIRST_NAMES "James") with "James".
      change (nth _ ExistingSchema.LAST_NAMES "Smith") with "Smith".
      f_equal. lia.
    + apply elem_of_seq. lia.
Defined.

(** X20. For a batch size other than 0, [generate_members_sql] always ends
    and returns all [count] records with the batches made of them; a
    positive batch size gives ceil(count / batch_size) batches, a negative
    one gives no batch at all beside the [count] records. *)
Theorem generate_members_sql_returns_all_records (isoformat : Z -> string) (w : World)
    (st : State) (count : nat) (batch_size : Z) :
  batch_size <> 0 ->
  ensures w (ExistingSchema.generate_members_sql isoformat count batch_size) st
    (fun r st' =>
       length (snd r) = count /\
       sql_batches (snd r) batch_size = Ok (fst r) /\
       (0 < batch_size ->
        Z.of_nat (length (fst r)) = (Z.of_nat count + batch_size - 1) / batch_size) /\
       (batch_size < 0 -> fst r = [])).
Proof.
  intros Hbs. unfold ExistingSchema.generate_members_sql.
  eapply ensures_bind; [apply generate_all_members_spec|].
  intros acc st' (_ & Hlen & _). cbv zeta.
  destruct (Z.lt_total batch_size 0) as [Hneg|[Hz|Hpos]]; [|contradiction|].
  - rewrite (sql_batches_negative _ _ Hneg). apply ensures_ret. cbn [fst snd].
    split; [exact Hlen|]. split; [now apply sql_batches_negative|].
    split; [lia|reflexivity].
  - destruct (sql_batches_positive (fst acc) batch_size Hpos) as (batches & Hb & Hn).
    rewrite Hb. apply ensures_ret. cbn [fst snd].
    split; [exact Hlen|]. split; [exact Hb|]. split; [|lia].
    intros _. rewrite Hn, Hlen. reflexivity.
Qed.

Lemma generate_members_sql_returns_all_records_witness :
  3 <> 0 /\
  ensures midnight_world
    (ExistingSchema.generate_members_sql (fun _ => "") 7 3) fresh_state
    (fun r st' =>
       length (snd r) = 7%nat /\
       sql_batches (snd r) 3 = Ok (fst r) /\
       (0 < 3 -> Z.of_nat (length (fst r)) = (Z.of_nat 7 + 3 - 1) / 3) /\
       (3 < 0 -> fst r = [])).
Proof.
  split; [lia|].
  apply (generate_members_sql_returns_all_records (fun _ => "") midnight_world fresh_state
           7 3).
  lia.
Defined.

(** X21. With batch size 0, [generate_members_sql] raises ValueError, and
    only after all the records were generated: for every count, on every
    large enough fuel. *)
Theorem generate_members_sql_zero_batch_size_raises (isoformat : Z -> string)
    (w : World) (st : State) (count : nat) :
  exists f0 : nat, forall fuel : nat, (f0 <= fuel)%nat ->
    ExistingSchema.generate_members_sql isoformat count 0 fuel w st = Raised ValueError.
Proof.
  destruct (generate_all_members_spec isoformat w st count) as (acc & st' & [f0 Hr] & _).
  exists f0. intros fuel Hf. unfold ExistingSchema.generate_members_sql, bind.
  rewrite (Hr fuel Hf). cbv zeta. rewrite sql_batches_zero. reflexivity.
Qed.

(** * Further properties: read_sql_file *)

(** X22. The removal of comments cuts a line at its first double dash,
    wherever it stands, also inside a quoted value: for a text [p] that
    holds no double dash (nor forms one with the dash that follows), the
    rest [c] of the line is dropped with the two dashes, and the removal
    goes on with the following lines. *)
Theorem comments_run_to_the_end_of_their_line (p c rest : string) :
  has_sub "--" (p +:+ "-") = false ->
  all_chars not_newline c = true ->
  rest = "" \/ (exists r, rest = nl +:+ r) ->
  re_sub_empty re_comment (p +:+ "--" +:+ c +:+ rest)
  = p +:+ re_sub_empty re_comment rest.
Proof.
  intros Hp Hc Hrest. rewrite !re_sub_comment_cut. now apply cut_comments_line.
Qed.

Lemma comments_run_to_the_end_of_their_line_witness :
  re_sub_empty re_comment dashed_row = "INSERT INTO t (a) VALUES ('x".
Proof.
  exact (comments_run_to_the_end_of_their_line "INSERT INTO t (a) VALUES ('x" "y');" ""
           eq_refl eq_refl (or_introl eq_refl)).
Defined.

(** X23. After the removal of comments no double dash is left in the text,
    the newlines are all kept (the lines keep their numbers), and a second
    removal changes nothing; a text without double dash is returned as it
    is. *)
Theorem comment_removal_leaves_no_double_dash (s : string) :
  has_sub "--" (re_sub_empty re_comment s) = false /\
  count_char (ascii_of_nat 10) (re_sub_empty re_comment s) = count_char (ascii_of_nat 10) s /\
  re_sub_empty re_comment (re_sub_empty re_comment s) = re_sub_empty re_comment s /\
  (if has_sub "--" s then True else re_sub_empty re_comment s = s).
Proof.
  rewrite !re_sub_comment_cut.
  destruct (cut_comments_no_dashes s) as (Hno & _).
  split; [exact Hno|]. split; [apply cut_comments_count_newlines|].
  split; [now apply cut_comments_clean|].
  destruct (has_sub "--" s) eqn:E; [exact I|]. now apply cut_comments_clean.
Qed.

(** X24. The text returned by [read_sql_file] neither starts nor ends with
    white space. *)
Theorem read_sql_file_result_is_stripped (content : string) :
  from_option is_space false (first_char (read_sql_file content)) = false /\
  from_option is_space false (last_char (read_sql_file content)) = false.
Proof.
  unfold read_sql_file, strip. split.
  - apply rstrip_first, lstrip_first.
  - apply rstrip_last.
Qed.

(** X25. A statement with a double dash in one of its values is lost on
    the way from the file to the batches: when the text before the dashes
    holds no semicolon and the terminator stands on the line of the dashes,
    [read_sql_file] cuts the terminator off and [split_into_batches] finds
    no statement, for every batch size and without any error. *)
Theorem statement_with_double_dash_is_lost (p c : string) (batch_size : Z) :
  has_sub "--" (p +:+ "-") = false ->
  occurs ";" p = false ->
  all_chars not_newline c = true ->
  split_into_batches (read_sql_file (p +:+ "--" +:+ c)) batch_size = Ok [].
Proof.
  intros Hp Hsemi Hc. apply split_into_batches_no_semicolon.
  apply occurs_read_sql_file.
  rewrite <- (string_app_nil_r c), re_sub_comment_cut.
  rewrite cut_comments_line by auto. cbn [cut_comments].
  now rewrite string_app_nil_r.
Qed.

Lemma statement_with_double_dash_is_lost_witness :
  split_into_batches (read_sql_file dashed_row) 50 = Ok [].
Proof.
  exact (statement_with_double_dash_is_lost "INSERT INTO t (a) VALUES ('x" "y');" 50
           eq_refl eq_refl eq_refl).
Defined.

(** * Further properties: the statements of the splitter, the status cascade *)

(** X26. Every statement that the first pattern of [split_into_batches]
    finds, in any text, stands in the text directly before a semicolon and
    is the keyword with a table name of word characters, any text, the
    keyword VALUES and a text without semicolon: a statement ends at the
    first semicolon after its VALUES keyword, also when that semicolon
    stands inside a quoted value. *)
Theorem statements_end_at_first_semicolon (s insert : string) :
  In insert (findall_group re_insert s) ->
  statement_shape insert /\
  exists pre post : string, s = pre +:+ insert +:+ ";" +:+ post.
Proof. apply findall_group_re_insert_shape. Qed.

Lemma statements_end_at_first_semicolon_witness :
  In "INSERT INTO t (a) VALUES ('x" (findall_group re_insert semicolon_row) /\
  statement_shape "INSERT INTO t (a) VALUES ('x".
Proof.
  assert (Hin : In "INSERT INTO t (a) VALUES ('x" (findall_group re_insert semicolon_row)).
  { vm_compute. left. reflexivity. }
  split; [exact Hin|].
  exact (proj1 (statements_end_at_first_semicolon semicolon_row
                  "INSERT INTO t (a) VALUES ('x" Hin)).
Defined.

